(** * screenshot_automator: the commit-driven capture core of screenshotter.py

    A shallow embedding of [src/screenshotter.py] and the properties of its
    plan builder, configuration overlay, output paths, capture loop and
    teardown.

    Conventions of the embedding.
    - A Python [str] is a [string]; a character is the code point of its
      [ascii] (code points below 256).
    - A value read from the YAML document is a [pyval] (a YAML scalar); the
      fields of a [ScreenshotSpec] that the configuration may assign hold a
      [pyval], as the Python attribute does.
    - A Python [dict] is a [gmap] over its keys.
    - The collaborators the program drives (git checkout, the PHP server
      process, the Playwright browser) are operations on an abstract world;
      each either returns or raises.  The orchestrator threads the world, the
      log of calls made to the collaborators and [self.results].
    - [BrowserCapture] is also modelled call by call, over an engine that
      runs each call to Playwright, to the file system and to the title bar
      renderer; the orchestrator over it is the backend [engine_backend].
    - The title bar is the image created and the drawing calls made on it,
      given what Pillow measures.
    - What the program prints is left out, but for the file names of
      [--list]; the sleeps of fixed length are left out. *)

From Stdlib Require Import ZArith QArith Ascii String List Lia DecimalString.
From Stdlib Require DecimalPos DecimalZ.
From stdpp Require Import base option list strings gmap.

Local Open Scope string_scope.
Local Open Scope Z_scope.

(** ** Python strings *)

Module Str.

(** [s.startswith(p)], returning what follows the prefix. *)
Fixpoint strip_prefix (p s : string) : option string :=
  match p, s with
  | EmptyString, _ => Some s
  | String a p', String b s' => if Ascii.eqb a b then strip_prefix p' s' else None
  | String _ _, EmptyString => None
  end.

(** The longest prefix of [s] whose characters satisfy [keep], and the rest. *)
Fixpoint span (keep : ascii -> bool) (s : string) : string * string :=
  match s with
  | EmptyString => (EmptyString, EmptyString)
  | String c s' =>
      if keep c then let '(a, b) := span keep s' in (String c a, b)
      else (EmptyString, s)
  end.

(** [s.split(sep)] for a one-character separator: the pieces between the
    separators, empty pieces kept; the empty string gives one empty piece. *)
Fixpoint split (sep : ascii) (s : string) : list string :=
  match s with
  | EmptyString => [EmptyString]
  | String c s' =>
      if Ascii.eqb c sep then EmptyString :: split sep s'
      else match split sep s' with
           | h :: t => String c h :: t
           | [] => [String c EmptyString]
           end
  end.

(** [c.isspace()] on the code points below 256: TAB, LF, VT, FF, CR, the
    separators FS, GS, RS, US, the space, NEL and the no-break space. *)
Definition isspace (c : ascii) : bool :=
  let n := nat_of_ascii c in
  ((9 <=? n)%nat && (n <=? 13)%nat) || ((28 <=? n)%nat && (n <=? 32)%nat)
  || (n =? 133)%nat || (n =? 160)%nat.

Fixpoint lstrip (s : string) : string :=
  match s with
  | EmptyString => EmptyString
  | String c s' => if isspace c then lstrip s' else s
  end.

Fixpoint rstrip (s : string) : string :=
  match s with
  | EmptyString => EmptyString
  | String c s' =>
      match rstrip s' with
      | EmptyString => if isspace c then EmptyString else String c EmptyString
      | r => String c r
      end
  end.

(** [s.strip()] *)
Definition strip (s : string) : string := rstrip (lstrip s).

(** [s[:n]] for a natural [n]. *)
Definition take (n : nat) (s : string) : string := substring 0 n s.

(** [s.split("\n")[0]]: the text before the first line feed. *)
Definition first_line (s : string) : string :=
  default EmptyString (head (split "010"%char s)).

(** [sep.join(l)] *)
Fixpoint join (sep : string) (l : list string) : string :=
  match l with
  | [] => EmptyString
  | [x] => x
  | x :: l' => x ++ sep ++ join sep l'
  end.

(** All characters of [s] satisfy [p]. *)
Fixpoint all (p : ascii -> bool) (s : string) : bool :=
  match s with
  | EmptyString => true
  | String c s' => p c && all p s'
  end.

(** The first and the last character of a string. *)
Definition first (s : string) : option ascii :=
  match s with EmptyString => None | String c _ => Some c end.

Fixpoint last (s : string) : option ascii :=
  match s with
  | EmptyString => None
  | String c EmptyString => Some c
  | String _ s' => last s'
  end.

End Str.

(** ** Values of the YAML document *)

Inductive pyval : Type :=
  | PNone
  | PBool (b : bool)
  | PInt (z : Z)
  | PFloat (q : Q)
  | PStr (s : string).

(** Python truth value of a scalar, as [if custom_output:] tests it. *)
Definition truthy (v : pyval) : bool :=
  match v with
  | PNone => false
  | PBool b => b
  | PInt z => negb (z =? 0)
  | PFloat q => negb (Qeq_bool q 0)
  | PStr s => negb (String.eqb s EmptyString)
  end.

(** ** The data classes *)

Module ScreenshotSpec.

Record t : Type := mk {
  name : string;
  commit_sha : string;
  commit_message : string;
  url : pyval;
  output_path : pyval;
  viewport_width : pyval;
  viewport_height : pyval;
  full_page : pyval;
  wait_for : pyval;
  delay : pyval;
  is_error_page : bool;
  description : string;
  show_title_bar : pyval;
  title_bar_style : pyval
}.

(** [ScreenshotSpec(name=..., commit_sha=..., commit_message=...,
    description=...)]: the field defaults of the dataclass, then
    [__post_init__], which fills the empty [output_path]. *)
Definition new (name sha message description : string) : t :=
  {| name := name;
     commit_sha := sha;
     commit_message := message;
     url := PStr "/";
     output_path := PStr ("screenshots/" ++ name ++ ".png");
     viewport_width := PInt 1280;
     viewport_height := PInt 800;
     full_page := PBool false;
     wait_for := PNone;
     delay := PFloat 1;
     is_error_page := false;
     description := description;
     show_title_bar := PBool false;
     title_bar_style := PStr "chrome" |}.

(** Attribute assignment [spec.f = v], one per assigned field. *)
Definition set_url (v : pyval) (s : t) : t :=
  mk (name s) (commit_sha s) (commit_message s) v (output_path s)
     (viewport_width s) (viewport_height s) (full_page s) (wait_for s) (delay s)
     (is_error_page s) (description s) (show_title_bar s) (title_bar_style s).

Definition set_output_path (v : pyval) (s : t) : t :=
  mk (name s) (commit_sha s) (commit_message s) (url s) v
     (viewport_width s) (viewport_height s) (full_page s) (wait_for s) (delay s)
     (is_error_page s) (description s) (show_title_bar s) (title_bar_style s).

Definition set_viewport_width (v : pyval) (s : t) : t :=
  mk (name s) (commit_sha s) (commit_message s) (url s) (output_path s)
     v (viewport_height s) (full_page s) (wait_for s) (delay s)
     (is_error_page s) (description s) (show_title_bar s) (title_bar_style s).

Definition set_viewport_height (v : pyval) (s : t) : t :=
  mk (name s) (commit_sha s) (commit_message s) (url s) (output_path s)
     (viewport_width s) v (full_page s) (wait_for s) (delay s)
     (is_error_page s) (description s) (show_title_bar s) (title_bar_style s).

Definition set_full_page (v : pyval) (s : t) : t :=
  mk (name s) (commit_sha s) (commit_message s) (url s) (output_path s)
     (viewport_width s) (viewport_height s) v (wait_for s) (delay s)
     (is_error_page s) (description s) (show_title_bar s) (title_bar_style s).

Definition set_wait_for (v : pyval) (s : t) : t :=
  mk (name s) (commit_sha s) (commit_message s) (url s) (output_path s)
     (viewport_width s) (viewport_height s) (full_page s) v (delay s)
     (is_error_page s) (description s) (show_title_bar s) (title_bar_style s).

Definition set_delay (v : pyval) (s : t) : t :=
  mk (name s) (commit_sha s) (commit_message s) (url s) (output_path s)
     (viewport_width s) (viewport_height s) (full_page s) (wait_for s) v
     (is_error_page s) (description s) (show_title_bar s) (title_bar_style s).

Definition set_show_title_bar (v : pyval) (s : t) : t :=
  mk (name s) (commit_sha s) (commit_message s) (url s) (output_path s)
     (viewport_width s) (viewport_height s) (full_page s) (wait_for s) (delay s)
     (is_error_page s) (description s) v (title_bar_style s).

Definition set_title_bar_style (v : pyval) (s : t) : t :=
  mk (name s) (commit_sha s) (commit_message s) (url s) (output_path s)
     (viewport_width s) (viewport_height s) (full_page s) (wait_for s) (delay s)
     (is_error_page s) (description s) (show_title_bar s) v.

End ScreenshotSpec.

Module CommitScreenshots.

Record t : Type := mk {
  commit_sha : string;
  commit_message : string;
  screenshots : list ScreenshotSpec.t;
  description : string;
  index : Z
}.

(** [commit_group.index = i] *)
Definition set_index (i : Z) (g : t) : t :=
  mk (commit_sha g) (commit_message g) (screenshots g) (description g) i.

End CommitScreenshots.

(** ** pathlib: pure POSIX paths *)

Module Path.

(** A parsed path: the root ([""], ["/"] or ["//"]) and the components after
    it; empty components and ["."] are dropped when the text is parsed. *)
Record t : Type := mk { root : string; parts : list string }.

Definition is_slash (c : ascii) : bool := Ascii.eqb c "/".

(** [posixpath.splitroot]: no leading slash, no root; exactly two leading
    slashes, the root ["//"]; one, or three and more, the root ["/"]. *)
Definition splitroot (s : string) : string * string :=
  match s with
  | String a s1 =>
      if is_slash a then
        match s1 with
        | String b s2 =>
            if is_slash b then
              match s2 with
              | String c _ => if is_slash c then ("/", s1) else ("//", s2)
              | EmptyString => ("//", s2)
              end
            else ("/", s1)
        | EmptyString => ("/", s1)
        end
      else ("", s)
  | EmptyString => ("", s)
  end.

Definition keep_part (x : string) : bool :=
  negb (String.eqb x "") && negb (String.eqb x ".").

(** [Path(s)] *)
Definition parse (s : string) : t :=
  let '(r, rel) := splitroot s in
  mk r (filter (fun x => Is_true (keep_part x)) (Str.split "/" rel)).

(** [str(p)] *)
Definition to_str (p : t) : string :=
  match root p, parts p with
  | EmptyString, [] => "."
  | r, l => r ++ Str.join "/" l
  end.

(** [p.name]: the last component, empty when there is none. *)
Definition name (p : t) : string := default "" (last (parts p)).

(** [name.rfind(".")]: the index of the last dot. *)
Fixpoint rfind_dot (s : string) : option nat :=
  match s with
  | EmptyString => None
  | String c s' =>
      match rfind_dot s' with
      | Some i => Some (S i)
      | None => if Ascii.eqb c "." then Some 0%nat else None
      end
  end.

(** The index that splits [p.name] into stem and suffix: the last dot, when
    it is neither the first nor the last character. *)
Definition suffix_index (nm : string) : option nat :=
  match rfind_dot nm with
  | Some i => if ((0 <? i)%nat && (i <? String.length nm - 1)%nat)%bool then Some i else None
  | None => None
  end.

(** [p.suffix] *)
Definition suffix (p : t) : string :=
  match suffix_index (name p) with
  | Some i => substring i (String.length (name p) - i) (name p)
  | None => ""
  end.

(** [p.stem] *)
Definition stem (p : t) : string :=
  match suffix_index (name p) with
  | Some i => substring 0 i (name p)
  | None => name p
  end.

(** [p.parent]: the path without its last component; a path with no
    component is its own parent. *)
Definition parent (p : t) : t :=
  match parts p with
  | [] => p
  | l => mk (root p) (removelast l)
  end.

(** [p / key] for a string [key]: an anchored [key] replaces [p], any other
    one adds its components to those of [p]. *)
Definition truediv (p : t) (key : string) : t :=
  let k := parse key in
  match root k with
  | EmptyString => mk (root p) (parts p ++ parts k)
  | _ => k
  end.

End Path.

(** ** Exceptions *)

(** What an exception is to this program: whether [except Exception] catches
    it, and its text [str(e)]. *)
Inductive exn : Type :=
  | Exception (msg : string)
  | BaseException (msg : string).

Inductive outcome (A : Type) : Type :=
  | Returned (a : A)
  | Raised (e : exn).
Arguments Returned {A} a.
Arguments Raised {A} e.

(** ** The configuration document *)

(** [self.config]: the three top-level keys the program reads; a key that
    the document lacks is [None]. *)
Record Config : Type := {
  output_dir : option string;
  defaults : option (gmap string pyval);
  screenshots : option (gmap string (gmap string pyval))
}.

(** [{}], the configuration when no file is given. *)
Definition empty_config : Config :=
  {| output_dir := None; defaults := None; screenshots := None |}.

(** ** Results *)

Inductive Status : Type := success | error.

(** One entry of [self.results].  The key ["error"] exists only in the
    error entries: [r_error] is [None] otherwise; ["path"] holds [None] in
    the error entries. *)
Record RunResult : Type := {
  r_name : string;
  r_filename : string;
  r_path : option string;
  r_commit : string;
  r_commit_index : Z;
  r_status : Status;
  r_error : option string
}.

(** ** The collaborators *)

(** The operations of the outside world the program calls.  Each runs on the
    current world and returns or raises. *)
Record Backend : Type := {
  World : Type;
  (** [repo.git.checkout(ref)] *)
  git_checkout : string -> World -> outcome unit * World;
  (** [subprocess.Popen(["php", "-S", ...])], then the two-second sleep *)
  popen_server : World -> outcome unit * World;
  (** [process.terminate()], [process.wait()] *)
  terminate_server : World -> outcome unit * World;
  (** [shutil.rmtree(cache_dir)] when [cache_dir.exists()] *)
  rmtree_cache : World -> outcome unit * World;
  (** [BrowserCapture.start(headless)] *)
  browser_start : bool -> World -> outcome unit * World;
  (** [BrowserCapture.capture(spec, base_url)]: the path written *)
  browser_capture : ScreenshotSpec.t -> string -> World -> outcome string * World;
  (** [BrowserCapture.stop()] *)
  browser_stop : World -> outcome unit * World
}.

(** A call the orchestrator makes to one of its three components. *)
Inductive Call : Type :=
  | browser_start_call (headless : bool)
  | server_start_call
  | checkout_commit_call (sha : string)
  | clear_cache_call
  | server_restart_call
  | capture_call (spec : ScreenshotSpec.t) (base_url : string)
  | browser_stop_call
  | server_stop_call
  | restore_original_call.

(** ** The state the run threads, and its computations *)

Section Run.

Context (B : Backend).

(** The world, [self.server.process] (set or [None]), the calls made so far
    and [self.results]. *)
Record St : Type := {
  world : World B;
  process : bool;
  log : list Call;
  results : list RunResult
}.

Definition initial (w : World B) : St :=
  {| world := w; process := false; log := []; results := [] |}.

(** A computation: from a state to a returned value or a raised exception,
    and the state reached. *)
Definition M (A : Type) : Type := St -> outcome A * St.

Definition ret {A} (a : A) : M A := fun st => (Returned a, st).

Definition raise {A} (e : exn) : M A := fun st => (Raised e, st).

Definition bind {A C} (m : M A) (k : A -> M C) : M C :=
  fun st =>
    match m st with
    | (Returned a, st') => k a st'
    | (Raised e, st') => (Raised e, st')
    end.

(** An operation of the backend, run on the current world. *)
Definition lift {A} (op : World B -> outcome A * World B) : M A :=
  fun st =>
    let '(r, w) := op (world st) in
    (r, {| world := w; process := process st; log := log st; results := results st |}).

(** A value computed without the world, or the exception raised instead. *)
Definition pure {A} (r : outcome A) : M A := fun st => (r, st).

Definition record_call (c : Call) : M unit :=
  fun st =>
    (Returned tt,
     {| world := world st; process := process st; log := log st ++ [c]; results := results st |}).

Definition set_process (b : bool) : M unit :=
  fun st =>
    (Returned tt,
     {| world := world st; process := b; log := log st; results := results st |}).

Definition get_process : M bool := fun st => (Returned (process st), st).

(** [self.results.append(r)] *)
Definition append_result (r : RunResult) : M unit :=
  fun st =>
    (Returned tt,
     {| world := world st; process := process st; log := log st; results := results st ++ [r] |}).

(** [try: body except Exception as e: handler(e)]: an exception that is not
    an [Exception] passes through. *)
Definition try_except {A} (body : M A) (handler : string -> M A) : M A :=
  fun st =>
    match body st with
    | (Raised (Exception msg), st') => handler msg st'
    | r => r
    end.

(** [try: body finally: final]: [final] runs whatever [body] did; what it
    raises replaces the outcome of [body]. *)
Definition try_finally {A} (body : M A) (final : M unit) : M A :=
  fun st =>
    let '(r, st') := body st in
    match final st' with
    | (Returned _, st'') => (r, st'')
    | (Raised e, st'') => (Raised e, st'')
    end.

(** [for x in l: body(x)] *)
Fixpoint for_each {A} (l : list A) (body : A -> M unit) : M unit :=
  match l with
  | [] => ret tt
  | x :: l' => bind (body x) (fun _ => for_each l' body)
  end.

End Run.

Arguments world {B} _.
Arguments process {B} _.
Arguments log {B} _.
Arguments results {B} _.
Arguments ret {B A} _ _.
Arguments raise {B A} _ _.
Arguments bind {B A C} _ _ _.
Arguments lift {B A} _ _.
Arguments pure {B A} _ _.
Arguments record_call {B} _ _.
Arguments set_process {B} _ _.
Arguments get_process {B} _.
Arguments append_result {B} _ _.
Arguments try_except {B A} _ _ _.
Arguments try_finally {B A} _ _ _.
Arguments for_each {B A} _ _ _.

Notation "x <- m ;; k" := (bind m (fun x => k))
  (at level 100, m at next level, right associativity).
Notation "m ;; k" := (bind m (fun _ => k))
  (at level 100, right associativity).

(** ** GitProjectManager: the plan builder *)

(** A commit as [repo.iter_commits()] yields it. *)
Record Commit : Type := { hexsha : string; message : string }.

Module GitProjectManager.

Definition TAG_OPEN : string := "[screenshot:".

Definition not_closing (c : ascii) : bool := negb (Ascii.eqb c "]").

(** [SCREENSHOT_PATTERN] anchored at the start of [s]: the literal
    [[screenshot:], the greedy class [[^\]]+], the literal []].  The class
    stops only before a []] or at the end of the text, so the match exists
    exactly when the run is not empty and a []] follows it; the result is
    group 1. *)
Definition match_here (s : string) : option string :=
  match Str.strip_prefix TAG_OPEN s with
  | None => None
  | Some rest =>
      match Str.span not_closing rest with
      | (String c g, String _ _) => Some (String c g)
      | _ => None
      end
  end.

(** [SCREENSHOT_PATTERN.search(s)]: the match at the leftmost position that
    has one; [None] when no position has. *)
Fixpoint search (s : string) : option string :=
  match match_here s with
  | Some g => Some g
  | None =>
      match s with
      | EmptyString => None
      | String _ s' => search s'
      end
  end.

(** [[name.strip() for name in screenshot_names_str.split(",")]] *)
Definition screenshot_names (group1 : string) : list string :=
  map Str.strip (Str.split "," group1).

(** The body of the loop over [iter_commits()] for one commit: the group
    appended to [commits_with_screenshots], if the message matches. *)
Definition commit_group (c : Commit) : option CommitScreenshots.t :=
  match search (message c) with
  | None => None
  | Some group1 =>
      let specs :=
        map (fun name =>
               ScreenshotSpec.new name (hexsha c) (message c)
                 (Str.first_line (message c)))
            (screenshot_names group1) in
      Some (CommitScreenshots.mk (hexsha c) (message c) specs
              (Str.first_line (message c)) 0)
  end.

(** [enumerate(groups, start=1)] with the index stored in each group. *)
Definition assign_indices (groups : list CommitScreenshots.t) : list CommitScreenshots.t :=
  imap (fun i g => CommitScreenshots.set_index (Z.of_nat i + 1) g) groups.

(** [get_screenshot_commits], on the commits in the order [iter_commits()]
    yields them (newest first). *)
Definition get_screenshot_commits (history : list Commit) : list CommitScreenshots.t :=
  assign_indices (reverse (omap commit_group history)).

(** [get_all_screenshot_specs] *)
Definition get_all_screenshot_specs (history : list Commit) : list ScreenshotSpec.t :=
  concat (map CommitScreenshots.screenshots (get_screenshot_commits history)).

(** What [__init__] keeps of the repository: the name of the active branch,
    the head commit, and the commits [iter_commits()] yields. *)
Record t : Type := mk {
  original_branch : string;
  original_commit : string;
  commits : list Commit
}.

(** [__init__]: the guard on the GitPython import, then [git.Repo(path)] and
    the reads of the active branch and of the head, given as the outcome
    [opened]. *)
Definition __init__ (GIT_AVAILABLE : bool) (opened : outcome t) : outcome t :=
  if GIT_AVAILABLE then opened
  else Raised (Exception "GitPython est requis").

(** [checkout_commit(sha)] *)
Definition checkout_commit {B : Backend} (sha : string) : M B unit :=
  lift (git_checkout B sha).

(** [restore_original()] *)
Definition restore_original {B : Backend} (self : t) : M B unit :=
  lift (git_checkout B (original_branch self)).

(** An entry [commit.tree.traverse()] yields: its type, its path, and what
    [data_stream.read().decode("utf-8")] gives on it. *)
Record TreeItem : Type := {
  item_type : string;
  item_path : string;
  item_text : outcome string
}.

(** The body of the loop of [get_files_at_commit]. *)
Definition add_file (files : gmap string string) (blob : TreeItem) : gmap string string :=
  if String.eqb (item_type blob) "blob" then
    match item_text blob with
    | Returned text => <[item_path blob := text]> files
    | Raised _ => files
    end
  else files.

(** [get_files_at_commit(sha)], from the outcome of [repo.commit(sha)] and
    the traversal of its tree. *)
Definition get_files_at_commit (commit : outcome (list TreeItem))
    : outcome (gmap string string) :=
  match commit with
  | Returned tree => Returned (foldl add_file ∅ tree)
  | Raised e => Raised e
  end.

End GitProjectManager.

(** ** SymfonyServer *)

Module SymfonyServer.

(** [self.base_url] for the default port. *)
Definition base_url : string := "http://127.0.0.1:8000".

(** [start()] *)
Definition start {B : Backend} : M B unit :=
  running <- get_process ;;
  if running : bool then ret tt
  else lift (popen_server B) ;; set_process true.

(** [stop()] *)
Definition stop {B : Backend} : M B unit :=
  running <- get_process ;;
  if running : bool then lift (terminate_server B) ;; set_process false
  else ret tt.

(** [restart()] *)
Definition restart {B : Backend} : M B unit :=
  stop ;; start.

(** [clear_cache()] *)
Definition clear_cache {B : Backend} : M B unit :=
  lift (rmtree_cache B).

End SymfonyServer.

(** ** BrowserCapture *)

Module BrowserCapture.

(** [__init__]: the guard on the Playwright import. *)
Definition __init__ (PLAYWRIGHT_AVAILABLE : bool) : outcome unit :=
  if PLAYWRIGHT_AVAILABLE then Returned tt
  else Raised (Exception "Playwright est requis").

(** The calls the methods make to Playwright, to the file system, to the
    clock and to the title bar renderer, with their arguments. *)
Inductive Op : Type :=
  | sync_playwright_start
  | chromium_launch (headless : bool)
  | browser_new_context
  | context_new_page
  | page_set_viewport_size (width height : pyval)
  | page_goto (url : string)
  | page_wait_for_selector (selector : pyval)
  | time_sleep (seconds : pyval)
  | mkdir (dir : Path.t)
  | page_screenshot (path : string) (full_page : pyval)
  | page_close
  | add_title_bar (image_path title url : string) (style : pyval)
  | context_close
  | browser_close
  | playwright_stop.

(** What runs the calls: each call returns or raises on the current machine;
    [page.title()] returns a text. *)
Record Engine : Type := {
  Machine : Type;
  perform : Op -> Machine -> outcome unit * Machine;
  page_title : Machine -> outcome string * Machine
}.

(** The attributes of the object: set, or [None]; [title_bar_renderer] does
    not exist before [start] assigns it. *)
Record Obj : Type := {
  playwright : bool;
  browser : bool;
  context : bool;
  title_bar_renderer : option bool
}.

(** The object [__init__] leaves. *)
Definition fresh : Obj :=
  {| playwright := false; browser := false; context := false; title_bar_renderer := None |}.

Definition set_playwright (o : Obj) : Obj :=
  {| playwright := true; browser := browser o; context := context o;
     title_bar_renderer := title_bar_renderer o |}.

Definition set_browser (o : Obj) : Obj :=
  {| playwright := playwright o; browser := true; context := context o;
     title_bar_renderer := title_bar_renderer o |}.

Definition set_context (o : Obj) : Obj :=
  {| playwright := playwright o; browser := browser o; context := true;
     title_bar_renderer := title_bar_renderer o |}.

Definition set_title_bar_renderer (r : bool) (o : Obj) : Obj :=
  {| playwright := playwright o; browser := browser o; context := context o;
     title_bar_renderer := Some r |}.

Section Methods.

Context (G : Engine).

(** The machine, the object, and the calls made so far. *)
Record BSt : Type := {
  machine : Machine G;
  self : Obj;
  ops : list Op
}.

Definition C (A : Type) : Type := BSt -> outcome A * BSt.

Definition done {A} (a : A) : C A := fun st => (Returned a, st).

Definition fail {A} (e : exn) : C A := fun st => (Raised e, st).

Definition and_then {A D} (m : C A) (k : A -> C D) : C D :=
  fun st =>
    match m st with
    | (Returned a, st') => k a st'
    | (Raised e, st') => (Raised e, st')
    end.

(** A value computed without the machine, or the exception raised instead. *)
Definition value {A} (r : outcome A) : C A := fun st => (r, st).

(** One call: noted, then run on the machine. *)
Definition call (op : Op) : C unit :=
  fun st =>
    let '(r, m) := perform G op (machine st) in
    (r, {| machine := m; self := self st; ops := ops st ++ [op] |}).

(** [page.title()] *)
Definition title : C string :=
  fun st =>
    let '(r, m) := page_title G (machine st) in
    (r, {| machine := m; self := self st; ops := ops st |}).

(** [self.attribute] *)
Definition attr {A} (f : Obj -> A) : C A := fun st => (Returned (f (self st)), st).

(** [self.attribute = ...] *)
Definition assign (f : Obj -> Obj) : C unit :=
  fun st => (Returned tt, {| machine := machine st; self := f (self st); ops := ops st |}).

(** [try: body except Exception: pass] *)
Definition except_Exception (body : C unit) : C unit :=
  fun st =>
    match body st with
    | (Raised (Exception _), st') => (Returned tt, st')
    | r => r
    end.

(** [try: body except: pass] *)
Definition except_all (body : C unit) : C unit :=
  fun st =>
    match body st with
    | (Raised _, st') => (Returned tt, st')
    | r => r
    end.

End Methods.

Arguments machine {G} _.
Arguments self {G} _.
Arguments ops {G} _.
Arguments done {G A} _ _.
Arguments fail {G A} _ _.
Arguments and_then {G A D} _ _ _.
Arguments value {G A} _ _.
Arguments call {G} _ _.
Arguments title {G} _.
Arguments attr {G A} _ _.
Arguments assign {G} _ _.
Arguments except_Exception {G} _ _.
Arguments except_all {G} _ _.

Notation "'let*' x := m 'in' k" := (and_then m (fun x => k))
  (at level 10, x name, m at level 100, k at level 200).

(** The name of the type of a scalar, as an [AttributeError] prints it. *)
Definition type_name (v : pyval) : string :=
  match v with
  | PNone => "NoneType"
  | PBool _ => "bool"
  | PInt _ => "int"
  | PFloat _ => "float"
  | PStr _ => "str"
  end.

(** [AttributeError] *)
Definition attribute_error (type attribute : string) : exn :=
  Exception ("'" ++ type ++ "' object has no attribute '" ++ attribute ++ "'").

(** [Path(v)] for a value that is not a string. *)
Definition path_type_error : exn :=
  Exception "expected str, bytes or os.PathLike object".

(** [spec.url if spec.url.startswith("http") else f"{base_url}{spec.url}"] *)
Definition resolve_url (spec : ScreenshotSpec.t) (base_url : string) : outcome string :=
  match ScreenshotSpec.url spec with
  | PStr u =>
      Returned (match Str.strip_prefix "http" u with
                | Some _ => u
                | None => base_url ++ u
                end)
  | v => Raised (attribute_error (type_name v) "startswith")
  end.

(** [Path(spec.output_path)] *)
Definition output_path_of (spec : ScreenshotSpec.t) : outcome Path.t :=
  match ScreenshotSpec.output_path spec with
  | PStr s => Returned (Path.parse s)
  | _ => Raised path_type_error
  end.

(** [page.title() or "Sans titre"] *)
Definition or_untitled (t : string) : string :=
  if String.eqb t "" then "Sans titre" else t.

(** [start(headless)], with the flag of the Pillow import. *)
Definition start {G : Engine} (PIL_AVAILABLE : bool) (headless : bool) : C G unit :=
  let* _ := call sync_playwright_start in
  let* _ := assign set_playwright in
  let* _ := call (chromium_launch headless) in
  let* _ := assign set_browser in
  let* _ := call browser_new_context in
  let* _ := assign set_context in
  assign (set_title_bar_renderer PIL_AVAILABLE).

(** [capture(spec, base_url)] *)
Definition capture {G : Engine} (spec : ScreenshotSpec.t) (base_url : string) : C G string :=
  let* ctx := attr context in
  let* _ := (if ctx : bool then call context_new_page
             else fail (attribute_error "NoneType" "new_page")) in
  let* _ := call (page_set_viewport_size (ScreenshotSpec.viewport_width spec)
                                         (ScreenshotSpec.viewport_height spec)) in
  let* url := value (resolve_url spec base_url) in
  let* _ := except_Exception (call (page_goto url)) in
  let* _ := (if truthy (ScreenshotSpec.wait_for spec)
             then except_all (call (page_wait_for_selector (ScreenshotSpec.wait_for spec)))
             else done tt) in
  let* _ := call (time_sleep (ScreenshotSpec.delay spec)) in
  let* t := title in
  let page_title := or_untitled t in
  let* output_path := value (output_path_of spec) in
  let* _ := call (mkdir (Path.parent output_path)) in
  let* _ := call (page_screenshot (Path.to_str output_path) (ScreenshotSpec.full_page spec)) in
  let* _ := call page_close in
  let* _ := (if truthy (ScreenshotSpec.show_title_bar spec) then
               let* renderer := attr title_bar_renderer in
               match renderer with
               | None => fail (attribute_error "BrowserCapture" "title_bar_renderer")
               | Some true =>
                   except_Exception
                     (call (add_title_bar (Path.to_str output_path) page_title url
                                          (ScreenshotSpec.title_bar_style spec)))
               | Some false => done tt
               end
             else done tt) in
  done (Path.to_str output_path).

(** [stop()] *)
Definition stop {G : Engine} : C G unit :=
  let* c := attr context in
  let* _ := (if c : bool then call context_close else done tt) in
  let* b := attr browser in
  let* _ := (if b : bool then call browser_close else done tt) in
  let* p := attr playwright in
  if p : bool then call playwright_stop else done tt.

End BrowserCapture.

(** [f"{index:02d}"]: the decimal digits, with a zero in front of a single
    digit. *)
Definition format_02d (i : Z) : string :=
  let s := NilZero.string_of_int (Z.to_int i) in
  if (String.length s <? 2)%nat then "0" ++ s else s.

(** [f"{commit_group.index:02d}_"] *)
Definition commit_prefix (i : Z) : string := format_02d i ++ "_".

(** ** ScreenshotOrchestrator *)

Module ScreenshotOrchestrator.

(** [if key in cfg: spec.field = cfg[key]] *)
Definition assign_if_in (key : string) (cfg : gmap string pyval)
    (set : pyval -> ScreenshotSpec.t -> ScreenshotSpec.t) (spec : ScreenshotSpec.t) : ScreenshotSpec.t :=
  match cfg !! key with
  | Some v => set v spec
  | None => spec
  end.

(** The block run when [spec.name in screenshots_config]. *)
Definition apply_named (cfg : gmap string pyval) (spec : ScreenshotSpec.t) : ScreenshotSpec.t :=
  let spec := assign_if_in "url" cfg ScreenshotSpec.set_url spec in
  let spec := assign_if_in "viewport_width" cfg ScreenshotSpec.set_viewport_width spec in
  let spec := assign_if_in "viewport_height" cfg ScreenshotSpec.set_viewport_height spec in
  let spec := assign_if_in "full_page" cfg ScreenshotSpec.set_full_page spec in
  let spec := assign_if_in "wait_for" cfg ScreenshotSpec.set_wait_for spec in
  let spec := assign_if_in "delay" cfg ScreenshotSpec.set_delay spec in
  let spec := assign_if_in "output" cfg ScreenshotSpec.set_output_path spec in
  let spec := assign_if_in "show_title_bar" cfg ScreenshotSpec.set_show_title_bar spec in
  assign_if_in "title_bar_style" cfg ScreenshotSpec.set_title_bar_style spec.

(** The first block: the keys read from [config["defaults"]]. *)
Definition apply_defaults (global_config : gmap string pyval) (spec : ScreenshotSpec.t) : ScreenshotSpec.t :=
  let spec := assign_if_in "show_title_bar" global_config ScreenshotSpec.set_show_title_bar spec in
  assign_if_in "title_bar_style" global_config ScreenshotSpec.set_title_bar_style spec.

(** [_apply_screenshot_config]: the spec after the assignments. *)
Definition _apply_screenshot_config (config : Config) (spec : ScreenshotSpec.t) : ScreenshotSpec.t :=
  let global_config := default ∅ (defaults config) in
  let spec := apply_defaults global_config spec in
  let screenshots_config := default ∅ (screenshots config) in
  match screenshots_config !! ScreenshotSpec.name spec with
  | Some cfg => apply_named cfg spec
  | None => spec
  end.

(** [Path(v)] for a value that is not a string. *)
Definition path_type_error : exn :=
  Exception "expected str, bytes or os.PathLike object".

(** [_generate_output_path] *)
Definition _generate_output_path (config : Config) (spec : ScreenshotSpec.t)
    (commit_prefix : string) : outcome string :=
  let output_dir := default "screenshots" (output_dir config) in
  let screenshots_config := default ∅ (screenshots config) in
  let fallback := Returned (output_dir ++ "/" ++ commit_prefix ++ ScreenshotSpec.name spec ++ ".png") in
  match screenshots_config !! ScreenshotSpec.name spec with
  | Some cfg =>
      match cfg !! "output" with
      | Some custom_output =>
          if truthy custom_output then
            match custom_output with
            | PStr s =>
                let path := Path.parse s in
                let new_filename := commit_prefix ++ Path.stem path ++ Path.suffix path in
                Returned (Path.to_str (Path.truediv (Path.parent path) new_filename))
            | _ => Raised path_type_error
            end
          else fallback
      | None => fallback
      end
  | None => fallback
  end.

(** The orchestrator object: its configuration and its git manager; the
    server and the browser it owns live in the state of the run. *)
Record t : Type := mk {
  config : Config;
  git_manager : GitProjectManager.t
}.

Section Methods.

Context {B : Backend}.

(** [setup(headless)] *)
Definition setup (headless : bool) : M B unit :=
  record_call (browser_start_call headless) ;;
  lift (browser_start B headless) ;;
  record_call server_start_call ;;
  SymfonyServer.start.

(** [teardown()] *)
Definition teardown (self : t) : M B unit :=
  record_call browser_stop_call ;;
  lift (browser_stop B) ;;
  record_call server_stop_call ;;
  SymfonyServer.stop ;;
  record_call restore_original_call ;;
  GitProjectManager.restore_original (git_manager self).

(** [screenshots_to_take]: the group's captures, restricted to [only] when
    [only] is a list with an element. *)
Definition screenshots_to_take (only : option (list string)) (g : CommitScreenshots.t) : list ScreenshotSpec.t :=
  match only with
  | Some (n :: names) =>
      filter (fun s => ScreenshotSpec.name s ∈ n :: names) (CommitScreenshots.screenshots g)
  | _ => CommitScreenshots.screenshots g
  end.

(** The entry appended after a capture that returned [path]. *)
Definition success_entry (g : CommitScreenshots.t) (commit_prefix : string)
    (spec : ScreenshotSpec.t) (path : string) : RunResult :=
  {| r_name := ScreenshotSpec.name spec;
     r_filename := commit_prefix ++ ScreenshotSpec.name spec ++ ".png";
     r_path := Some path;
     r_commit := Str.take 8 (CommitScreenshots.commit_sha g);
     r_commit_index := CommitScreenshots.index g;
     r_status := success;
     r_error := None |}.

(** The entry appended by the handler of the capture, with [str(e)]. *)
Definition error_entry (g : CommitScreenshots.t) (commit_prefix : string)
    (spec : ScreenshotSpec.t) (e : string) : RunResult :=
  {| r_name := ScreenshotSpec.name spec;
     r_filename := commit_prefix ++ ScreenshotSpec.name spec ++ ".png";
     r_path := None;
     r_commit := Str.take 8 (CommitScreenshots.commit_sha g);
     r_commit_index := CommitScreenshots.index g;
     r_status := error;
     r_error := Some e |}.

(** The entry appended for each capture of a group by the handler of the
    checkout. *)
Definition checkout_failed_entry (g : CommitScreenshots.t) (commit_prefix : string)
    (spec : ScreenshotSpec.t) (e : string) : RunResult :=
  {| r_name := ScreenshotSpec.name spec;
     r_filename := commit_prefix ++ ScreenshotSpec.name spec ++ ".png";
     r_path := None;
     r_commit := Str.take 8 (CommitScreenshots.commit_sha g);
     r_commit_index := CommitScreenshots.index g;
     r_status := error;
     r_error := Some ("Checkout failed: " ++ e) |}.

(** The body of the loop over [screenshots_to_take]: one capture, inside its
    own [try]. *)
Definition take_screenshot (self : t) (g : CommitScreenshots.t) (commit_prefix : string)
    (spec : ScreenshotSpec.t) : M B unit :=
  try_except
    (let spec := _apply_screenshot_config (config self) spec in
     output <- pure (_generate_output_path (config self) spec commit_prefix) ;;
     let spec := ScreenshotSpec.set_output_path (PStr output) spec in
     record_call (capture_call spec SymfonyServer.base_url) ;;
     path <- lift (browser_capture B spec SymfonyServer.base_url) ;;
     append_result (success_entry g commit_prefix spec path))
    (fun e => append_result (error_entry g commit_prefix spec e)).

(** The body of the loop over [commit_groups]. *)
Definition process_group (self : t) (only : option (list string)) (g : CommitScreenshots.t) : M B unit :=
  match screenshots_to_take only g with
  | [] => ret tt
  | to_take =>
      let commit_prefix := commit_prefix (CommitScreenshots.index g) in
      try_except
        (record_call (checkout_commit_call (CommitScreenshots.commit_sha g)) ;;
         GitProjectManager.checkout_commit (CommitScreenshots.commit_sha g) ;;
         record_call clear_cache_call ;;
         SymfonyServer.clear_cache ;;
         record_call server_restart_call ;;
         SymfonyServer.restart ;;
         for_each to_take (take_screenshot self g commit_prefix))
        (fun e =>
           for_each to_take
             (fun spec => append_result (checkout_failed_entry g commit_prefix spec e)))
  end.

(** [run_from_git(only)] *)
Definition run_from_git (self : t) (only : option (list string)) : M B unit :=
  match GitProjectManager.get_screenshot_commits (GitProjectManager.commits (git_manager self)) with
  | [] => ret tt
  | commit_groups => for_each commit_groups (process_group self only)
  end.

End Methods.

(** [__init__(project_path, config_path)]: the configuration is loaded when
    a path is given, then the three components are built in the order git
    manager, server, browser. *)
Definition __init__ (GIT_AVAILABLE PLAYWRIGHT_AVAILABLE : bool)
    (loaded : option (outcome Config)) (opened : outcome GitProjectManager.t) : outcome t :=
  match default (Returned empty_config) loaded with
  | Raised e => Raised e
  | Returned config =>
      match GitProjectManager.__init__ GIT_AVAILABLE opened with
      | Raised e => Raised e
      | Returned git_manager =>
          match BrowserCapture.__init__ PLAYWRIGHT_AVAILABLE with
          | Raised e => Raised e
          | Returned _ => Returned (mk config git_manager)
          end
      end
  end.

End ScreenshotOrchestrator.

(** ** main *)

(** The parsed command line. *)
Record Args : Type := {
  project_path : string;
  config_arg : option string;
  only_arg : option (list string);
  list_arg : bool;
  no_headless : bool
}.

(** What the process finds when it starts: the three import flags, whether
    the project path exists, the YAML document at a path, the repository at
    a path. *)
Record Env : Type := {
  PLAYWRIGHT_AVAILABLE : bool;
  GIT_AVAILABLE : bool;
  PIL_AVAILABLE : bool;
  path_exists : string -> bool;
  load_config : string -> outcome Config;
  open_repo : string -> outcome GitProjectManager.t
}.

(** How [main] ends: [sys.exit(code)], an exception nobody caught, or the
    end of the function. *)
Inductive Exit : Type :=
  | SysExit (code : Z)
  | Uncaught (e : exn)
  | Done.

(** The file names [--list] prints, group after group. *)
Definition listing (commit_groups : list CommitScreenshots.t) : list string :=
  flat_map (fun cg =>
      map (fun spec => commit_prefix (CommitScreenshots.index cg) ++ ScreenshotSpec.name spec ++ ".png")
          (CommitScreenshots.screenshots cg))
    commit_groups.

(** [ScreenshotOrchestrator(args.project_path, args.config)] as [main]
    builds it; an empty [--config] counts as none. *)
Definition make_orchestrator (env : Env) (args : Args) : outcome ScreenshotOrchestrator.t :=
  ScreenshotOrchestrator.__init__ (GIT_AVAILABLE env) (PLAYWRIGHT_AVAILABLE env)
    (match config_arg args with
     | Some p => if String.eqb p "" then None else Some (load_config env p)
     | None => None
     end)
    (open_repo env (project_path args)).

(** The [try ... finally] of [main]. *)
Definition guarded_run {B : Backend} (orchestrator : ScreenshotOrchestrator.t) (args : Args) : M B unit :=
  try_finally
    (ScreenshotOrchestrator.setup (negb (no_headless args)) ;;
     ScreenshotOrchestrator.run_from_git orchestrator (only_arg args))
    (ScreenshotOrchestrator.teardown orchestrator).

(** [main()]: how it ends, the lines of the plan it listed, and the state of
    the run. *)
Definition main {B : Backend} (env : Env) (args : Args) (w : World B) : Exit * list string * St B :=
  if negb (path_exists env (project_path args)) then (SysExit 1, [], initial B w)
  else
    match make_orchestrator env args with
    | Raised e => (Uncaught e, [], initial B w)
    | Returned orchestrator =>
        if list_arg args then
          (SysExit 0,
           listing (GitProjectManager.get_screenshot_commits
                      (GitProjectManager.commits (ScreenshotOrchestrator.git_manager orchestrator))),
           initial B w)
        else
          match guarded_run orchestrator args (initial B w) with
          | (Returned _, st) => (Done, [], st)
          | (Raised e, st) => (Uncaught e, [], st)
          end
    end.


(** ** A scripted backend *)

(** A backend with injected faults, to run the orchestrator on: the world
    counts the operations performed. *)
Module Scripted.

Record Faults : Type := {
  bad_refs : list string;
  bad_names : list string;
  browser_stop_fails : bool;
  terminate_fails : bool
}.

Definition no_faults : Faults :=
  {| bad_refs := []; bad_names := []; browser_stop_fails := false; terminate_fails := false |}.

Definition mem (x : string) (l : list string) : bool := existsb (String.eqb x) l.

(** Checkout of a reference of [bad_refs] raises, capture of a name of
    [bad_names] raises, the two stops raise as the flags say; a capture that
    succeeds returns [str(Path(spec.output_path))], as [capture] does. *)
Definition backend (f : Faults) : Backend :=
  {| World := nat;
     git_checkout ref w :=
       (if mem ref (bad_refs f)
        then Raised (Exception ("pathspec '" ++ ref ++ "' did not match any file(s) known to git"))
        else Returned tt, S w);
     popen_server w := (Returned tt, S w);
     terminate_server w :=
       (if terminate_fails f then Raised (Exception "No such process") else Returned tt, S w);
     rmtree_cache w := (Returned tt, S w);
     browser_start _ w := (Returned tt, S w);
     browser_capture spec _ w :=
       (if mem (ScreenshotSpec.name spec) (bad_names f)
        then Raised (Exception "Page.screenshot: Target closed")
        else match ScreenshotSpec.output_path spec with
             | PStr s => Returned (Path.to_str (Path.parse s))
             | _ => Raised ScreenshotOrchestrator.path_type_error
             end, S w);
     browser_stop w :=
       (if browser_stop_fails f then Raised (Exception "Browser has been closed") else Returned tt,
        S w) |}.

(** The history of the end-to-end example of the specification, newest
    commit first. *)
Definition history : list Commit :=
  [ {| hexsha := "b2c4e6a8d0f1a3b5"; message := "[screenshot:home,about] Add the about page" |};
    {| hexsha := "7d9f1b3c5e7a9b1d"; message := "Tidy the templates" |};
    {| hexsha := "1a3c5e7f9b2d4f6a"; message := "[screenshot:home] Add the home page" |} ].

Definition git_manager : GitProjectManager.t :=
  GitProjectManager.mk "main" "b2c4e6a8d0f1a3b5" history.

Definition orchestrator (config : Config) : ScreenshotOrchestrator.t :=
  ScreenshotOrchestrator.mk config git_manager.

(** A document with a custom output for [home]. *)
Definition custom_config : Config :=
  {| output_dir := None;
     defaults := None;
     screenshots := Some {[ "home" := {[ "output" := PStr "custom/h.png" ]} ]} |}.

Definition args : Args :=
  {| project_path := "demo"; config_arg := None; only_arg := None;
     list_arg := false; no_headless := false |}.

(** The two groups of the plan of [history]. *)
Definition group1 : CommitScreenshots.t :=
  CommitScreenshots.mk "1a3c5e7f9b2d4f6a" "[screenshot:home] Add the home page"
    [ScreenshotSpec.new "home" "1a3c5e7f9b2d4f6a" "[screenshot:home] Add the home page"
       "[screenshot:home] Add the home page"]
    "[screenshot:home] Add the home page" 1.

Definition group2 : CommitScreenshots.t :=
  CommitScreenshots.mk "b2c4e6a8d0f1a3b5" "[screenshot:home,about] Add the about page"
    [ScreenshotSpec.new "home" "b2c4e6a8d0f1a3b5" "[screenshot:home,about] Add the about page"
       "[screenshot:home,about] Add the about page";
     ScreenshotSpec.new "about" "b2c4e6a8d0f1a3b5" "[screenshot:home,about] Add the about page"
       "[screenshot:home,about] Add the about page"]
    "[screenshot:home,about] Add the about page" 2.

(** The checkout of the first commit fails. *)
Definition checkout_fault : Faults :=
  {| bad_refs := ["1a3c5e7f9b2d4f6a"]; bad_names := [];
     browser_stop_fails := false; terminate_fails := false |}.

(** The capture of [home] fails. *)
Definition capture_fault : Faults :=
  {| bad_refs := []; bad_names := ["home"];
     browser_stop_fails := false; terminate_fails := false |}.

(** The stop of the browser fails. *)
Definition stop_fault : Faults :=
  {| bad_refs := []; bad_names := [];
     browser_stop_fails := true; terminate_fails := false |}.

(** The checkout of the first commit fails, and so does every capture of
    [about]. *)
Definition mixed_faults : Faults :=
  {| bad_refs := ["1a3c5e7f9b2d4f6a"]; bad_names := ["about"];
     browser_stop_fails := false; terminate_fails := false |}.

(** An environment where the project exists and its repository opens, with
    the Playwright flag as given. *)
Definition env (playwright : bool) : Env :=
  {| PLAYWRIGHT_AVAILABLE := playwright;
     GIT_AVAILABLE := true;
     PIL_AVAILABLE := true;
     path_exists := fun _ => true;
     load_config := fun _ => Returned empty_config;
     open_repo := fun _ => Returned git_manager |}.

(** The command line [demo --list]. *)
Definition list_args : Args :=
  {| project_path := "demo"; config_arg := None; only_arg := None;
     list_arg := true; no_headless := false |}.

(** The guarded run of [main] on the scripted backend, from a fresh world. *)
Definition run (f : Faults) (config : Config) (args : Args) : outcome unit * St (backend f) :=
  guarded_run (orchestrator config) args (initial (backend f) 0%nat).

End Scripted.

(** An engine on which the navigation, the wait for the selector and the
    title bar raise, and every other call returns; the machine counts the
    calls. *)
Module ScriptedEngine.

Import BrowserCapture.

Definition flaky (op : Op) : bool :=
  match op with
  | page_goto _ | page_wait_for_selector _ | add_title_bar _ _ _ _ => true
  | _ => false
  end.

Definition engine (page_title : string) : Engine :=
  {| Machine := nat;
     perform op m :=
       (if flaky op then Raised (Exception "Timeout 10000ms exceeded") else Returned tt, S m);
     BrowserCapture.page_title m := (Returned page_title, S m) |}.

(** An object after [start] with Pillow, on a machine that made no call. *)
Definition started (page_title : string) : BSt (engine page_title) :=
  Build_BSt (engine page_title) 0%nat
    (set_title_bar_renderer true (set_context (set_browser (set_playwright fresh)))) [].

(** A capture with a selector to wait for and a title bar. *)
Definition spec : ScreenshotSpec.t :=
  ScreenshotSpec.set_show_title_bar (PBool true)
    (ScreenshotSpec.set_wait_for (PStr "#main")
       (ScreenshotSpec.set_url (PStr "/about")
          (ScreenshotSpec.set_output_path (PStr "out//02_about.png")
             (ScreenshotSpec.new "about" "b2c4e6a8d0f1a3b5" "" "")))).

End ScriptedEngine.

(** ** The orchestrator over [BrowserCapture] *)

(** What the machine offers besides the browser: git and the server
    process. *)
Record Host (G : BrowserCapture.Engine) : Type := {
  checkout : string -> BrowserCapture.Machine G -> outcome unit * BrowserCapture.Machine G;
  popen : BrowserCapture.Machine G -> outcome unit * BrowserCapture.Machine G;
  terminate : BrowserCapture.Machine G -> outcome unit * BrowserCapture.Machine G;
  rmtree : BrowserCapture.Machine G -> outcome unit * BrowserCapture.Machine G
}.
Arguments checkout {G} _ _ _.
Arguments popen {G} _ _.
Arguments terminate {G} _ _.
Arguments rmtree {G} _ _.

(** An operation of the machine, run from a state of the browser. *)
Definition on_machine {G : BrowserCapture.Engine} {A : Type}
    (op : BrowserCapture.Machine G -> outcome A * BrowserCapture.Machine G)
    : BrowserCapture.BSt G -> outcome A * BrowserCapture.BSt G :=
  fun st =>
    let '(r, m) := op (BrowserCapture.machine st) in
    (r, BrowserCapture.Build_BSt G m (BrowserCapture.self st) (BrowserCapture.ops st)).

(** The collaborators of the orchestrator, the browser being
    [BrowserCapture] on the engine: the world is the state of the browser. *)
Definition engine_backend (G : BrowserCapture.Engine) (H : Host G) (PIL_AVAILABLE : bool)
    : Backend :=
  {| World := BrowserCapture.BSt G;
     git_checkout ref := on_machine (checkout H ref);
     popen_server := on_machine (popen H);
     terminate_server := on_machine (terminate H);
     rmtree_cache := on_machine (rmtree H);
     browser_start := BrowserCapture.start PIL_AVAILABLE;
     browser_capture := BrowserCapture.capture;
     browser_stop := BrowserCapture.stop |}.

(** A host whose every operation returns, for the scripted engine. *)
Definition scripted_host (page_title : string) : Host (ScriptedEngine.engine page_title) :=
  Build_Host (ScriptedEngine.engine page_title)
    (fun _ m => (Returned tt, S m)) (fun m => (Returned tt, S m))
    (fun m => (Returned tt, S m)) (fun m => (Returned tt, S m)).

(** ** TitleBarRenderer *)

Module TitleBarRenderer.

Definition Color : Type := (Z * Z * Z)%type.

(** One entry of [STYLES]. *)
Record Style : Type := {
  bg_color : Color;
  title_color : Color;
  url_bg : Color;
  url_color : Color;
  button_colors : list Color;
  height : Z;
  url_bar_height : Z
}.

Definition chrome : Style :=
  {| bg_color := (222, 225, 230);
     title_color := (60, 64, 67);
     url_bg := (255, 255, 255);
     url_color := (95, 99, 104);
     button_colors := [(237, 106, 94); (245, 191, 79); (98, 197, 84)];
     height := 72;
     url_bar_height := 32 |}.

Definition safari : Style :=
  {| bg_color := (244, 244, 244);
     title_color := (0, 0, 0);
     url_bg := (255, 255, 255);
     url_color := (128, 128, 128);
     button_colors := [(255, 95, 87); (255, 189, 46); (39, 201, 63)];
     height := 52;
     url_bar_height := 28 |}.

Definition minimal : Style :=
  {| bg_color := (248, 249, 250);
     title_color := (33, 37, 41);
     url_bg := (255, 255, 255);
     url_color := (108, 117, 125);
     button_colors := [(255, 95, 87); (255, 189, 46); (39, 201, 63)];
     height := 40;
     url_bar_height := 24 |}.

Definition STYLES : gmap string Style :=
  <["chrome" := chrome]> (<["safari" := safari]> {["minimal" := minimal]}).

(** [__init__] *)
Definition __init__ (PIL_AVAILABLE : bool) : outcome unit :=
  if PIL_AVAILABLE then Returned tt
  else Raised (Exception "Pillow est requis pour les barres de titre").

(** [self.STYLES.get(style, self.STYLES["chrome"])]: the subscript raises
    [KeyError] without the key; a value that is no text is no key of the
    table. *)
Definition style_config (style : pyval) : outcome Style :=
  match STYLES !! "chrome" with
  | None => Raised (Exception "'chrome'")
  | Some fallback =>
      Returned (match style with
                | PStr s => default fallback (STYLES !! s)
                | _ => fallback
                end)
  end.

Inductive Font : Type := title_font | url_font.

(** The calls that draw on the new image, with their arguments. *)
Inductive Draw : Type :=
  | ellipse (x0 y0 x1 y1 : Z) (fill : Color)
  | text (x y : Z) (s : string) (fill : Color) (font : Font)
  | rounded_rectangle (x0 y0 x1 y1 : Z) (radius : Z) (fill : Color)
  | paste (x y : Z).

(** What Pillow answers: [original.size], and [draw.textbbox((0, 0), ...)]
    for the title and for the address. *)
Record Measures : Type := {
  original_size : Z * Z;
  title_bbox : Z * Z * Z * Z;
  url_bbox : Z * Z * Z * Z
}.

(** The image [Image.new] creates, and the drawing calls made on it, in
    order. *)
Record Picture : Type := {
  size : Z * Z;
  background : Color;
  draws : list Draw
}.

(** The loop over [style_config["button_colors"]]. *)
Definition buttons (style_config : Style) : list Draw :=
  let button_y := 14 in
  let button_x := 16 in
  let button_radius := 6 in
  let button_spacing := 20 in
  imap (fun i color =>
          let x := button_x + Z.of_nat i * button_spacing in
          ellipse (x - button_radius) (button_y - button_radius)
                  (x + button_radius) (button_y + button_radius) color)
       (button_colors style_config).

(** [add_title_bar(image_path, title, url, style)]: the picture saved over
    the capture when every call to Pillow returns. *)
Definition add_title_bar (title url : string) (style : pyval) (ms : Measures)
    : outcome Picture :=
  match style_config style with
  | Raised e => Raised e
  | Returned style_config =>
      let '(original_width, original_height) := original_size ms in
      let bar_height := height style_config in
      let new_height := original_height + bar_height in
      let '(tx0, ty0, tx1, ty1) := title_bbox ms in
      let title_width := tx1 - tx0 in
      let title_x := (original_width - title_width) / 2 in
      let title_y := 10 in
      let url_bar_y := 34 in
      let url_bar_height := url_bar_height style_config in
      let url_bar_margin := 80 in
      let url_bar_radius := url_bar_height / 2 in
      let '(ux0, uy0, ux1, uy1) := url_bbox ms in
      let url_text_width := ux1 - ux0 in
      let url_x := (original_width - url_text_width) / 2 in
      let url_y := url_bar_y + (url_bar_height - (uy1 - uy0)) / 2 in
      Returned
        {| size := (original_width, new_height);
           background := bg_color style_config;
           draws :=
             (buttons style_config
              ++ [text title_x title_y title (title_color style_config) title_font;
                  rounded_rectangle url_bar_margin url_bar_y
                    (original_width - url_bar_margin) (url_bar_y + url_bar_height)
                    url_bar_radius (url_bg style_config);
                  text url_x url_y url (url_color style_config) url_font;
                  paste 0 bar_height])%list |}
  end.

(** [extract_page_title(page)], from the outcome of [page.title()]. *)
Definition extract_page_title (page_title : outcome string) : string :=
  match page_title with
  | Returned t => if String.eqb t "" then "Sans titre" else t
  | Raised _ => "Sans titre"
  end.

End TitleBarRenderer.

(** ** The vocabulary of the statements *)

(** [text] starts with a complete tag whose names are [names]: the opening
    literal, a non-empty run without a closing bracket, the closing
    bracket. *)
Definition tag_at (text names : string) : Prop :=
  exists post,
    text = GitProjectManager.TAG_OPEN ++ names ++ "]" ++ post
    /\ names <> ""
    /\ Str.all GitProjectManager.not_closing names = true.

(** [text] holds a complete tag somewhere. *)
Definition has_tag (text : string) : Prop :=
  exists pre rest names, text = pre ++ rest /\ tag_at rest names.

(** [names] are the names of the first complete tag of [text]: no complete
    tag starts before it. *)
Definition first_tag (text names : string) : Prop :=
  exists pre rest,
    text = pre ++ rest /\ tag_at rest names
    /\ forall p1 p2 n, pre = p1 ++ p2 -> p2 <> "" -> ~ tag_at (p2 ++ rest) n.

(** [name] is [piece] without the white space around it. *)
Definition trimmed_of (piece name : string) : Prop :=
  exists l r,
    piece = l ++ name ++ r
    /\ Str.all Str.isspace l = true /\ Str.all Str.isspace r = true
    /\ (forall c, Str.first name = Some c -> Str.isspace c = false)
    /\ (forall c, Str.last name = Some c -> Str.isspace c = false).

Definition not_comma (c : ascii) : bool := negb (Ascii.eqb c ",").

(** [pieces] are the comma-separated items of [names]. *)
Definition comma_separated (names : string) (pieces : list string) : Prop :=
  pieces <> [] /\ Str.join "," pieces = names
  /\ Forall (fun p => Str.all not_comma p = true) pieces.

(** The number of calls of [restore_original] in a log. *)
(** The value a key resolves to above a level: that of the level when the
    level has the key, the value from below otherwise. *)
Definition after (level : gmap string pyval) (key : string) (below : pyval) : pyval :=
  default below (level !! key).

(** A character of a sequence prefix: a digit, the sign, the underscore. *)
Definition prefix_char (c : ascii) : bool :=
  let n := nat_of_ascii c in
  ((48 <=? n)%nat && (n <=? 57)%nat) || (n =? 45)%nat || (n =? 95)%nat.

(** The custom output configured for [spec]: the value under ["output"] of
    the entry named as the spec, if both exist. *)
Definition custom_output (config : Config) (spec : ScreenshotSpec.t) : option pyval :=
  match default ∅ (screenshots config) !! ScreenshotSpec.name spec with
  | Some cfg => cfg !! "output"
  | None => None
  end.

(** The file name an entry of the results must carry: the prefix of the
    index of its commit, its name, [.png]. *)
Definition filename_ok (r : RunResult) : Prop :=
  r_filename r = commit_prefix (r_commit_index r) ++ r_name r ++ ".png".

(** No operation of the backend raises anything but an [Exception]. *)
Definition raises_only_exceptions (B : Backend) : Prop :=
  (forall ref w m, fst (git_checkout B ref w) <> Raised (BaseException m))
  /\ (forall w m, fst (popen_server B w) <> Raised (BaseException m))
  /\ (forall w m, fst (terminate_server B w) <> Raised (BaseException m))
  /\ (forall w m, fst (rmtree_cache B w) <> Raised (BaseException m))
  /\ (forall h w m, fst (browser_start B h w) <> Raised (BaseException m))
  /\ (forall spec base w m, fst (browser_capture B spec base w) <> Raised (BaseException m))
  /\ (forall w m, fst (browser_stop B w) <> Raised (BaseException m)).

(** From the state [st], the first two steps of teardown return: the stop
    of the browser does, and so does the termination of the server process
    when there is one. *)
Definition stops_return (B : Backend) (st : St B) : Prop :=
  exists w1,
    browser_stop B (world st) = (Returned tt, w1)
    /\ (process st = false \/ exists w2, terminate_server B w1 = (Returned tt, w2)).

(** The path under the output directory: [{output_dir}/{prefix}{name}.png],
    the directory being ["screenshots"] when the document names none. *)
Definition default_path (config : Config) (spec : ScreenshotSpec.t) (prefix : string) : string :=
  default "screenshots" (output_dir config) ++ "/" ++ prefix ++ ScreenshotSpec.name spec ++ ".png".

(** The computation [m] keeps the property [I] of the state, whatever it
    returns or raises. *)
Definition keeps {B : Backend} {A : Type} (I : St B -> Prop) (m : M B A) : Prop :=
  forall st, I st -> I (snd (m st)).

(** The computation [m] returns or raises an [Exception], and leaves the
    results as they are. *)
Definition quiet {B : Backend} (m : M B unit) : Prop :=
  forall st, exists st',
    results st' = results st
    /\ (m st = (Returned tt, st') \/ exists msg, m st = (Raised (Exception msg), st')).

(** The configuration [main] hands to the orchestrator: the document at
    [--config], or [{}] without one. *)
Definition loaded_config (env : Env) (args : Args) : outcome Config :=
  match config_arg args with
  | Some p => if String.eqb p "" then Returned empty_config else load_config env p
  | None => Returned empty_config
  end.

(** The environment with the Pillow flag set to [b]. *)
Definition set_pil (b : bool) (env : Env) : Env :=
  {| PLAYWRIGHT_AVAILABLE := PLAYWRIGHT_AVAILABLE env;
     GIT_AVAILABLE := GIT_AVAILABLE env;
     PIL_AVAILABLE := b;
     path_exists := path_exists env;
     load_config := load_config env;
     open_repo := open_repo env |}.

Definition is_restore (c : Call) : bool :=
  match c with restore_original_call => true | _ => false end.

Definition restores (l : list Call) : nat :=
  length (List.filter is_restore l).

(** ** Further vocabulary *)



(** [int(s)] on a decimal numeral with an optional sign. *)
Definition parse_int (s : string) : option Z :=
  Z.of_int <$> NilZero.int_of_string s.

(** An entry is coherent: a success has a path and no error text, an error
    has an error text and no path. *)
Definition coherent (r : RunResult) : Prop :=
  match r_status r with
  | success => is_Some (r_path r) /\ r_error r = None
  | error => r_path r = None /\ is_Some (r_error r)
  end.

(** What identifies an entry: its name, its file name, the short hash and
    the index of its commit. *)
Definition entry_key (r : RunResult) : string * string * string * Z :=
  (r_name r, r_filename r, r_commit r, r_commit_index r).

(** The key the entry of a capture of a group must have. *)
Definition planned_key (g : CommitScreenshots.t) (spec : ScreenshotSpec.t)
    : string * string * string * Z :=
  (ScreenshotSpec.name spec,
   commit_prefix (CommitScreenshots.index g) ++ ScreenshotSpec.name spec ++ ".png",
   Str.take 8 (CommitScreenshots.commit_sha g),
   CommitScreenshots.index g).

(** The hashes of the checkouts of commits in a log, in order. *)
Definition checkouts (l : list Call) : list string :=
  flat_map (fun c => match c with checkout_commit_call sha => [sha] | _ => [] end) l.

Definition is_capture (c : Call) : bool :=
  match c with capture_call _ _ => true | _ => false end.

(** The calls one group may leave in the log: none when it has no capture
    to take; otherwise the checkout of its commit, then, each only after
    the one before returned, the clearing of the cache, the restart of the
    server, and captures. *)
Definition group_calls (sha : string) (skipped : bool) (calls : list Call) : Prop :=
  if skipped then calls = []
  else exists tail,
    calls = checkout_commit_call sha :: tail
    /\ (tail = [] \/ tail = [clear_cache_call]
        \/ exists captures,
             tail = clear_cache_call :: server_restart_call :: captures
             /\ forallb is_capture captures = true).

(** The computation [m] returns or raises an [Exception], and leaves the
    results and the checkouts of the log as they are. *)
Definition calm {B : Backend} (m : M B unit) : Prop :=
  forall st, exists st',
    results st' = results st
    /\ checkouts (log st') = checkouts (log st)
    /\ (m st = (Returned tt, st') \/ exists msg, m st = (Raised (Exception msg), st')).

(** The hash a group adds to the checkouts: its own when it has a capture
    to take. *)
Definition group_checkout (only : option (list string)) (g : CommitScreenshots.t)
    : list string :=
  match ScreenshotOrchestrator.screenshots_to_take only g with
  | [] => []
  | _ => [CommitScreenshots.commit_sha g]
  end.

(** The capture names a commit message asks for: those of its first
    complete tag, none without a tag. *)
Definition tag_names (m : string) : list string :=
  match GitProjectManager.search m with
  | Some names => GitProjectManager.screenshot_names names
  | None => []
  end.

(** The release steps of teardown return from every world: the stop of the
    browser, the termination of the server process, the checkout of the
    original branch. *)
Definition releases_return (B : Backend) (gm : GitProjectManager.t) : Prop :=
  (forall w, exists w', browser_stop B w = (Returned tt, w'))
  /\ (forall w, exists w', terminate_server B w = (Returned tt, w'))
  /\ (forall w, exists w',
        git_checkout B (GitProjectManager.original_branch gm) w = (Returned tt, w')).


(** The calls of a capture that returns, in order: the page is opened and
    sized, the address is visited, the selector is waited for when there is
    one, the delay is slept, the directory is made, the file is written, the
    page is closed, and the title bar is added when it is asked for and the
    renderer is there. *)
Definition capture_calls (spec : ScreenshotSpec.t) (url : string) (path : Path.t)
    (page_title : string) (renderer : option bool) : list BrowserCapture.Op :=
  ([BrowserCapture.context_new_page;
    BrowserCapture.page_set_viewport_size (ScreenshotSpec.viewport_width spec)
                                          (ScreenshotSpec.viewport_height spec);
    BrowserCapture.page_goto url]
   ++ (if truthy (ScreenshotSpec.wait_for spec)
       then [BrowserCapture.page_wait_for_selector (ScreenshotSpec.wait_for spec)] else [])
   ++ [BrowserCapture.time_sleep (ScreenshotSpec.delay spec);
       BrowserCapture.mkdir (Path.parent path);
       BrowserCapture.page_screenshot (Path.to_str path) (ScreenshotSpec.full_page spec);
       BrowserCapture.page_close]
   ++ (match truthy (ScreenshotSpec.show_title_bar spec), renderer with
       | true, Some true =>
           [BrowserCapture.add_title_bar (Path.to_str path)
              (BrowserCapture.or_untitled page_title) url (ScreenshotSpec.title_bar_style spec)]
       | _, _ => []
       end))%list.

(** The address a capture visits: the one of the spec when it starts with
    [http], the base address followed by it otherwise. *)
Definition address (u base_url : string) : string :=
  match Str.strip_prefix "http" u with
  | Some _ => u
  | None => base_url ++ u
  end.

(** The calls a capture cannot do without. *)
Definition required (op : BrowserCapture.Op) : bool :=
  match op with
  | BrowserCapture.context_new_page | BrowserCapture.page_set_viewport_size _ _
  | BrowserCapture.time_sleep _ | BrowserCapture.mkdir _
  | BrowserCapture.page_screenshot _ _ | BrowserCapture.page_close => true
  | _ => false
  end.



(** The screenshot of an entry was asked for: among the calls there is one
    that writes the path the entry records. *)
Definition written (calls : list BrowserCapture.Op) (r : RunResult) : Prop :=
  forall p, r_path r = Some p ->
    exists full_page, In (BrowserCapture.page_screenshot p full_page) calls.

(** A computation of the browser adds to the calls and leaves those made. *)
Definition extends {G : BrowserCapture.Engine} {A : Type} (m : BrowserCapture.C G A) : Prop :=
  forall st, exists l, BrowserCapture.ops (snd (m st)) = (BrowserCapture.ops st ++ l)%list.

(** A computation of the browser raises nothing but [Exception]s. *)
Definition mild {G : BrowserCapture.Engine} {A : Type} (m : BrowserCapture.C G A) : Prop :=
  forall st msg, fst (m st) <> Raised (BaseException msg).

(** Neither the engine nor the host raises anything but an [Exception]. *)
Definition machine_raises_only_exceptions (G : BrowserCapture.Engine) (H : Host G) : Prop :=
  (forall op m msg, fst (BrowserCapture.perform G op m) <> Raised (BaseException msg))
  /\ (forall m msg, fst (BrowserCapture.page_title G m) <> Raised (BaseException msg))
  /\ (forall ref m msg, fst (checkout H ref m) <> Raised (BaseException msg))
  /\ (forall m msg, fst (popen H m) <> Raised (BaseException msg))
  /\ (forall m msg, fst (terminate H m) <> Raised (BaseException msg))
  /\ (forall m msg, fst (rmtree H m) <> Raised (BaseException msg)).

(** The style a value of [title_bar_style] names: safari and minimal by
    their exact names, chrome for every other value. *)
Definition style_named (style : pyval) : TitleBarRenderer.Style :=
  match style with
  | PStr s =>
      if String.eqb s "safari" then TitleBarRenderer.safari
      else if String.eqb s "minimal" then TitleBarRenderer.minimal
      else TitleBarRenderer.chrome
  | _ => TitleBarRenderer.chrome
  end.



(** By how many rows the address bar of a style reaches below the title
    bar. *)
Definition overflow (sc : TitleBarRenderer.Style) : Z :=
  34 + TitleBarRenderer.url_bar_height sc - TitleBarRenderer.height sc.

(** The text an entry of a tree gives for a path: its own when it is a
    blob at that path that decodes. *)
Definition text_at (p : string) (item : GitProjectManager.TreeItem) : option string :=
  if String.eqb (GitProjectManager.item_type item) "blob"
     && String.eqb (GitProjectManager.item_path item) p
  then match GitProjectManager.item_text item with
       | Returned text => Some text
       | Raised _ => None
       end
  else None.

(** * Properties *)

(** ** Strings *)

#[local] Arguments String.append !s1 s2 : simpl nomatch.

Section StringFacts.

Lemma append_nil_r (s : string) : s ++ "" = s.
Proof. induction s as [|c s IH]; simpl; [reflexivity | now rewrite IH]. Qed.

Lemma append_assoc (a b c : string) : (a ++ b) ++ c = a ++ b ++ c.
Proof. induction a as [|x a IH]; simpl; [reflexivity | now rewrite IH]. Qed.

Lemma append_eq_nil (a b : string) : a ++ b = "" -> a = "" /\ b = "".
Proof. destruct a; simpl; [auto | discriminate]. Qed.

(** Two ways of cutting one text: one of the first halves extends the
    other. *)
Lemma append_eq_append (a b c d : string) :
  a ++ b = c ++ d ->
  (exists k, a = c ++ k /\ d = k ++ b) \/ (exists k, c = a ++ k /\ b = k ++ d).
Proof.
  revert c. induction a as [|x a IH]; intros c H; simpl in H.
  - right. exists c. split; [reflexivity | exact H].
  - destruct c as [|y c]; simpl in H.
    + left. exists (String x a). split; [reflexivity | now rewrite <- H].
    + injection H as -> H. destruct (IH _ H) as [[k [-> ->]] | [k [-> ->]]].
      * left. exists k. split; reflexivity.
      * right. exists k. split; reflexivity.
Qed.

Lemma all_append (p : ascii -> bool) (a b : string) :
  Str.all p (a ++ b) = Str.all p a && Str.all p b.
Proof.
  induction a as [|x a IH]; simpl; [reflexivity |].
  rewrite IH. now rewrite andb_assoc.
Qed.

Lemma strip_prefix_Some (p s r : string) :
  Str.strip_prefix p s = Some r <-> s = p ++ r.
Proof.
  revert s. induction p as [|a p IH]; intros s; simpl.
  - split; [now intros [= ->] | now intros ->].
  - destruct s as [|b s].
    + split; discriminate.
    + destruct (Ascii.eqb_spec a b) as [->|Hne].
      * rewrite IH. split; [now intros -> | now intros [= ->]].
      * split; [discriminate | intros [= E _]; congruence].
Qed.

Lemma span_append (keep : ascii -> bool) (s a b : string) :
  Str.span keep s = (a, b) -> s = a ++ b /\ Str.all keep a = true.
Proof.
  revert a b. induction s as [|c s IH]; intros a b; simpl.
  - now intros [= <- <-].
  - destruct (keep c) eqn:Hc.
    + destruct (Str.span keep s) as [a' b'] eqn:E. intros [= <- <-].
      destruct (IH _ _ eq_refl) as [-> Ha]. simpl. now rewrite Hc.
    + now intros [= <- <-].
Qed.

Lemma span_stops (keep : ascii -> bool) (s a : string) (c : ascii) (b : string) :
  Str.span keep s = (a, String c b) -> keep c = false.
Proof.
  revert a. induction s as [|x s IH]; intros a; simpl.
  - discriminate.
  - destruct (keep x) eqn:Hx.
    + destruct (Str.span keep s) as [a' b'] eqn:E. intros [= <- ->]. eauto.
    + now intros [= <- <- <-].
Qed.

Lemma span_all (keep : ascii -> bool) (a : string) (c : ascii) (b : string) :
  Str.all keep a = true -> keep c = false ->
  Str.span keep (a ++ String c b) = (a, String c b).
Proof.
  intros Ha Hc. induction a as [|x a IH]; simpl in *.
  - now rewrite Hc.
  - apply andb_prop in Ha as [Hx Ha]. rewrite Hx, (IH Ha). reflexivity.
Qed.

End StringFacts.

(** ** The pattern *)

Section Pattern.

Import GitProjectManager.

Lemma match_here_tag_at (s names : string) :
  match_here s = Some names <-> tag_at s names.
Proof.
  unfold match_here, tag_at. split.
  - destruct (Str.strip_prefix TAG_OPEN s) as [rest|] eqn:Hp; [|discriminate].
    apply strip_prefix_Some in Hp.
    destruct (Str.span not_closing rest) as [g r] eqn:Hs.
    destruct g as [|c g]; [discriminate|]. destruct r as [|x r]; [discriminate|].
    intros [= <-].
    pose proof (span_stops _ _ _ _ _ Hs) as Hx.
    apply span_append in Hs as [-> Hall].
    unfold not_closing in Hx. apply negb_false_iff, Ascii.eqb_eq in Hx. subst x.
    exists r. split; [exact Hp | split; [discriminate | exact Hall]].
  - intros (post & -> & Hne & Hall).
    assert (Hp : Str.strip_prefix TAG_OPEN (TAG_OPEN ++ names ++ "]" ++ post)
                 = Some (names ++ "]" ++ post)) by now apply strip_prefix_Some.
    rewrite Hp. change ("]" ++ post) with (String "]" post).
    rewrite span_all by (reflexivity || assumption).
    destruct names; [contradiction | reflexivity].
Qed.

Lemma search_unfold (s : string) :
  search s =
  match match_here s with
  | Some g => Some g
  | None => match s with EmptyString => None | String _ s' => search s' end
  end.
Proof. destruct s; reflexivity. Qed.

Lemma search_first_tag (m names : string) :
  search m = Some names <-> first_tag m names.
Proof.
  split.
  - induction m as [|c m IH]; rewrite search_unfold.
    + destruct (match_here "") eqn:E; [|discriminate]. intros [= ->].
      exists "", "". split; [reflexivity|]. split; [now apply match_here_tag_at|].
      intros p1 p2 n H. symmetry in H. apply append_eq_nil in H as [_ ->]. congruence.
    + destruct (match_here (String c m)) eqn:E.
      * intros [= ->]. exists "", (String c m).
        split; [reflexivity|]. split; [now apply match_here_tag_at|].
        intros p1 p2 n H. symmetry in H. apply append_eq_nil in H as [_ ->]. congruence.
      * intros H. destruct (IH H) as (pre & rest & -> & Ht & Hleft).
        exists (String c pre), rest. split; [reflexivity|]. split; [exact Ht|].
        intros p1 p2 n Hp Hne Htag. destruct p1 as [|x p1]; simpl in Hp.
        -- subst p2. apply match_here_tag_at in Htag. simpl in Htag. congruence.
        -- injection Hp as -> ->. exact (Hleft _ _ _ eq_refl Hne Htag).
  - intros (pre & rest & -> & Ht & Hleft).
    induction pre as [|c pre IH]; rewrite search_unfold.
    + simpl. apply match_here_tag_at in Ht. now rewrite Ht.
    + destruct (match_here (String c pre ++ rest)) eqn:E.
      * apply match_here_tag_at in E. exfalso.
        apply (Hleft "" (String c pre) s eq_refl); [discriminate | exact E].
      * simpl. apply IH. intros p1 p2 n -> Hne.
        apply (Hleft (String c p1) p2 n eq_refl Hne).
Qed.

Lemma has_tag_search (m : string) : has_tag m -> is_Some (search m).
Proof.
  intros (pre & rest & names & -> & Ht).
  induction pre as [|c pre IH]; rewrite search_unfold.
  - simpl. apply match_here_tag_at in Ht. rewrite Ht. eauto.
  - destruct (match_here (String c pre ++ rest)); [eauto | exact IH].
Qed.

Lemma search_has_tag (m : string) : is_Some (search m) <-> has_tag m.
Proof.
  split; [|apply has_tag_search].
  intros [names H]. apply search_first_tag in H as (pre & rest & -> & Ht & _).
  now exists pre, rest, names.
Qed.

Lemma search_None (m : string) : search m = None <-> ~ has_tag m.
Proof.
  rewrite <- search_has_tag. split.
  - intros -> [x Hx]. discriminate.
  - intros H. destruct (search m); [exfalso; eauto | reflexivity].
Qed.

End Pattern.

(** ** Splitting and trimming *)

Section SplitStrip.

Lemma split_cons (sep : ascii) (s : string) :
  exists h t, Str.split sep s = h :: t.
Proof.
  destruct s as [|c s]; simpl; [eauto|].
  destruct (Ascii.eqb c sep); [eauto|]. destruct (Str.split sep s); eauto.
Qed.

Lemma join_cons (sep x : string) (y : string) (l : list string) :
  Str.join sep (x :: y :: l) = x ++ sep ++ Str.join sep (y :: l).
Proof. reflexivity. Qed.

Lemma join_split (sep : ascii) (s : string) :
  Str.join (String sep "") (Str.split sep s) = s.
Proof.
  induction s as [|c s IH]; [reflexivity|]. simpl Str.split.
  destruct (split_cons sep s) as (h & t & E). rewrite E in *.
  destruct (Ascii.eqb_spec c sep) as [->|Hne].
  - rewrite join_cons, IH. reflexivity.
  - destruct t as [|y t].
    + simpl in IH. subst h. reflexivity.
    + rewrite join_cons. rewrite join_cons in IH. rewrite <- IH. reflexivity.
Qed.

Lemma split_pieces (sep : ascii) (s : string) :
  Forall (fun p => Str.all (fun c => negb (Ascii.eqb c sep)) p = true) (Str.split sep s).
Proof.
  induction s as [|c s IH]; simpl.
  - repeat constructor.
  - destruct (Ascii.eqb c sep) eqn:Hc.
    + constructor; [reflexivity | exact IH].
    + destruct (Str.split sep s) as [|h t]; [repeat constructor; simpl; now rewrite Hc|].
      inversion IH; subst. constructor; [simpl; now rewrite Hc | assumption].
Qed.

Lemma split_comma_separated (names : string) :
  comma_separated names (Str.split "," names).
Proof.
  split; [|split].
  - destruct (split_cons "," names) as (h & t & ->). discriminate.
  - apply join_split.
  - apply split_pieces.
Qed.

Lemma lstrip_spec (s : string) :
  exists l, s = l ++ Str.lstrip s /\ Str.all Str.isspace l = true
            /\ forall c, Str.first (Str.lstrip s) = Some c -> Str.isspace c = false.
Proof.
  induction s as [|c s (l & E & Hl & Hf)].
  - exists "". repeat split. discriminate.
  - simpl. destruct (Str.isspace c) eqn:Hc.
    + exists (String c l). simpl. rewrite Hc, Hl. repeat split; [congruence | exact Hf].
    + exists "". repeat split. simpl. congruence.
Qed.

Lemma rstrip_spec (s : string) :
  exists r, s = Str.rstrip s ++ r /\ Str.all Str.isspace r = true
            /\ forall c, Str.last (Str.rstrip s) = Some c -> Str.isspace c = false.
Proof.
  induction s as [|c s (r & E & Hr & Hl)].
  - exists "". repeat split. discriminate.
  - simpl. destruct (Str.rstrip s) as [|x t] eqn:Et.
    + destruct (Str.isspace c) eqn:Hc.
      * exists (String c s). simpl in E. subst r. simpl. rewrite Hc, Hr.
        repeat split. discriminate.
      * exists r. simpl in *. subst r. repeat split; [assumption | congruence].
    + exists r. simpl. split; [now rewrite E at 1 | split; [exact Hr | exact Hl]].
Qed.

Lemma rstrip_first (s : string) (c : ascii) :
  Str.first (Str.rstrip s) = Some c -> Str.first s = Some c.
Proof.
  destruct s as [|x s]; simpl; [discriminate|].
  destruct (Str.rstrip s); [destruct (Str.isspace x); [discriminate | auto] | auto].
Qed.

Lemma strip_trimmed (piece : string) : trimmed_of piece (Str.strip piece).
Proof.
  unfold Str.strip.
  destruct (lstrip_spec piece) as (l & El & Hl & Hf).
  destruct (rstrip_spec (Str.lstrip piece)) as (r & Er & Hr & Hla).
  exists l, r. split; [now rewrite <- Er | split; [exact Hl | split; [exact Hr | split]]].
  - intros c Hc. apply Hf. now apply rstrip_first.
  - exact Hla.
Qed.

End SplitStrip.

(** ** The plan builder *)

Section Plan.

Import GitProjectManager.

#[global] Instance has_tag_dec (m : string) : Decision (has_tag m).
Proof.
  destruct (search m) as [names|] eqn:E.
  - left. apply search_has_tag. rewrite E. eauto.
  - right. now apply search_None.
Defined.

Lemma last_append_char (a : string) (c : ascii) : Str.last (a ++ String c "") = Some c.
Proof.
  induction a as [|x a IH]; [reflexivity|]. simpl.
  destruct (a ++ String c "") eqn:E; [destruct a; discriminate | exact IH].
Qed.

Lemma last_append (a b : string) : b <> "" -> Str.last (a ++ b) = Str.last b.
Proof.
  intros Hb. induction a as [|x a IH]; [reflexivity|]. simpl.
  destruct (a ++ b) eqn:E; [apply append_eq_nil in E as [_ ->]; contradiction | exact IH].
Qed.

Lemma all_last (p : ascii -> bool) (s : string) (c : ascii) :
  Str.all p s = true -> Str.last s = Some c -> p c = true.
Proof.
  induction s as [|x s IH]; simpl; [discriminate|].
  intros [Hx Hs]%andb_prop. destruct s; [now intros [= <-] | now apply IH].
Qed.

(** A text whose last opening literal is never closed holds a complete tag
    only if the part before that literal does. *)
Lemma has_tag_unclosed (pre rest : string) :
  Str.all not_closing rest = true ->
  has_tag (pre ++ TAG_OPEN ++ rest) -> has_tag pre.
Proof.
  intros Hrest (p & r & n & E & post & -> & Hn & Hall).
  assert (E' : (pre ++ TAG_OPEN) ++ rest = (p ++ TAG_OPEN ++ n) ++ String "]" post).
  { rewrite !append_assoc. exact E. }
  destruct (append_eq_append _ _ _ _ E') as [[k [E1 E2]] | [k [E1 E2]]]; cycle 1.
  - (* the bracket would lie in [rest] *)
    rewrite E2, all_append in Hrest. simpl in Hrest.
    apply andb_prop in Hrest as [_ Hrest]. discriminate.
  - destruct k as [|y k].
    + simpl in E2. subst rest. discriminate.
    + injection E2 as <- ->.
      assert (E3 : pre ++ TAG_OPEN = ((p ++ TAG_OPEN ++ n) ++ "]") ++ k).
      { rewrite E1, !append_assoc. reflexivity. }
      destruct (append_eq_append _ _ _ _ E3) as [[j [F1 F2]] | [j [F1 F2]]].
      * exists p, (TAG_OPEN ++ n ++ "]" ++ j), n. split.
        -- rewrite F1, !append_assoc. reflexivity.
        -- exists j. auto.
      * destruct j as [|z j].
        -- rewrite append_nil_r in F1. exists p, (TAG_OPEN ++ n ++ "]" ++ ""), n. split.
           ++ rewrite <- F1, !append_assoc. reflexivity.
           ++ exists "". auto.
        -- exfalso.
           assert (Hj : Str.all not_closing (String z j) = true).
           { assert (Ht : Str.all not_closing TAG_OPEN = true) by reflexivity.
             rewrite F2, all_append in Ht. now apply andb_prop in Ht as [Ht _]. }
           assert (Hl : Str.last (String z j) = Some "]"%char).
           { rewrite <- (last_append pre) by discriminate. rewrite <- F1.
             apply last_append_char. }
           pose proof (all_last _ _ _ Hj Hl) as Hc. discriminate.
Qed.

Lemma commit_group_tagged (c : Commit) (names : string) :
  search (message c) = Some names ->
  commit_group c =
  Some (CommitScreenshots.mk (hexsha c) (message c)
          (map (fun name => ScreenshotSpec.new name (hexsha c) (message c)
                              (Str.first_line (message c)))
               (screenshot_names names))
          (Str.first_line (message c)) 0).
Proof. intros H. unfold commit_group. now rewrite H. Qed.

Lemma commit_group_untagged (c : Commit) :
  search (message c) = None -> commit_group c = None.
Proof. intros H. unfold commit_group. now rewrite H. Qed.

Lemma omap_commit_group_sha (history : list Commit) :
  map CommitScreenshots.commit_sha (omap commit_group history)
  = map hexsha (filter (fun c => has_tag (message c)) history).
Proof.
  induction history as [|c h IH]; [reflexivity|].
  rewrite filter_cons. cbn [omap list_omap].
  destruct (search (message c)) as [names|] eqn:E.
  - rewrite (commit_group_tagged _ _ E).
    rewrite decide_True by (apply search_has_tag; rewrite E; eauto).
    cbn. now rewrite IH.
  - rewrite (commit_group_untagged _ E).
    rewrite decide_False by (now apply search_None). exact IH.
Qed.

Lemma assign_indices_from (k : nat) (l : list CommitScreenshots.t) :
  map CommitScreenshots.index
      (imap (fun i g => CommitScreenshots.set_index (Z.of_nat (k + i) + 1) g) l)
  = map Z.of_nat (seq (S k) (length l))
  /\ map CommitScreenshots.commit_sha
      (imap (fun i g => CommitScreenshots.set_index (Z.of_nat (k + i) + 1) g) l)
  = map CommitScreenshots.commit_sha l.
Proof.
  revert k. induction l as [|g l IH]; intros k; [split; reflexivity|].
  cbn [imap length seq map]. unfold compose.
  destruct (IH (S k)) as [H1 H2]. split.
  - f_equal; [cbn; lia|]. rewrite <- H1. f_equal.
    apply imap_ext. intros i x _. cbn. f_equal. lia.
  - f_equal. rewrite <- H2. f_equal.
    apply imap_ext. intros i x _. cbn. f_equal. lia.
Qed.

Lemma assign_indices_spec (l : list CommitScreenshots.t) :
  map CommitScreenshots.index (assign_indices l) = map Z.of_nat (seq 1 (length l))
  /\ map CommitScreenshots.commit_sha (assign_indices l) = map CommitScreenshots.commit_sha l.
Proof. exact (assign_indices_from 0 l). Qed.

End Plan.

Section PlanTheorems.

Import GitProjectManager.

Lemma reverse_rev {A} (l : list A) : reverse l = rev l.
Proof. unfold reverse. symmetry. apply rev_alt. Qed.

Lemma map_reverse {A C} (f : A -> C) (l : list A) :
  map f (reverse l) = reverse (map f l).
Proof. rewrite !reverse_rev. apply map_rev. Qed.

Lemma plan_omits_untagged (c : Commit) (h1 h2 : list Commit) :
  commit_group c = None ->
  get_screenshot_commits (h1 ++ c :: h2)%list = get_screenshot_commits (h1 ++ h2)%list.
Proof.
  intros H. unfold get_screenshot_commits.
  rewrite !omap_app. cbn [omap list_omap]. now rewrite H.
Qed.

(** C3. For every commit history, given in the order the backend yields it
    (newest first), the plan holds the annotated commits in the opposite,
    chronological order, and the indices of its groups are exactly
    1, 2, ..., K, where K is the number of commits whose message holds a
    complete tag: the index is assigned on the reversed list, so the group
    of index 1 is the oldest annotated commit. *)
Theorem plan_indices_chronological (history : list Commit) :
  let tagged := filter (fun c => has_tag (message c)) history in
  let plan := get_screenshot_commits history in
  map CommitScreenshots.commit_sha plan = map hexsha (reverse tagged)
  /\ map CommitScreenshots.index plan = map Z.of_nat (seq 1 (length tagged)).
Proof.
  intros tagged plan. subst tagged plan. unfold get_screenshot_commits.
  destruct (assign_indices_spec (reverse (omap commit_group history))) as [Hi Hs].
  split.
  - rewrite Hs, !map_reverse, omap_commit_group_sha. reflexivity.
  - rewrite Hi. f_equal. f_equal.
    rewrite length_reverse.
    rewrite <- (length_map CommitScreenshots.commit_sha), omap_commit_group_sha.
    apply length_map.
Qed.

Lemma specs_of_pieces (sha msg desc : string) (pieces : list string) :
  Forall2 (fun piece spec =>
             trimmed_of piece (ScreenshotSpec.name spec)
             /\ ScreenshotSpec.commit_sha spec = sha
             /\ ScreenshotSpec.commit_message spec = msg)
          pieces
          (map (fun name => ScreenshotSpec.new name sha msg desc) (map Str.strip pieces)).
Proof.
  induction pieces as [|p l IH]; simpl; constructor; [|exact IH].
  split; [apply strip_trimmed | split; reflexivity].
Qed.

(** C8. A commit whose message has [names] in its first complete tag
    [[screenshot:names]] gives one group, holding one spec per
    comma-separated item of [names], in their order, each named by the item
    without the white space around it, each with the hash and the message of
    the commit.  A commit whose message holds no complete tag gives nothing;
    so does one whose opening literal is never closed and is preceded by no
    complete tag; and a commit that gives nothing leaves the plan as it is
    without it. *)
Theorem tagged_commit_specs (c : Commit) :
  (forall names, first_tag (message c) names ->
     exists g pieces,
       commit_group c = Some g
       /\ CommitScreenshots.commit_sha g = hexsha c
       /\ CommitScreenshots.commit_message g = message c
       /\ comma_separated names pieces
       /\ Forall2 (fun piece spec =>
                     trimmed_of piece (ScreenshotSpec.name spec)
                     /\ ScreenshotSpec.commit_sha spec = hexsha c
                     /\ ScreenshotSpec.commit_message spec = message c)
                  pieces (CommitScreenshots.screenshots g))
  /\ (~ has_tag (message c) -> commit_group c = None)
  /\ (forall pre rest,
        message c = pre ++ TAG_OPEN ++ rest ->
        ~ has_tag pre -> Str.all not_closing rest = true ->
        commit_group c = None)
  /\ (commit_group c = None ->
      forall h1 h2,
        get_screenshot_commits (h1 ++ c :: h2)%list
        = get_screenshot_commits (h1 ++ h2)%list).
Proof.
  split; [|split; [|split]].
  - intros names H. apply search_first_tag in H.
    rewrite (commit_group_tagged _ _ H).
    eexists. exists (Str.split "," names).
    split; [reflexivity|]. split; [reflexivity|]. split; [reflexivity|].
    split; [apply split_comma_separated|]. apply specs_of_pieces.
  - intros H. apply commit_group_untagged. now apply search_None.
  - intros pre rest E Hpre Hrest. apply commit_group_untagged, search_None.
    rewrite E. intros H. apply Hpre. exact (has_tag_unclosed _ _ Hrest H).
  - intros H h1 h2. now apply plan_omits_untagged.
Qed.

Example three_names :
  map ScreenshotSpec.name
    (get_all_screenshot_specs [Build_Commit "9fceb02d" "Add pages [screenshot: a,b , c ] and [screenshot:d]"])
  = ["a"; "b"; "c"].
Proof. reflexivity. Qed.

Example unclosed_tag :
  get_screenshot_commits [Build_Commit "9fceb02d" "Add pages [screenshot:a,b"] = [].
Proof. reflexivity. Qed.

Example two_commits :
  map (fun g => (CommitScreenshots.index g, CommitScreenshots.commit_sha g,
                 map ScreenshotSpec.name (CommitScreenshots.screenshots g)))
    (get_screenshot_commits
       [Build_Commit "c3" "[screenshot:home,about] second";
        Build_Commit "c2" "no tag";
        Build_Commit "c1" "[screenshot:home] first"])
  = [(1, "c1", ["home"]); (2, "c3", ["home"; "about"])].
Proof. reflexivity. Qed.

End PlanTheorems.

(** ** The configuration overlay *)

Section Overlay.

Import ScreenshotOrchestrator.

Lemma assign_other {A} (f : ScreenshotSpec.t -> A) (key : string) (cfg : gmap string pyval)
    (set : pyval -> ScreenshotSpec.t -> ScreenshotSpec.t) (spec : ScreenshotSpec.t) :
  (forall v s, f (set v s) = f s) ->
  f (assign_if_in key cfg set spec) = f spec.
Proof. intros H. unfold assign_if_in. destruct (cfg !! key); [apply H | reflexivity]. Qed.

Lemma assign_same (f : ScreenshotSpec.t -> pyval) (key : string) (cfg : gmap string pyval)
    (set : pyval -> ScreenshotSpec.t -> ScreenshotSpec.t) (spec : ScreenshotSpec.t) :
  (forall v s, f (set v s) = v) ->
  f (assign_if_in key cfg set spec) = after cfg key (f spec).
Proof.
  intros H. unfold assign_if_in, after. destruct (cfg !! key); [apply H | reflexivity].
Qed.

Ltac assigned :=
  repeat first
    [ rewrite assign_same by (intros; reflexivity)
    | rewrite assign_other by (intros; reflexivity) ];
  reflexivity.

Lemma apply_defaults_fields (d : gmap string pyval) (spec : ScreenshotSpec.t) :
  let r := apply_defaults d spec in
  ScreenshotSpec.name r = ScreenshotSpec.name spec
  /\ ScreenshotSpec.url r = ScreenshotSpec.url spec
  /\ ScreenshotSpec.viewport_width r = ScreenshotSpec.viewport_width spec
  /\ ScreenshotSpec.viewport_height r = ScreenshotSpec.viewport_height spec
  /\ ScreenshotSpec.full_page r = ScreenshotSpec.full_page spec
  /\ ScreenshotSpec.wait_for r = ScreenshotSpec.wait_for spec
  /\ ScreenshotSpec.delay r = ScreenshotSpec.delay spec
  /\ ScreenshotSpec.output_path r = ScreenshotSpec.output_path spec
  /\ ScreenshotSpec.show_title_bar r = after d "show_title_bar" (ScreenshotSpec.show_title_bar spec)
  /\ ScreenshotSpec.title_bar_style r = after d "title_bar_style" (ScreenshotSpec.title_bar_style spec).
Proof. cbv zeta. unfold apply_defaults. repeat split; assigned. Qed.

Lemma apply_named_fields (n : gmap string pyval) (spec : ScreenshotSpec.t) :
  let r := apply_named n spec in
  ScreenshotSpec.name r = ScreenshotSpec.name spec
  /\ ScreenshotSpec.url r = after n "url" (ScreenshotSpec.url spec)
  /\ ScreenshotSpec.viewport_width r = after n "viewport_width" (ScreenshotSpec.viewport_width spec)
  /\ ScreenshotSpec.viewport_height r = after n "viewport_height" (ScreenshotSpec.viewport_height spec)
  /\ ScreenshotSpec.full_page r = after n "full_page" (ScreenshotSpec.full_page spec)
  /\ ScreenshotSpec.wait_for r = after n "wait_for" (ScreenshotSpec.wait_for spec)
  /\ ScreenshotSpec.delay r = after n "delay" (ScreenshotSpec.delay spec)
  /\ ScreenshotSpec.output_path r = after n "output" (ScreenshotSpec.output_path spec)
  /\ ScreenshotSpec.show_title_bar r = after n "show_title_bar" (ScreenshotSpec.show_title_bar spec)
  /\ ScreenshotSpec.title_bar_style r = after n "title_bar_style" (ScreenshotSpec.title_bar_style spec).
Proof. cbv zeta. unfold apply_named. repeat split; assigned. Qed.

End Overlay.

Section OverlayTheorems.

Import ScreenshotOrchestrator.

(** C6 (as amended). Resolution of the configuration for a spec: every one
    of the nine keys is applied on its own from the entry named as the spec,
    a key the entry lacks leaving the value from below; the [defaults]
    section is read for [show_title_bar] and [title_bar_style] only, below
    the named entry and above the field values the spec came with; the
    other seven fields take the named value or keep the one of the spec,
    whatever [defaults] holds. *)
Theorem overlay_precedence (config : Config) (spec : ScreenshotSpec.t) :
  let d := default ∅ (defaults config) in
  let n := default ∅ (default ∅ (screenshots config) !! ScreenshotSpec.name spec) in
  let r := _apply_screenshot_config config spec in
  ScreenshotSpec.url r = after n "url" (ScreenshotSpec.url spec)
  /\ ScreenshotSpec.viewport_width r = after n "viewport_width" (ScreenshotSpec.viewport_width spec)
  /\ ScreenshotSpec.viewport_height r = after n "viewport_height" (ScreenshotSpec.viewport_height spec)
  /\ ScreenshotSpec.full_page r = after n "full_page" (ScreenshotSpec.full_page spec)
  /\ ScreenshotSpec.wait_for r = after n "wait_for" (ScreenshotSpec.wait_for spec)
  /\ ScreenshotSpec.delay r = after n "delay" (ScreenshotSpec.delay spec)
  /\ ScreenshotSpec.output_path r = after n "output" (ScreenshotSpec.output_path spec)
  /\ ScreenshotSpec.show_title_bar r
     = after n "show_title_bar" (after d "show_title_bar" (ScreenshotSpec.show_title_bar spec))
  /\ ScreenshotSpec.title_bar_style r
     = after n "title_bar_style" (after d "title_bar_style" (ScreenshotSpec.title_bar_style spec))
  /\ ScreenshotSpec.name r = ScreenshotSpec.name spec.
Proof.
  intros d n r. subst d n r. unfold _apply_screenshot_config.
  destruct (apply_defaults_fields (default ∅ (defaults config)) spec)
    as (Hn & Hu & Hw & Hh & Hf & Hwf & Hd & Ho & Hs & Ht).
  rewrite Hn.
  destruct (default ∅ (screenshots config) !! ScreenshotSpec.name spec) as [cfg|]; cbn [default].
  - destruct (apply_named_fields cfg (apply_defaults (default ∅ (defaults config)) spec))
      as (Kn & Ku & Kw & Kh & Kf & Kwf & Kd & Ko & Ks & Kt).
    rewrite Ku, Kw, Kh, Kf, Kwf, Kd, Ko, Ks, Kt, Kn.
    rewrite Hu, Hw, Hh, Hf, Hwf, Hd, Ho, Hs, Ht, Hn. repeat split.
  - rewrite Hu, Hw, Hh, Hf, Hwf, Hd, Ho, Hs, Ht, Hn.
    unfold after at 1 2 3 4 5 6 7 8 10. rewrite !lookup_empty. repeat split.
Qed.

(** C6, the claim as stated, fails: a [url] under [defaults] is not applied;
    the resolved spec keeps the url it came with. *)
Lemma defaults_url_not_applied :
  let config :=
    {| output_dir := None;
       defaults := Some {[ "url" := PStr "/about" ]};
       screenshots := None |} in
  let spec := ScreenshotSpec.new "home" "9fceb02d" "[screenshot:home]" "[screenshot:home]" in
  default ∅ (defaults config) !! "url" = Some (PStr "/about")
  /\ ScreenshotSpec.url spec = PStr "/"
  /\ ScreenshotSpec.url (_apply_screenshot_config config spec) = PStr "/".
Proof. repeat split. Qed.

(** The precedence example of the specification: a named
    [show_title_bar: false] wins over a global [show_title_bar: true]; with
    the global one alone the spec takes it. *)
Example title_bar_precedence :
  let spec := ScreenshotSpec.new "home" "9fceb02d" "[screenshot:home]" "[screenshot:home]" in
  let global := Some ({[ "show_title_bar" := PBool true ]} : gmap string pyval) in
  ScreenshotSpec.show_title_bar
    (_apply_screenshot_config
       {| output_dir := None; defaults := global;
          screenshots := Some {[ "home" := {[ "show_title_bar" := PBool false ]} ]} |} spec)
  = PBool false
  /\ ScreenshotSpec.show_title_bar
       (_apply_screenshot_config
          {| output_dir := None; defaults := global; screenshots := None |} spec)
     = PBool true.
Proof. split; vm_compute; reflexivity. Qed.

End OverlayTheorems.

(** ** Output paths *)

Section Paths.

Lemma string_length_append (a b : string) :
  String.length (a ++ b) = (String.length a + String.length b)%nat.
Proof. induction a as [|c a IH]; simpl; [reflexivity | now rewrite IH]. Qed.

Lemma substring_all (s : string) : substring 0 (String.length s) s = s.
Proof. induction s as [|c s IH]; simpl; [reflexivity | now rewrite IH]. Qed.

Lemma substring_split (s : string) (i : nat) :
  (i <= String.length s)%nat ->
  substring 0 i s ++ substring i (String.length s - i) s = s.
Proof.
  revert i. induction s as [|c s IH]; intros i Hi; simpl in Hi.
  - assert (i = 0%nat) as -> by lia. reflexivity.
  - destruct i as [|i].
    + rewrite Nat.sub_0_r, substring_all. reflexivity.
    + simpl. f_equal. apply IH. lia.
Qed.

Lemma substring_append_skip (a b : string) (i m : nat) :
  substring (String.length a + i) m (a ++ b) = substring i m b.
Proof. induction a as [|c a IH]; [reflexivity | exact IH]. Qed.

Lemma substring_append_take (a b : string) (i : nat) :
  (0 < i)%nat ->
  substring 0 (String.length a + i) (a ++ b) = a ++ substring 0 i b.
Proof.
  intros Hi. induction a as [|c a IH]; [reflexivity|].
  simpl. now rewrite IH.
Qed.

Lemma all_impl (p q : ascii -> bool) (s : string) :
  (forall c, p c = true -> q c = true) ->
  Str.all p s = true -> Str.all q s = true.
Proof.
  intros H. induction s as [|c s IH]; simpl; [reflexivity|].
  intros [Hc Hs]%andb_prop. now rewrite (H _ Hc), IH.
Qed.

Lemma prefix_char_not (x : ascii) (c : ascii) :
  prefix_char x = false -> prefix_char c = true -> negb (Ascii.eqb c x) = true.
Proof.
  intros Hx Hc. destruct (Ascii.eqb_spec c x) as [->|]; [congruence | reflexivity].
Qed.

Lemma uint_prefix_chars (d : Decimal.uint) :
  Str.all prefix_char (NilEmpty.string_of_uint d) = true.
Proof. induction d; simpl; auto. Qed.

Lemma commit_prefix_chars (i : Z) : Str.all prefix_char (commit_prefix i) = true.
Proof.
  unfold commit_prefix, format_02d.
  assert (H : Str.all prefix_char (NilZero.string_of_int (Z.to_int i)) = true).
  { destruct (Z.to_int i) as [d|d]; simpl.
    - destruct d; try apply (uint_prefix_chars (_ _)); reflexivity.
    - destruct d; try apply (uint_prefix_chars (_ _)); reflexivity. }
  destruct (_ <? 2)%nat; rewrite !all_append; simpl; now rewrite H.
Qed.

Lemma commit_prefix_cons (i : Z) :
  exists c s, commit_prefix i = String c s /\ prefix_char c = true.
Proof.
  pose proof (commit_prefix_chars i) as H.
  destruct (commit_prefix i) as [|c s] eqn:E.
  - unfold commit_prefix in E. destruct (format_02d i); discriminate.
  - simpl in H. apply andb_prop in H as [Hc _]. eauto.
Qed.

Lemma split_no_sep (sep : ascii) (s : string) :
  Str.all (fun c => negb (Ascii.eqb c sep)) s = true -> Str.split sep s = [s].
Proof.
  induction s as [|c s IH]; simpl; [reflexivity|].
  intros [Hc Hs]%andb_prop. apply negb_true_iff in Hc. rewrite Hc, (IH Hs). reflexivity.
Qed.

(** A text without a slash that is neither empty nor a dot is the path of
    that single component. *)
Lemma parse_single (x : string) :
  Str.all (fun c => negb (Path.is_slash c)) x = true ->
  Path.keep_part x = true ->
  Path.parse x = Path.mk "" [x].
Proof.
  intros Hs Hk. unfold Path.parse.
  assert (Hr : Path.splitroot x = ("", x)).
  { destruct x as [|c x]; [reflexivity|]. simpl in Hs.
    apply andb_prop in Hs as [Hc _]. apply negb_true_iff in Hc.
    simpl. now rewrite Hc. }
  rewrite Hr. unfold Path.is_slash in Hs. rewrite (split_no_sep _ _ Hs).
  rewrite filter_cons, filter_nil, Hk. reflexivity.
Qed.

Lemma parent_snoc (r : string) (l : list string) (x : string) :
  Path.parent (Path.mk r (l ++ [x])) = Path.mk r l.
Proof.
  unfold Path.parent. cbn [Path.parts Path.root].
  destruct (l ++ [x])%list eqn:E; [destruct l; discriminate|].
  rewrite <- E, removelast_last. reflexivity.
Qed.

Lemma name_snoc (r : string) (l : list string) (x : string) :
  Path.name (Path.mk r (l ++ [x])) = x.
Proof. unfold Path.name. cbn [Path.parts]. now rewrite last_snoc. Qed.

Lemma parts_no_slash (s : string) :
  Forall (fun x => Str.all (fun c => negb (Path.is_slash c)) x = true) (Path.parts (Path.parse s)).
Proof.
  unfold Path.parse. destruct (Path.splitroot s) as [r rel]. cbn [Path.parts].
  apply Forall_forall. intros x [_ Hx]%list_elem_of_filter.
  pose proof (split_pieces "/" rel) as H. rewrite Forall_forall in H. exact (H _ Hx).
Qed.

Lemma name_no_slash (s : string) :
  Str.all (fun c => negb (Path.is_slash c)) (Path.name (Path.parse s)) = true.
Proof.
  unfold Path.name. destruct (last (Path.parts (Path.parse s))) as [x|] eqn:E; [|reflexivity].
  pose proof (parts_no_slash s) as H. rewrite Forall_forall in H.
  apply H. now apply last_Some_elem_of.
Qed.

Lemma suffix_index_bound (nm : string) (i : nat) :
  Path.suffix_index nm = Some i -> (0 < i /\ i < String.length nm - 1)%nat.
Proof.
  unfold Path.suffix_index. destruct (Path.rfind_dot nm) as [j|]; [|discriminate].
  destruct (0 <? j)%nat eqn:H0; [|discriminate].
  destruct (j <? String.length nm - 1)%nat eqn:H1; [|discriminate].
  intros [= <-]. apply Nat.ltb_lt in H0, H1. lia.
Qed.

Lemma stem_suffix (p : Path.t) : Path.stem p ++ Path.suffix p = Path.name p.
Proof.
  unfold Path.stem, Path.suffix.
  destruct (Path.suffix_index (Path.name p)) as [i|] eqn:E.
  - apply suffix_index_bound in E. apply substring_split. lia.
  - apply append_nil_r.
Qed.

Lemma rfind_dot_prefixed (a nm : string) :
  Str.all prefix_char a = true ->
  Path.rfind_dot (a ++ nm) = (fun i => (String.length a + i)%nat) <$> Path.rfind_dot nm.
Proof.
  intros Ha. induction a as [|c a IH]; simpl.
  - destruct (Path.rfind_dot nm); reflexivity.
  - simpl in Ha. apply andb_prop in Ha as [Hc Ha]. rewrite (IH Ha).
    destruct (Path.rfind_dot nm); simpl; [reflexivity|].
    pose proof (prefix_char_not "." c eq_refl Hc) as Hd.
    apply negb_true_iff in Hd. now rewrite Hd.
Qed.

Lemma suffix_index_prefixed (a nm : string) (i : nat) :
  Str.all prefix_char a = true ->
  Path.suffix_index nm = Some i ->
  Path.suffix_index (a ++ nm) = Some (String.length a + i)%nat.
Proof.
  intros Ha H. pose proof (suffix_index_bound _ _ H) as [H0 H1].
  unfold Path.suffix_index in *. rewrite (rfind_dot_prefixed _ _ Ha).
  destruct (Path.rfind_dot nm) as [j|]; [|discriminate]. simpl.
  destruct (0 <? j)%nat; [|discriminate].
  destruct (j <? String.length nm - 1)%nat; [|discriminate].
  injection H as ->. rewrite string_length_append.
  assert ((0 <? String.length a + i)%nat = true) as -> by (apply Nat.ltb_lt; lia).
  assert ((String.length a + i <? String.length a + String.length nm - 1)%nat = true) as ->
    by (apply Nat.ltb_lt; lia).
  reflexivity.
Qed.

End Paths.

Section PathTheorems.

Import ScreenshotOrchestrator.

Lemma generate_custom (config : Config) (spec : ScreenshotSpec.t) (prefix s : string) :
  custom_output config spec = Some (PStr s) -> s <> "" ->
  _generate_output_path config spec prefix
  = Returned (Path.to_str
                (Path.truediv (Path.parent (Path.parse s))
                   (prefix ++ Path.stem (Path.parse s) ++ Path.suffix (Path.parse s)))).
Proof.
  unfold custom_output, _generate_output_path. intros H Hs.
  destruct (default ∅ (screenshots config) !! ScreenshotSpec.name spec) as [cfg|]; [|discriminate].
  rewrite H. simpl. destruct (String.eqb_spec s ""); [contradiction | reflexivity].
Qed.

Lemma generate_default (config : Config) (spec : ScreenshotSpec.t) (prefix : string) :
  (custom_output config spec = None
   \/ exists v, custom_output config spec = Some v /\ truthy v = false) ->
  _generate_output_path config spec prefix = Returned (default_path config spec prefix).
Proof.
  unfold custom_output, _generate_output_path, default_path. intros H.
  destruct (default ∅ (screenshots config) !! ScreenshotSpec.name spec) as [cfg|]; [|reflexivity].
  destruct H as [-> | (v & -> & Hv)]; [reflexivity | now rewrite Hv].
Qed.

Lemma generate_not_str (config : Config) (spec : ScreenshotSpec.t) (prefix : string)
    (v : pyval) :
  custom_output config spec = Some v -> truthy v = true -> (forall s, v <> PStr s) ->
  _generate_output_path config spec prefix = Raised path_type_error.
Proof.
  unfold custom_output, _generate_output_path. intros H Hv Hs.
  destruct (default ∅ (screenshots config) !! ScreenshotSpec.name spec) as [cfg|]; [|discriminate].
  rewrite H, Hv. destruct v; try reflexivity. now destruct (Hs s).
Qed.

Lemma prefixed_name_single (i : Z) (s : string) :
  Path.parse (commit_prefix i ++ Path.name (Path.parse s))
  = Path.mk "" [commit_prefix i ++ Path.name (Path.parse s)].
Proof.
  apply parse_single.
  - rewrite all_append, name_no_slash, andb_true_r.
    apply (all_impl prefix_char); [|apply commit_prefix_chars].
    intros c Hc. exact (prefix_char_not "/" c eq_refl Hc).
  - destruct (commit_prefix_cons i) as (c & t & -> & Hc).
    pose proof (prefix_char_not "." c eq_refl Hc) as Hd. apply negb_true_iff in Hd.
    unfold Path.keep_part. simpl. rewrite Ascii.eqb_sym in Hd. rewrite ?Hd.
    rewrite Ascii.eqb_sym in Hd. rewrite ?Hd. reflexivity.
Qed.

(** C7. With a custom output path [s] configured for the name of the spec
    (a non-empty string under ["output"] of its entry), the output path for
    the sequence prefix of index [i] is the path [q] whose directory is the
    directory of [s] and whose file name is the prefix, the stem of [s] and
    the extension of [s]; when [s] has an extension, [q] has the same one
    and its stem is the prefix followed by the stem of [s].  With no custom
    output (no entry, no ["output"] key, or an empty value) the path is
    [{output_dir}/{prefix}{name}.png].  (A value under ["output"] that is
    true and not a string makes [Path] raise.) *)
Theorem output_path_prefixed (config : Config) (spec : ScreenshotSpec.t) (i : Z) :
  (forall s, custom_output config spec = Some (PStr s) -> s <> "" ->
     exists q,
       _generate_output_path config spec (commit_prefix i) = Returned (Path.to_str q)
       /\ Path.parent q = Path.parent (Path.parse s)
       /\ Path.name q
          = commit_prefix i ++ Path.stem (Path.parse s) ++ Path.suffix (Path.parse s)
       /\ (Path.suffix (Path.parse s) <> "" ->
           Path.suffix q = Path.suffix (Path.parse s)
           /\ Path.stem q = commit_prefix i ++ Path.stem (Path.parse s)))
  /\ ((custom_output config spec = None
       \/ exists v, custom_output config spec = Some v /\ truthy v = false) ->
      _generate_output_path config spec (commit_prefix i)
      = Returned (default "screenshots" (output_dir config) ++ "/" ++ commit_prefix i
                  ++ ScreenshotSpec.name spec ++ ".png"))
  /\ (forall v, custom_output config spec = Some v -> truthy v = true ->
        (forall s, v <> PStr s) ->
        _generate_output_path config spec (commit_prefix i) = Raised path_type_error).
Proof.
  split; [|split; [apply generate_default | apply generate_not_str]].
  intros s Hc Hs. rewrite (generate_custom _ _ _ _ Hc Hs).
  set (p := Path.parse s). rewrite (stem_suffix p).
  unfold Path.truediv. subst p. rewrite prefixed_name_single. cbn [Path.root Path.parts].
  eexists. split; [reflexivity|].
  split; [rewrite parent_snoc; now destruct (Path.parent (Path.parse s))|].
  split; [apply name_snoc|].
  intros Hsuf. unfold Path.suffix, Path.stem in *. rewrite name_snoc.
  destruct (Path.suffix_index (Path.name (Path.parse s))) as [k|] eqn:E; [|contradiction].
  rewrite (suffix_index_prefixed _ _ _ (commit_prefix_chars i) E).
  pose proof (suffix_index_bound _ _ E) as [H0 H1].
  rewrite substring_append_skip, substring_append_take by exact H0.
  split; [|reflexivity]. f_equal. rewrite string_length_append. lia.
Qed.

Example custom_output_example :
  _generate_output_path
    {| output_dir := None; defaults := None;
       screenshots := Some {[ "home" := {[ "output" := PStr "custom/h.png" ]} ]} |}
    (ScreenshotSpec.new "home" "9fceb02d" "[screenshot:home]" "[screenshot:home]")
    (commit_prefix 2)
  = Returned "custom/02_h.png".
Proof. vm_compute. reflexivity. Qed.

Example commit_prefix_examples :
  map commit_prefix [1; 2; 9; 10; 42; 100] = ["01_"; "02_"; "09_"; "10_"; "42_"; "100_"].
Proof. vm_compute. reflexivity. Qed.

Example default_output_example :
  _generate_output_path empty_config
    (ScreenshotSpec.new "about" "9fceb02d" "[screenshot:about]" "[screenshot:about]")
    (commit_prefix 2)
  = Returned "screenshots/02_about.png".
Proof. vm_compute. reflexivity. Qed.

End PathTheorems.

(** ** Computations *)

Section Computations.

Context {B : Backend}.

Lemma keeps_ret {A} (I : St B -> Prop) (a : A) : keeps I (ret a).
Proof. intros st H. exact H. Qed.

Lemma keeps_pure {A} (I : St B -> Prop) (r : outcome A) : keeps I (pure r).
Proof. intros st H. exact H. Qed.

Lemma keeps_bind {A C} (I : St B -> Prop) (m : M B A) (k : A -> M B C) :
  keeps I m -> (forall a, keeps I (k a)) -> keeps I (bind m k).
Proof.
  intros Hm Hk st H. unfold bind. specialize (Hm st H).
  destruct (m st) as [[a|e] st']; simpl in *; [now apply Hk | exact Hm].
Qed.

Lemma keeps_try_except {A} (I : St B -> Prop) (body : M B A) (handler : string -> M B A) :
  keeps I body -> (forall e, keeps I (handler e)) -> keeps I (try_except body handler).
Proof.
  intros Hb Hh st H. unfold try_except. specialize (Hb st H).
  destruct (body st) as [[a|[msg|msg]] st']; simpl in *; [exact Hb | now apply Hh | exact Hb].
Qed.

Lemma keeps_try_finally {A} (I : St B -> Prop) (body : M B A) (final : M B unit) :
  keeps I body -> keeps I final -> keeps I (try_finally body final).
Proof.
  intros Hb Hf st H. unfold try_finally. specialize (Hb st H).
  destruct (body st) as [r st']. simpl in Hb. specialize (Hf st' Hb).
  destruct (final st') as [[u|e] st'']; exact Hf.
Qed.

Lemma keeps_for_each {A} (I : St B -> Prop) (l : list A) (body : A -> M B unit) :
  (forall x, keeps I (body x)) -> keeps I (for_each l body).
Proof.
  intros Hb. induction l as [|x l IH]; [apply keeps_ret|].
  apply keeps_bind; [apply Hb | intros _; exact IH].
Qed.

(** A property of the results alone, or of the log alone, is kept by what
    does not touch them. *)
Lemma keeps_lift {A} (I : St B -> Prop) (op : World B -> outcome A * World B) :
  (forall st w, I st -> I {| world := w; process := process st; log := log st; results := results st |}) ->
  keeps I (lift op).
Proof. intros HI st H. unfold lift. destruct (op (world st)) as [r w]. now apply HI. Qed.

Lemma keeps_set_process (I : St B -> Prop) (b : bool) :
  (forall st, I st -> I {| world := world st; process := b; log := log st; results := results st |}) ->
  keeps I (set_process b).
Proof. intros HI st H. now apply HI. Qed.

Lemma keeps_get_process (I : St B -> Prop) : keeps I get_process.
Proof. intros st H. exact H. Qed.

Lemma snd_try_finally {A} (body : M B A) (final : M B unit) (st : St B) :
  snd (try_finally body final st) = snd (final (snd (body st))).
Proof.
  unfold try_finally. destruct (body st) as [r st']. simpl.
  destruct (final st') as [[u|e] st'']; reflexivity.
Qed.

Lemma for_each_append {A} (f : A -> RunResult) (l : list A) (st : St B) :
  for_each l (fun x => append_result (f x)) st
  = (Returned tt,
     {| world := world st; process := process st; log := log st;
        results := (results st ++ map f l)%list |}).
Proof.
  revert st. induction l as [|x l IH]; intros st.
  - simpl. unfold ret. rewrite app_nil_r. now destruct st.
  - cbn [for_each]. unfold bind at 1. cbn [append_result]. rewrite IH. cbn.
    now rewrite <- app_assoc.
Qed.

End Computations.

(** ** Invariants of a run *)

Section RunInvariant.

Context {B : Backend}.

Import ScreenshotOrchestrator.

(** A property of the state that ignores the world and the server flag, holds
    on after a call that [allowed] admits, and after an entry with the right
    file name. *)
Variable I : St B -> Prop.
Variable allowed : Call -> bool.

Hypothesis I_world :
  forall st w p, I st ->
    I {| world := w; process := p; log := log st; results := results st |}.
Hypothesis I_call :
  forall st c, allowed c = true -> I st ->
    I {| world := world st; process := process st; log := (log st ++ [c])%list;
         results := results st |}.
Hypothesis I_result :
  forall st r, filename_ok r -> I st ->
    I {| world := world st; process := process st; log := log st;
         results := (results st ++ [r])%list |}.
Hypothesis allowed_in_run : forall c, is_restore c = false -> allowed c = true.

Lemma inv_lift {A} (op : World B -> outcome A * World B) : keeps I (lift op).
Proof. apply keeps_lift. intros st w H. now apply I_world. Qed.

Lemma inv_record (c : Call) : allowed c = true -> keeps I (record_call c).
Proof. intros Hc st H. now apply I_call. Qed.

Lemma inv_set_process (b : bool) : keeps I (set_process b).
Proof.
  intros st H. unfold set_process. cbn [snd]. destruct st as [w p l r].
  exact (I_world _ w b H).
Qed.

Lemma inv_append (r : RunResult) : filename_ok r -> keeps I (append_result r).
Proof. intros Hr st H. now apply I_result. Qed.

Lemma inv_start : keeps I (SymfonyServer.start (B := B)).
Proof.
  apply keeps_bind; [apply keeps_get_process|]. intros [|]; [apply keeps_ret|].
  apply keeps_bind; [apply inv_lift | intros _; apply inv_set_process].
Qed.

Lemma inv_stop : keeps I (SymfonyServer.stop (B := B)).
Proof.
  apply keeps_bind; [apply keeps_get_process|]. intros [|]; [|apply keeps_ret].
  apply keeps_bind; [apply inv_lift | intros _; apply inv_set_process].
Qed.

Lemma inv_take_screenshot (self : t) (g : CommitScreenshots.t) (spec : ScreenshotSpec.t) :
  keeps I (take_screenshot self g (commit_prefix (CommitScreenshots.index g)) spec).
Proof.
  apply keeps_try_except.
  - apply keeps_bind; [apply keeps_pure|]. intros output.
    apply keeps_bind; [now apply inv_record, allowed_in_run|]. intros _.
    apply keeps_bind; [apply inv_lift|]. intros path.
    apply inv_append. reflexivity.
  - intros e. apply inv_append. reflexivity.
Qed.

Lemma inv_process_group (self : t) (only : option (list string)) (g : CommitScreenshots.t) :
  keeps I (process_group self only g).
Proof.
  unfold process_group. destruct (screenshots_to_take only g) as [|x l]; [apply keeps_ret|].
  apply keeps_try_except.
  - apply keeps_bind; [now apply inv_record, allowed_in_run|]. intros _.
    apply keeps_bind; [apply inv_lift|]. intros _.
    apply keeps_bind; [now apply inv_record, allowed_in_run|]. intros _.
    apply keeps_bind; [apply inv_lift|]. intros _.
    apply keeps_bind; [now apply inv_record, allowed_in_run|]. intros _.
    apply keeps_bind.
    { apply keeps_bind; [apply inv_stop | intros _; apply inv_start]. }
    intros _. apply keeps_for_each. intros spec. apply inv_take_screenshot.
  - intros e. apply keeps_for_each. intros spec. apply inv_append. reflexivity.
Qed.

Lemma inv_run_from_git (self : t) (only : option (list string)) :
  keeps I (run_from_git self only).
Proof.
  unfold run_from_git.
  destruct (GitProjectManager.get_screenshot_commits _); [apply keeps_ret|].
  apply keeps_for_each. intros g. apply inv_process_group.
Qed.

Lemma inv_setup (headless : bool) : keeps I (setup headless).
Proof.
  apply keeps_bind; [now apply inv_record, allowed_in_run|]. intros _.
  apply keeps_bind; [apply inv_lift|]. intros _.
  apply keeps_bind; [now apply inv_record, allowed_in_run | intros _; apply inv_start].
Qed.

(** The body of the [try] of [main]. *)
Lemma inv_body (self : t) (args : Args) :
  keeps I (setup (negb (no_headless args)) ;; run_from_git self (only_arg args)).
Proof. apply keeps_bind; [apply inv_setup | intros _; apply inv_run_from_git]. Qed.

Lemma inv_teardown (self : t) :
  allowed restore_original_call = true -> keeps I (teardown self).
Proof.
  intros Hr.
  apply keeps_bind; [now apply inv_record, allowed_in_run|]. intros _.
  apply keeps_bind; [apply inv_lift|]. intros _.
  apply keeps_bind; [now apply inv_record, allowed_in_run|]. intros _.
  apply keeps_bind; [apply inv_stop|]. intros _.
  apply keeps_bind; [now apply inv_record | intros _; apply inv_lift].
Qed.

End RunInvariant.

(** ** The file names of the results *)

Section Filenames.

Context {B : Backend}.

Lemma main_filenames (env : Env) (args : Args) (w : World B) :
  Forall filename_ok (results (snd (main env args w))).
Proof.
  unfold main. destruct (negb _); [constructor|].
  destruct (make_orchestrator env args) as [o|e]; [|constructor].
  destruct (list_arg args); [constructor|].
  set (I := fun st : St B => Forall filename_ok (results st)).
  assert (H : I (snd (guarded_run o args (initial B w)))).
  { apply (keeps_try_finally I).
    - apply (inv_body I (fun _ => true)); subst I; cbn; auto;
        (intros st r Hr H; apply Forall_app; split; [exact H | now constructor]).
    - apply (inv_teardown I (fun _ => true)); subst I; cbn; auto;
        (intros st r Hr H; apply Forall_app; split; [exact H | now constructor]).
    - constructor. }
  destruct (guarded_run o args (initial B w)) as [[u|e] st]; exact H.
Qed.

End Filenames.

(** C10. Every entry of the results of a run, success or error, carries the
    file name [{prefix}{name}.png], the prefix being that of the index of
    its commit; the custom output of a name does not enter it: in the run of
    the example history with a custom output for [home], the entries of
    [home] are named [01_home.png] and [02_home.png] while the files are
    written to [custom/01_h.png] and [custom/02_h.png]. *)
Theorem result_filenames :
  (forall (B : Backend) (env : Env) (args : Args) (w : World B),
     Forall filename_ok (results (snd (main env args w))))
  /\ map (fun r => (r_filename r, r_path r))
       (results (snd (Scripted.run Scripted.no_faults Scripted.custom_config Scripted.args)))
     = [ ("01_home.png", Some "custom/01_h.png");
         ("02_home.png", Some "custom/02_h.png");
         ("02_about.png", Some "screenshots/02_about.png") ].
Proof.
  split; [intros; apply main_filenames | vm_compute; reflexivity].
Qed.

(** ** Isolation of failures *)

Section Isolation.

Context {B : Backend}.

Import ScreenshotOrchestrator.

Lemma apply_config_name (config : Config) (spec : ScreenshotSpec.t) :
  ScreenshotSpec.name (_apply_screenshot_config config spec) = ScreenshotSpec.name spec.
Proof.
  unfold _apply_screenshot_config.
  destruct (apply_defaults_fields (default ∅ (defaults config)) spec) as [Hn _].
  destruct (_ !! _) as [cfg|]; [|exact Hn].
  destruct (apply_named_fields cfg (apply_defaults (default ∅ (defaults config)) spec)) as [Kn _].
  now rewrite Kn.
Qed.

Lemma generate_not_base (config : Config) (spec : ScreenshotSpec.t) (prefix m : string) :
  _generate_output_path config spec prefix <> Raised (BaseException m).
Proof.
  unfold _generate_output_path.
  destruct (_ !! _) as [cfg|]; [|discriminate].
  destruct (cfg !! "output") as [v|]; [|discriminate].
  destruct (truthy v); [|discriminate]. destruct v; discriminate.
Qed.

(** One capture, whatever happens to it short of a [BaseException], returns
    and leaves exactly one entry, under the name of the spec. *)
Lemma take_screenshot_records (self : t) (g : CommitScreenshots.t) (prefix : string)
    (spec : ScreenshotSpec.t) (st : St B) :
  (forall s base w m, fst (browser_capture B s base w) <> Raised (BaseException m)) ->
  exists r st',
    take_screenshot self g prefix spec st = (Returned tt, st')
    /\ results st' = (results st ++ [r])%list
    /\ r_name r = ScreenshotSpec.name spec.
Proof.
  intros Hcap. unfold take_screenshot, try_except, bind, pure, record_call, lift, append_result.
  destruct (_generate_output_path (config self) (_apply_screenshot_config (config self) spec) prefix)
    as [out|[m|m]] eqn:Eg.
  - cbn [world process log results].
    match goal with |- context [browser_capture B ?s ?b ?w] =>
      pose proof (Hcap s b w) as Hc; destruct (browser_capture B s b w) as [[path|[m|m]] w'] end.
    + eexists _, _. split; [reflexivity|]. split; [reflexivity|]. apply apply_config_name.
    + eexists _, _. split; [reflexivity|]. split; reflexivity.
    + exfalso. exact (Hc m eq_refl).
  - eexists _, _. split; [reflexivity|]. split; reflexivity.
  - exfalso. exact (generate_not_base _ _ _ _ Eg).
Qed.

Lemma for_each_take_records (self : t) (g : CommitScreenshots.t) (prefix : string)
    (specs : list ScreenshotSpec.t) (st : St B) :
  (forall s base w m, fst (browser_capture B s base w) <> Raised (BaseException m)) ->
  exists l st',
    for_each specs (take_screenshot self g prefix) st = (Returned tt, st')
    /\ results st' = (results st ++ l)%list
    /\ map r_name l = map ScreenshotSpec.name specs.
Proof.
  intros Hcap. revert st. induction specs as [|spec specs IH]; intros st.
  - exists [], st. split; [reflexivity|]. split; [now rewrite app_nil_r | reflexivity].
  - destruct (take_screenshot_records self g prefix spec st Hcap) as (r & st1 & E1 & R1 & N1).
    destruct (IH st1) as (l & st2 & E2 & R2 & N2).
    exists (r :: l), st2. cbn [for_each]. unfold bind. rewrite E1, E2.
    split; [reflexivity|]. split.
    + rewrite R2, R1, <- app_assoc. reflexivity.
    + cbn. now rewrite N1, N2.
Qed.

Lemma quiet_ret : quiet (ret (B := B) tt).
Proof. intros st. exists st. auto. Qed.

Lemma quiet_record (c : Call) : quiet (record_call (B := B) c).
Proof. intros st. eexists. split; [|left; reflexivity]. reflexivity. Qed.

Lemma quiet_set_process (b : bool) : quiet (set_process (B := B) b).
Proof. intros st. eexists. split; [|left; reflexivity]. reflexivity. Qed.

Lemma quiet_lift (op : World B -> outcome unit * World B) :
  (forall w m, fst (op w) <> Raised (BaseException m)) -> quiet (lift op).
Proof.
  intros H st. unfold lift. specialize (H (world st)).
  destruct (op (world st)) as [[[]|[m|m]] w].
  - eexists. split; [|left; reflexivity]. reflexivity.
  - eexists. split; [|right; eexists; reflexivity]. reflexivity.
  - exfalso. exact (H m eq_refl).
Qed.

Lemma quiet_bind (m k : M B unit) : quiet m -> quiet k -> quiet (m ;; k).
Proof.
  intros Hm Hk st. unfold bind. destruct (Hm st) as (st1 & R1 & [E1 | [msg E1]]); rewrite E1.
  - destruct (Hk st1) as (st2 & R2 & E2). exists st2. split; [congruence | exact E2].
  - exists st1. split; [exact R1 | right; eauto].
Qed.

Lemma quiet_get_process (k : bool -> M B unit) :
  (forall b, quiet (k b)) -> quiet (bind get_process k).
Proof. intros H st. exact (H (process st) st). Qed.

Lemma quiet_restart : raises_only_exceptions B -> quiet (SymfonyServer.restart (B := B)).
Proof.
  intros (_ & Hpopen & Hterm & _). apply quiet_bind.
  - apply quiet_get_process. intros [|]; [|apply quiet_ret].
    apply quiet_bind; [now apply quiet_lift | apply quiet_set_process].
  - apply quiet_get_process. intros [|]; [apply quiet_ret|].
    apply quiet_bind; [now apply quiet_lift | apply quiet_set_process].
Qed.

(** A quiet step at the head of a guarded body: the body goes on with the
    same results, or the handler runs on the same results. *)
Lemma try_except_quiet (q rest : M B unit) (handler : string -> M B unit) (st : St B)
    (P : outcome unit * St B -> Prop) :
  quiet q ->
  (forall st', results st' = results st -> P (try_except rest handler st')) ->
  (forall msg st', results st' = results st -> P (handler msg st')) ->
  P (try_except (q ;; rest) handler st).
Proof.
  intros Hq Hrest Hh. unfold try_except at 1, bind at 1.
  destruct (Hq st) as (st1 & R1 & [E1 | [msg E1]]); rewrite E1.
  - specialize (Hrest st1 R1). unfold try_except in Hrest.
    destruct (rest st1) as [[u|[m|m]] st2]; exact Hrest.
  - now apply Hh.
Qed.

(** A group, whatever fails in it short of a [BaseException], returns and
    leaves one entry for each capture it had to take. *)
Lemma process_group_records (self : t) (only : option (list string))
    (g : CommitScreenshots.t) (st : St B) :
  raises_only_exceptions B ->
  exists l st',
    process_group self only g st = (Returned tt, st')
    /\ results st' = (results st ++ l)%list
    /\ map r_name l = map ScreenshotSpec.name (screenshots_to_take only g).
Proof.
  intros Hwb. pose proof Hwb as (Hco & Hpopen & Hterm & Hrm & _ & Hcap & _).
  unfold process_group. destruct (screenshots_to_take only g) as [|x to_take].
  { exists [], st. split; [reflexivity|]. split; [now rewrite app_nil_r | reflexivity]. }
  set (specs := x :: to_take). clearbody specs.
  assert (Hh : forall msg (st' : St B), results st' = results st ->
            exists l st'',
              for_each specs
                (fun spec => append_result
                   (checkout_failed_entry g (commit_prefix (CommitScreenshots.index g)) spec msg)) st'
              = (Returned tt, st'')
              /\ results st'' = (results st ++ l)%list
              /\ map r_name l = map ScreenshotSpec.name specs).
  { intros msg st' R. rewrite for_each_append. eexists _, _.
    split; [reflexivity|]. split; [cbn; now rewrite R|].
    rewrite map_map. reflexivity. }
  apply try_except_quiet; [apply quiet_record | | exact Hh]. intros st1 R1.
  apply try_except_quiet;
    [apply quiet_lift; apply Hco | | intros msg st' R; apply Hh; congruence].
  intros st2 R2.
  apply try_except_quiet;
    [apply quiet_record | | intros msg st' R; apply Hh; congruence].
  intros st3 R3.
  apply try_except_quiet;
    [apply quiet_lift; apply Hrm | | intros msg st' R; apply Hh; congruence].
  intros st4 R4.
  apply try_except_quiet;
    [apply quiet_record | | intros msg st' R; apply Hh; congruence].
  intros st5 R5.
  apply try_except_quiet;
    [now apply quiet_restart | | intros msg st' R; apply Hh; congruence].
  intros st6 R6.
  destruct (for_each_take_records self g (commit_prefix (CommitScreenshots.index g)) specs st6 Hcap)
    as (l & st7 & E & R & N).
  unfold try_except. rewrite E. exists l, st7.
  split; [reflexivity|]. split; [congruence | exact N].
Qed.

Lemma for_each_groups_records (self : t) (only : option (list string))
    (groups : list CommitScreenshots.t) (st : St B) :
  raises_only_exceptions B ->
  exists l st',
    for_each groups (process_group self only) st = (Returned tt, st')
    /\ results st' = (results st ++ l)%list
    /\ map r_name l
       = flat_map (fun g => map ScreenshotSpec.name (screenshots_to_take only g)) groups.
Proof.
  intros Hwb. revert st. induction groups as [|g groups IH]; intros st.
  - exists [], st. split; [reflexivity|]. split; [now rewrite app_nil_r | reflexivity].
  - destruct (process_group_records self only g st Hwb) as (l1 & st1 & E1 & R1 & N1).
    destruct (IH st1) as (l2 & st2 & E2 & R2 & N2).
    exists (l1 ++ l2)%list, st2. cbn [for_each flat_map]. unfold bind. rewrite E1, E2.
    split; [reflexivity|]. split.
    + rewrite R2, R1, <- app_assoc. reflexivity.
    + rewrite map_app, N1, N2. reflexivity.
Qed.

End Isolation.

Section IsolationTheorems.

Import ScreenshotOrchestrator.

Lemma scripted_only_exceptions (f : Scripted.Faults) :
  raises_only_exceptions (Scripted.backend f).
Proof.
  repeat split; intros; simpl;
    repeat match goal with |- context [if ?b then _ else _] => destruct b end;
    try discriminate.
  destruct (ScreenshotSpec.output_path spec); discriminate.
Qed.

Example scripted_plan :
  GitProjectManager.get_screenshot_commits Scripted.history
  = [Scripted.group1; Scripted.group2].
Proof. reflexivity. Qed.

(** C4. When the checkout of a group fails with an [Exception], the group
    returns with one entry appended for every capture it had to take, each
    an error whose detail is [Checkout failed: ] followed by the text of the
    exception, and the loop over the groups goes on with the next group
    from that state. *)
Theorem checkout_failure_isolated {B : Backend} (self : t) (only : option (list string))
    (g : CommitScreenshots.t) (rest : list CommitScreenshots.t) (st : St B)
    (msg : string) (w' : World B) :
  screenshots_to_take only g <> [] ->
  git_checkout B (CommitScreenshots.commit_sha g) (world st) = (Raised (Exception msg), w') ->
  let entries :=
    map (fun spec =>
           checkout_failed_entry g (commit_prefix (CommitScreenshots.index g)) spec msg)
        (screenshots_to_take only g) in
  let st' :=
    {| world := w'; process := process st;
       log := (log st ++ [checkout_commit_call (CommitScreenshots.commit_sha g)])%list;
       results := (results st ++ entries)%list |} in
  process_group self only g st = (Returned tt, st')
  /\ for_each (g :: rest) (process_group self only) st
     = for_each rest (process_group self only) st'
  /\ Forall (fun r => r_status r = error /\ r_path r = None
                      /\ r_error r = Some ("Checkout failed: " ++ msg)) entries
  /\ map r_name entries = map ScreenshotSpec.name (screenshots_to_take only g).
Proof.
  intros Hne Hco entries st'.
  assert (E : process_group self only g st = (Returned tt, st')).
  { subst entries st'. unfold process_group.
    destruct (screenshots_to_take only g) as [|x l]; [contradiction|].
    unfold try_except, bind at 1, record_call. unfold bind at 1.
    unfold GitProjectManager.checkout_commit, lift at 1. cbn [world process log results].
    rewrite Hco. rewrite for_each_append. reflexivity. }
  split; [exact E|]. split.
  - cbn [for_each]. unfold bind at 1. now rewrite E.
  - subst entries. split.
    + apply Forall_forall. intros r Hr. apply list_elem_of_In, in_map_iff in Hr as (spec & <- & _).
      repeat split.
    + rewrite map_map. reflexivity.
Qed.

(** C4 at work: the checkout of the first commit of the example history
    fails; its capture is recorded as failed and the second group is
    captured. *)
Lemma checkout_failure_witness :
  map (fun r => (r_filename r, r_status r, r_error r))
    (results (snd (for_each [Scripted.group1; Scripted.group2]
                     (process_group (B := Scripted.backend Scripted.checkout_fault)
                        (Scripted.orchestrator empty_config) None)
                     (initial (Scripted.backend Scripted.checkout_fault) 0%nat))))
  = [ ("01_home.png", error,
       Some "Checkout failed: pathspec '1a3c5e7f9b2d4f6a' did not match any file(s) known to git");
      ("02_home.png", success, None);
      ("02_about.png", success, None) ].
Proof.
  destruct (checkout_failure_isolated (B := Scripted.backend Scripted.checkout_fault)
              (Scripted.orchestrator empty_config) None Scripted.group1 [Scripted.group2]
              (initial (Scripted.backend Scripted.checkout_fault) 0%nat)
              "pathspec '1a3c5e7f9b2d4f6a' did not match any file(s) known to git" 1%nat
              ltac:(discriminate) eq_refl) as (_ & E & _).
  rewrite E. vm_compute. reflexivity.
Defined.

End IsolationTheorems.

Section CaptureTheorems.

Import ScreenshotOrchestrator.

(** C5. When the capture of an item raises an [Exception], the item returns
    with one error entry appended, carrying the text of the exception, and
    the loop over the group goes on with the next item from that state; a
    later capture that returns leaves its success entry.  When the backend
    raises nothing but [Exception]s, every later item of the group leaves
    its entry after the error entry, the entries recorded before staying in
    place, and every group of any list of groups returns with one entry per
    capture it had to take. *)
Theorem capture_failure_isolated {B : Backend} (self : t) (only : option (list string))
    (g : CommitScreenshots.t) (spec : ScreenshotSpec.t) (rest : list ScreenshotSpec.t)
    (st : St B) (out msg : string) (w' : World B) :
  let prefix := commit_prefix (CommitScreenshots.index g) in
  let resolved s o :=
    ScreenshotSpec.set_output_path (PStr o) (_apply_screenshot_config (config self) s) in
  _generate_output_path (config self) (_apply_screenshot_config (config self) spec) prefix
  = Returned out ->
  browser_capture B (resolved spec out) SymfonyServer.base_url (world st)
  = (Raised (Exception msg), w') ->
  let failed := error_entry g prefix spec msg in
  let st' :=
    {| world := w'; process := process st;
       log := (log st ++ [capture_call (resolved spec out) SymfonyServer.base_url])%list;
       results := (results st ++ [failed])%list |} in
  take_screenshot self g prefix spec st = (Returned tt, st')
  /\ (r_status failed = error /\ r_error failed = Some msg
      /\ r_name failed = ScreenshotSpec.name spec)
  /\ for_each (spec :: rest) (take_screenshot self g prefix) st
     = for_each rest (take_screenshot self g prefix) st'
  /\ (forall s2 (st2 : St B) o2 path w2,
        _generate_output_path (config self) (_apply_screenshot_config (config self) s2) prefix
        = Returned o2 ->
        browser_capture B (resolved s2 o2) SymfonyServer.base_url (world st2)
        = (Returned path, w2) ->
        take_screenshot self g prefix s2 st2
        = (Returned tt,
           {| world := w2; process := process st2;
              log := (log st2 ++ [capture_call (resolved s2 o2) SymfonyServer.base_url])%list;
              results := (results st2 ++ [success_entry g prefix (resolved s2 o2) path])%list |}))
  /\ (raises_only_exceptions B ->
      (exists l st'',
         for_each (spec :: rest) (take_screenshot self g prefix) st = (Returned tt, st'')
         /\ results st'' = (results st ++ failed :: l)%list
         /\ map r_name l = map ScreenshotSpec.name rest)
      /\ (forall groups (st0 : St B),
            exists l st1,
              for_each groups (process_group self only) st0 = (Returned tt, st1)
              /\ results st1 = (results st0 ++ l)%list
              /\ map r_name l
                 = flat_map (fun g => map ScreenshotSpec.name (screenshots_to_take only g))
                     groups)).
Proof.
  intros prefix resolved Hgen Hcap failed st'.
  assert (E : take_screenshot self g prefix spec st = (Returned tt, st')).
  { subst st'. unfold take_screenshot, try_except, bind, pure, record_call, lift, append_result.
    rewrite Hgen. cbn [world process log results]. fold (resolved spec out).
    rewrite Hcap. reflexivity. }
  split; [exact E|]. split; [repeat split|]. split; [|split].
  - cbn [for_each]. unfold bind at 1. now rewrite E.
  - intros s2 st2 o2 path w2 Hg2 Hc2.
    unfold take_screenshot, try_except, bind, pure, record_call, lift, append_result.
    rewrite Hg2. cbn [world process log results]. fold (resolved s2 o2).
    rewrite Hc2. reflexivity.
  - intros Hwb. split.
    + pose proof Hwb as (_ & _ & _ & _ & _ & Hc & _).
      destruct (for_each_take_records self g prefix rest st' Hc) as (l & st2 & E2 & R2 & N2).
      exists l, st2. cbn [for_each]. unfold bind at 1. rewrite E, E2.
      split; [reflexivity|]. split; [|exact N2].
      rewrite R2. subst st'. cbn [results]. now rewrite <- app_assoc.
    + intros groups st0. now apply for_each_groups_records.
Qed.

(** C5 at work: in the second group of the example history the capture of
    [home] fails; it is recorded as failed and [about] is captured. *)
Lemma capture_failure_witness :
  map (fun r => (r_filename r, r_status r, r_path r, r_error r))
    (results (snd (for_each (CommitScreenshots.screenshots Scripted.group2)
                     (take_screenshot (B := Scripted.backend Scripted.capture_fault)
                        (Scripted.orchestrator empty_config) Scripted.group2 (commit_prefix 2))
                     (initial (Scripted.backend Scripted.capture_fault) 0%nat))))
  = [ ("02_home.png", error, None, Some "Page.screenshot: Target closed");
      ("02_about.png", success, Some "screenshots/02_about.png", None) ]
  /\ fst (for_each [Scripted.group1; Scripted.group2]
            (process_group (B := Scripted.backend Scripted.capture_fault)
               (Scripted.orchestrator empty_config) None)
            (initial (Scripted.backend Scripted.capture_fault) 0%nat))
     = Returned tt.
Proof.
  destruct (capture_failure_isolated (B := Scripted.backend Scripted.capture_fault)
              (Scripted.orchestrator empty_config) None Scripted.group2
              (ScreenshotSpec.new "home" "b2c4e6a8d0f1a3b5"
                 "[screenshot:home,about] Add the about page"
                 "[screenshot:home,about] Add the about page")
              [ScreenshotSpec.new "about" "b2c4e6a8d0f1a3b5"
                 "[screenshot:home,about] Add the about page"
                 "[screenshot:home,about] Add the about page"]
              (initial (Scripted.backend Scripted.capture_fault) 0%nat)
              "screenshots/02_home.png" "Page.screenshot: Target closed" 1%nat
              eq_refl eq_refl)
    as (_ & _ & E & _ & Hall).
  split.
  - change (CommitScreenshots.screenshots Scripted.group2)
      with [ScreenshotSpec.new "home" "b2c4e6a8d0f1a3b5"
              "[screenshot:home,about] Add the about page"
              "[screenshot:home,about] Add the about page";
            ScreenshotSpec.new "about" "b2c4e6a8d0f1a3b5"
              "[screenshot:home,about] Add the about page"
              "[screenshot:home,about] Add the about page"].
    change (commit_prefix 2) with (commit_prefix (CommitScreenshots.index Scripted.group2)).
    rewrite E. vm_compute. reflexivity.
  - destruct (Hall (scripted_only_exceptions Scripted.capture_fault)) as [_ Hgroups].
    destruct (Hgroups [Scripted.group1; Scripted.group2]
                (initial (Scripted.backend Scripted.capture_fault) 0%nat))
      as (l & st1 & Hrun & _).
    rewrite Hrun. reflexivity.
Defined.

End CaptureTheorems.

(** ** Teardown *)

Section Teardown.

Context {B : Backend}.

Import ScreenshotOrchestrator.

Lemma restores_app (l1 l2 : list Call) :
  restores (l1 ++ l2)%list = (restores l1 + restores l2)%nat.
Proof. unfold restores. now rewrite List.filter_app, length_app. Qed.

(** The calls teardown makes from a state, step by step: each step is
    called when the steps before it returned; the exception of a step ends
    teardown. *)
Lemma teardown_calls (self : t) (st : St B) :
  exists calls,
    log (snd (teardown self st)) = (log st ++ calls)%list
    /\ (calls = [browser_stop_call]
        \/ calls = [browser_stop_call; server_stop_call]
        \/ calls = [browser_stop_call; server_stop_call; restore_original_call])
    /\ (calls = [browser_stop_call; server_stop_call; restore_original_call]
        <-> stops_return B st)
    /\ (forall e w1,
          browser_stop B (world st) = (Raised e, w1) ->
          calls = [browser_stop_call] /\ fst (teardown self st) = Raised e)
    /\ (forall w1 e w2,
          browser_stop B (world st) = (Returned tt, w1) -> process st = true ->
          terminate_server B w1 = (Raised e, w2) ->
          calls = [browser_stop_call; server_stop_call] /\ fst (teardown self st) = Raised e).
Proof.
  unfold teardown, stops_return, GitProjectManager.restore_original, SymfonyServer.stop.
  unfold bind, record_call, lift, get_process, set_process, ret.
  cbn [world process log results].
  destruct (browser_stop B (world st)) as [[[]|e1] w1] eqn:E1;
    cbn [world process log results fst snd].
  - destruct (process st) eqn:Ep; cbn [world process log results fst snd].
    + destruct (terminate_server B w1) as [[[]|e2] w2] eqn:E2;
        cbn [world process log results fst snd].
      * match goal with |- context [git_checkout B ?r ?x] =>
          destruct (git_checkout B r x) as [r3 w3] end.
        cbn [world process log results fst snd].
        exists [browser_stop_call; server_stop_call; restore_original_call].
        split; [now rewrite <- !app_assoc|]. split; [auto|]. split; [|split].
        -- split; [intros _|reflexivity]. exists w1. split; [reflexivity|]. right. eauto.
        -- intros e w Hx. discriminate.
        -- intros w e w2' [= <-] _ Hx. rewrite E2 in Hx. discriminate.
      * exists [browser_stop_call; server_stop_call].
        split; [now rewrite <- !app_assoc|]. split; [auto|]. split; [|split].
        -- split; [discriminate|]. intros (w & [= <-] & [Hp | [w2' Hx]]); [discriminate|].
           rewrite E2 in Hx. discriminate.
        -- intros e w Hx. discriminate.
        -- intros w e w2' [= <-] _ Hx. rewrite E2 in Hx. injection Hx as <- <-. auto.
    + match goal with |- context [git_checkout B ?r ?x] =>
        destruct (git_checkout B r x) as [r3 w3] end.
      cbn [world process log results fst snd].
      exists [browser_stop_call; server_stop_call; restore_original_call].
      split; [now rewrite <- !app_assoc|]. split; [auto|]. split; [|split].
      * split; [intros _|reflexivity]. exists w1. auto.
      * intros e w Hx. discriminate.
      * intros w e w2' _ Hp. discriminate.
  - exists [browser_stop_call].
    split; [reflexivity|]. split; [auto|]. split; [|split].
    + split; [discriminate|]. intros (w & Hx & _). discriminate.
    + intros e w [= <- <-]. auto.
    + intros w e w2' Hx. discriminate.
Qed.

(** No call of [restore_original] is made before teardown. *)
Lemma body_never_restores (self : t) (args : Args) (w : World B) :
  restores (log (snd ((setup (negb (no_headless args)) ;;
                       run_from_git self (only_arg args)) (initial B w)))) = 0%nat.
Proof.
  apply (inv_body (fun st => restores (log st) = 0%nat) (fun c => negb (is_restore c))).
  - intros st w' p H. exact H.
  - intros st c Hc H. cbn [log]. rewrite restores_app, H. unfold restores. cbn.
    apply negb_true_iff in Hc. now rewrite Hc.
  - intros st r _ H. exact H.
  - intros c Hc. now rewrite Hc.
  - reflexivity.
Qed.

End Teardown.

Section TeardownTheorems.

Import ScreenshotOrchestrator.

(** C2 (as amended). Teardown calls its three steps in the fixed order
    browser stop, server stop, restore of the original branch; a step is
    called exactly when every step before it returned: all three are called
    if and only if the stop of the browser and the stop of the server
    return; when the stop of the browser raises, it is the only call and
    teardown raises that exception; when the termination of the server
    process raises, the restore is not called and teardown raises that
    exception. *)
Theorem teardown_order {B : Backend} (self : t) (st : St B) :
  exists calls,
    log (snd (teardown self st)) = (log st ++ calls)%list
    /\ (calls = [browser_stop_call]
        \/ calls = [browser_stop_call; server_stop_call]
        \/ calls = [browser_stop_call; server_stop_call; restore_original_call])
    /\ (calls = [browser_stop_call; server_stop_call; restore_original_call]
        <-> stops_return B st)
    /\ (forall e w1,
          browser_stop B (world st) = (Raised e, w1) ->
          calls = [browser_stop_call] /\ fst (teardown self st) = Raised e)
    /\ (forall w1 e w2,
          browser_stop B (world st) = (Returned tt, w1) -> process st = true ->
          terminate_server B w1 = (Raised e, w2) ->
          calls = [browser_stop_call; server_stop_call] /\ fst (teardown self st) = Raised e).
Proof. apply teardown_calls. Qed.

(** C2, the claim as stated, fails: after a setup that started the server,
    a stop of the browser that raises ends teardown; the server is not
    stopped (its process stays) and the original branch is not restored. *)
Lemma teardown_stops_at_first_failure :
  teardown (B := Scripted.backend Scripted.stop_fault) (Scripted.orchestrator empty_config)
    (snd (setup (B := Scripted.backend Scripted.stop_fault) true
            (initial (Scripted.backend Scripted.stop_fault) 0%nat)))
  = (Raised (Exception "Browser has been closed"),
     Build_St (Scripted.backend Scripted.stop_fault) 3%nat true
       [browser_start_call true; server_start_call; browser_stop_call] []).
Proof. reflexivity. Qed.

(** C1 (as amended). In a guarded run (setup, the capture loop, then
    teardown whatever the loop did), [restore_original] is never called
    before teardown and at most once in all; it is called exactly once, as
    the last call of the run, when the stop of the browser and the stop of
    the server return at teardown, and not at all otherwise. *)
Theorem restore_once_at_teardown {B : Backend} (self : t) (args : Args) (w : World B) :
  let before :=
    snd ((setup (negb (no_headless args)) ;; run_from_git self (only_arg args))
           (initial B w)) in
  let final := snd (guarded_run self args (initial B w)) in
  restores (log before) = 0%nat
  /\ (restores (log final) <= 1)%nat
  /\ (stops_return B before ->
      restores (log final) = 1%nat /\ last (log final) = Some restore_original_call)
  /\ (~ stops_return B before -> restores (log final) = 0%nat).
Proof.
  intros before final.
  assert (Hb : restores (log before) = 0%nat) by apply body_never_restores.
  assert (Hf : final = snd (teardown self before)) by apply snd_try_finally.
  destruct (teardown_calls self before) as (calls & Hl & Hc & Hiff & _).
  rewrite <- Hf in Hl. split; [exact Hb|].
  assert (Hr : restores (log final) = restores calls) by (rewrite Hl, restores_app; lia).
  split; [|split].
  - rewrite Hr. destruct Hc as [-> | [-> | ->]]; cbn; lia.
  - intros Hs%Hiff. subst calls. split; [rewrite Hr; reflexivity|].
    rewrite Hl. change [browser_stop_call; server_stop_call; restore_original_call]
      with ([browser_stop_call; server_stop_call] ++ [restore_original_call])%list.
    rewrite app_assoc. apply last_snoc.
  - intros Hs. rewrite Hr. destruct Hc as [-> | [-> | ->]]; [reflexivity | reflexivity |].
    exfalso. apply Hs, Hiff. reflexivity.
Qed.

(** C1, the claim as stated, fails: in a run whose captures all succeed, a
    stop of the browser that raises at teardown leaves the run without any
    call of [restore_original]. *)
Lemma run_without_restore :
  restores (log (snd (Scripted.run Scripted.stop_fault empty_config Scripted.args))) = 0%nat
  /\ map r_status (results (snd (Scripted.run Scripted.stop_fault empty_config Scripted.args)))
     = [success; success; success]
  /\ last (log (snd (Scripted.run Scripted.stop_fault empty_config Scripted.args)))
     = Some browser_stop_call.
Proof. repeat split. Qed.

Example run_restores_once :
  restores (log (snd (Scripted.run Scripted.no_faults empty_config Scripted.args))) = 1%nat
  /\ restores (log (snd (Scripted.run Scripted.checkout_fault empty_config Scripted.args))) = 1%nat
  /\ restores (log (snd (Scripted.run Scripted.capture_fault empty_config Scripted.args))) = 1%nat.
Proof. repeat split. Qed.

End TeardownTheorems.

(** ** Optional libraries *)

Section Capabilities.

Import ScreenshotOrchestrator.

(** C9 (as amended). With the project path present, the configuration
    loaded and the repository opened: a missing GitPython, or a missing
    Playwright, makes the construction of the orchestrator raise, and [main]
    builds the orchestrator before it looks at [--list], so in every mode,
    [--list] included, the process ends with that exception, no collaborator
    having been called; with both libraries present [--list] prints the plan
    and exits with code 0, no collaborator having been called, and a run is
    the guarded run; the Pillow flag changes nothing of this. *)
Theorem capability_checks {B : Backend} (env : Env) (args : Args) (w : World B)
    (config : Config) (gm : GitProjectManager.t) :
  path_exists env (project_path args) = true ->
  loaded_config env args = Returned config ->
  open_repo env (project_path args) = Returned gm ->
  (GIT_AVAILABLE env = false ->
   main env args w = (Uncaught (Exception "GitPython est requis"), [], initial B w))
  /\ (GIT_AVAILABLE env = true -> PLAYWRIGHT_AVAILABLE env = false ->
      main env args w = (Uncaught (Exception "Playwright est requis"), [], initial B w))
  /\ (GIT_AVAILABLE env = true -> PLAYWRIGHT_AVAILABLE env = true -> list_arg args = true ->
      main env args w
      = (SysExit 0,
         listing (GitProjectManager.get_screenshot_commits (GitProjectManager.commits gm)),
         initial B w))
  /\ (GIT_AVAILABLE env = true -> PLAYWRIGHT_AVAILABLE env = true -> list_arg args = false ->
      main env args w
      = match guarded_run (mk config gm) args (initial B w) with
        | (Returned _, st) => (Done, [], st)
        | (Raised e, st) => (Uncaught e, [], st)
        end)
  /\ (forall b, main (set_pil b env) args w = main env args w).
Proof.
  intros Hp Hc Hr.
  assert (Hpil : forall b, main (set_pil b env) args w = main env args w)
    by (intros b; reflexivity).
  assert (Hm : make_orchestrator env args
               = ScreenshotOrchestrator.__init__ (GIT_AVAILABLE env) (PLAYWRIGHT_AVAILABLE env)
                   (Some (Returned config)) (Returned gm)).
  { unfold make_orchestrator, loaded_config in *. rewrite Hr.
    destruct (config_arg args) as [p|]; [destruct (String.eqb p "")|];
      try rewrite Hc; try (injection Hc as <-); reflexivity. }
  unfold main at 1 2 3 4. rewrite Hp, Hm. cbn [negb].
  unfold ScreenshotOrchestrator.__init__, GitProjectManager.__init__, BrowserCapture.__init__.
  cbn [default].
  split; [intros ->; reflexivity|].
  split; [intros -> ->; reflexivity|].
  split; [intros -> -> ->; reflexivity|].
  split; [intros -> -> ->; reflexivity|].
  exact Hpil.
Qed.

(** C9 at work: with every library present, [--list] on the example
    history prints the three file names and exits with code 0. *)
Lemma capability_checks_witness :
  main (B := Scripted.backend Scripted.no_faults) (Scripted.env true) Scripted.list_args 0%nat
  = (SysExit 0, ["01_home.png"; "02_home.png"; "02_about.png"],
     initial (Scripted.backend Scripted.no_faults) 0%nat).
Proof.
  destruct (capability_checks (B := Scripted.backend Scripted.no_faults)
              (Scripted.env true) Scripted.list_args 0%nat empty_config Scripted.git_manager
              eq_refl eq_refl eq_refl) as (_ & _ & H & _).
  rewrite (H eq_refl eq_refl eq_refl). reflexivity.
Defined.

(** C9, the claim as stated, fails: without Playwright, [--list] does not
    print the plan; the process ends with the exception of the constructor
    of the browser. *)
Lemma list_needs_playwright :
  main (B := Scripted.backend Scripted.no_faults) (Scripted.env false) Scripted.list_args 0%nat
  = (Uncaught (Exception "Playwright est requis"), [],
     initial (Scripted.backend Scripted.no_faults) 0%nat).
Proof. reflexivity. Qed.

End Capabilities.

(** * Further properties *)

(** ** The plan *)

Section PlanFacts.

Import GitProjectManager.








Lemma omap_commit_group_nil (history : list Commit) :
  omap commit_group history = [] <-> Forall (fun c => ~ has_tag (message c)) history.
Proof.
  induction history as [|c h IH]; [split; constructor|].
  cbn [omap list_omap]. destruct (commit_group c) as [g|] eqn:E.
  - split; [discriminate|]. intros H. inversion H; subst. exfalso.
    unfold commit_group in E. destruct (search (message c)) eqn:Es; [|discriminate].
    apply H2, search_has_tag. rewrite Es. eauto.
  - rewrite IH. split.
    + intros H. constructor; [|exact H]. apply search_None.
      unfold commit_group in E. now destruct (search (message c)).
    + intros H. now inversion H.
Qed.

Lemma plan_nil (history : list Commit) :
  get_screenshot_commits history = [] <-> Forall (fun c => ~ has_tag (message c)) history.
Proof.
  rewrite <- omap_commit_group_nil. unfold get_screenshot_commits, assign_indices.
  split.
  - intros H. apply (f_equal length) in H. rewrite length_imap, length_reverse in H.
    now destruct (omap commit_group history).
  - intros ->. reflexivity.
Qed.

Lemma screenshots_imap_set_index (f : nat -> Z) (l : list CommitScreenshots.t) :
  map CommitScreenshots.screenshots (imap (fun i g => CommitScreenshots.set_index (f i) g) l)
  = map CommitScreenshots.screenshots l.
Proof.
  revert f. induction l as [|g l IH]; intros f; [reflexivity|].
  cbn [imap map]. f_equal. exact (IH (fun i => f (S i))).
Qed.

Lemma screenshots_assign_indices (l : list CommitScreenshots.t) :
  map CommitScreenshots.screenshots (assign_indices l) = map CommitScreenshots.screenshots l.
Proof. exact (screenshots_imap_set_index (fun i => Z.of_nat i + 1) l). Qed.

Lemma omap_commit_group_reverse (history : list Commit) :
  omap commit_group (reverse history) = reverse (omap commit_group history).
Proof.
  induction history as [|c h IH]; [reflexivity|].
  rewrite reverse_cons, omap_app, IH. cbn [omap list_omap].
  destruct (commit_group c); [now rewrite reverse_cons | now rewrite app_nil_r].
Qed.

Lemma names_of_group (c : Commit) :
  map ScreenshotSpec.name (from_option CommitScreenshots.screenshots [] (commit_group c))
  = tag_names (message c).
Proof.
  unfold commit_group, tag_names. destruct (search (message c)); [|reflexivity].
  cbn. rewrite map_map. cbn. apply map_id.
Qed.

End PlanFacts.

Section PlanExtras.

Import GitProjectManager.



(** X3. The flat list of captures names, commit after commit from the oldest
    to the newest, the names of the first tag of each message, in the order
    of the tag; a commit without a tag adds nothing. *)
Theorem all_specs_chronological (history : list Commit) :
  map ScreenshotSpec.name (get_all_screenshot_specs history)
  = flat_map (fun c => tag_names (message c)) (reverse history).
Proof.
  unfold get_all_screenshot_specs, get_screenshot_commits.
  rewrite screenshots_assign_indices, <- omap_commit_group_reverse.
  induction (reverse history) as [|c h IH]; [reflexivity|].
  cbn [omap list_omap flat_map]. rewrite <- IH, <- names_of_group.
  destruct (commit_group c) as [g|]; [|reflexivity].
  cbn [map concat from_option]. now rewrite map_app.
Qed.

(** X4. The plan is empty exactly when no message of the history holds a
    complete tag; [run_from_git] then returns at once: it calls no
    component and records nothing. *)
Theorem empty_plan_no_run {B : Backend} (self : ScreenshotOrchestrator.t)
    (only : option (list string)) :
  (get_screenshot_commits (commits (ScreenshotOrchestrator.git_manager self)) = []
   <-> Forall (fun c => ~ has_tag (message c))
         (commits (ScreenshotOrchestrator.git_manager self)))
  /\ (Forall (fun c => ~ has_tag (message c))
        (commits (ScreenshotOrchestrator.git_manager self)) ->
      forall st : St B,
        ScreenshotOrchestrator.run_from_git self only st = (Returned tt, st)).
Proof.
  split; [apply plan_nil|].
  intros H st. apply plan_nil in H. unfold ScreenshotOrchestrator.run_from_git.
  now rewrite H.
Qed.

Example empty_names_kept :
  map ScreenshotSpec.name
    (get_all_screenshot_specs [Build_Commit "1a3c5e7f" "[screenshot:home,, about ,]"])
  = ["home"; ""; "about"; ""].
Proof. reflexivity. Qed.

End PlanExtras.

(** ** Sequence prefixes *)

Section Prefixes.

Import ScreenshotOrchestrator.

Lemma append_inj_r (a b c : string) : a ++ c = b ++ c -> a = b.
Proof.
  revert b. induction a as [|x a IH]; intros b H.
  - destruct b as [|y b]; [reflexivity|]. exfalso.
    apply (f_equal String.length) in H. simpl in H.
    rewrite string_length_append in H. lia.
  - destruct b as [|y b].
    + exfalso. apply (f_equal String.length) in H. simpl in H.
      rewrite string_length_append in H. lia.
    + simpl in H. injection H as -> H. f_equal. now apply IH.
Qed.

Lemma append_inj_l (a b c : string) : c ++ a = c ++ b -> a = b.
Proof. induction c as [|x c IH]; simpl; [auto | intros [= H]; auto]. Qed.

Lemma string_of_uint_length (u : Decimal.uint) :
  u <> Decimal.Nil -> (1 <= String.length (NilEmpty.string_of_uint u))%nat.
Proof. destruct u; simpl; try lia. now intros H. Qed.

Lemma format_02d_parse (i : Z) : parse_int (format_02d i) = Some i.
Proof.
  unfold parse_int, format_02d.
  assert (Hd : Z.to_int i <> Decimal.Pos Decimal.Nil /\ Z.to_int i <> Decimal.Neg Decimal.Nil).
  { destruct i as [|q|q]; cbn; split; try discriminate;
      intros [= H]; exact (DecimalPos.Unsigned.to_uint_nonnil _ H). }
  destruct Hd as [Hp Hn].
  destruct (_ <? 2)%nat eqn:Hl.
  - apply Nat.ltb_lt in Hl.
    destruct (Z.to_int i) as [u|u] eqn:E.
    + assert (Hu : u <> Decimal.Nil) by (intros ->; now apply Hp).
      assert (Hs : NilZero.string_of_int (Decimal.Pos u) = NilEmpty.string_of_uint u)
        by (now destruct u).
      rewrite Hs. change ("0" ++ NilEmpty.string_of_uint u)
        with (String "0" (NilEmpty.string_of_uint u)).
      cbn [NilZero.int_of_string NilZero.uint_of_string NilEmpty.uint_of_string].
      rewrite NilEmpty.usu. cbn. f_equal.
      rewrite <- (DecimalZ.of_to i), E. reflexivity.
    + exfalso. assert (Hu : u <> Decimal.Nil) by (intros ->; now apply Hn).
      cbn [NilZero.string_of_int] in Hl.
      assert (Hs : NilZero.string_of_uint u = NilEmpty.string_of_uint u) by (now destruct u).
      rewrite Hs in Hl. pose proof (string_of_uint_length u Hu). simpl in Hl. lia.
  - rewrite NilZero.isi by assumption. cbn. f_equal. apply DecimalZ.of_to.
Qed.

Lemma format_02d_inj (i j : Z) : format_02d i = format_02d j -> i = j.
Proof.
  intros H. apply (f_equal parse_int) in H. rewrite !format_02d_parse in H. congruence.
Qed.

Lemma commit_prefix_inj (i j : Z) : commit_prefix i = commit_prefix j -> i = j.
Proof. unfold commit_prefix. intros H%append_inj_r. now apply format_02d_inj. Qed.

End Prefixes.

Section PrefixExtras.

Import ScreenshotOrchestrator.

Lemma format_02d_length (i : Z) : (2 <= String.length (format_02d i))%nat.
Proof.
  unfold format_02d. destruct (_ <? 2)%nat eqn:Hl.
  - change ("0" ++ ?s) with (String "0" s). cbn [String.length].
    destruct (NilZero.string_of_int (Z.to_int i)) eqn:E; [|simpl; lia].
    exfalso. destruct (Z.to_int i) as [u|u]; [destruct u|]; discriminate.
  - apply Nat.ltb_ge in Hl. exact Hl.
Qed.

(** X5. The sequence prefix of an index is a decimal numeral of at least two
    characters followed by an underscore; read back as an integer the
    numeral is the index, so two different indices never share a prefix. *)
Theorem commit_prefix_round_trip (i : Z) :
  commit_prefix i = format_02d i ++ "_"
  /\ (2 <= String.length (format_02d i))%nat
  /\ parse_int (format_02d i) = Some i
  /\ (forall j, commit_prefix i = commit_prefix j -> i = j).
Proof.
  split; [reflexivity|]. split; [apply format_02d_length|].
  split; [apply format_02d_parse|]. intros j. apply commit_prefix_inj.
Qed.

Lemma prefixes_sorted_check :
  forallb (fun a =>
    forallb (fun b =>
      implb (a <? b)%nat
        (String.ltb (commit_prefix (Z.of_nat a)) (commit_prefix (Z.of_nat b))))
      (seq 1 99))
    (seq 1 99) = true.
Proof. vm_compute. reflexivity. Qed.

(** X6. For indices from 1 to 99 the prefixes sort as the indices do: the
    prefix of the smaller index is the smaller text, so the files of a run
    of at most 99 groups list in chronological order; the bound is tight,
    the prefix of 100 sorting before that of 99. *)
Theorem prefixes_sort_chronologically :
  (forall i j, 1 <= i -> i < j -> j <= 99 ->
     String.ltb (commit_prefix i) (commit_prefix j) = true)
  /\ String.ltb (commit_prefix 100) (commit_prefix 99) = true.
Proof.
  split; [|vm_compute; reflexivity].
  intros i j Hi Hij Hj.
  pose proof prefixes_sorted_check as H.
  rewrite forallb_forall in H.
  specialize (H (Z.to_nat i)). rewrite forallb_forall in H.
  assert (Ha : In (Z.to_nat i) (seq 1 99)) by (apply in_seq; lia).
  assert (Hb : In (Z.to_nat j) (seq 1 99)) by (apply in_seq; lia).
  specialize (H Ha (Z.to_nat j) Hb).
  rewrite !Z2Nat.id in H by lia.
  assert (Hlt : (Z.to_nat i <? Z.to_nat j)%nat = true) by (apply Nat.ltb_lt; lia).
  now rewrite Hlt in H.
Qed.

Lemma to_str_snoc (r : string) (l : list string) (x : string) :
  Path.to_str (Path.mk r (l ++ [x])) = r ++ Str.join "/" (l ++ [x]).
Proof.
  unfold Path.to_str. cbn [Path.root Path.parts].
  destruct (l ++ [x])%list eqn:E; [destruct l; discriminate|]. now destruct r.
Qed.

Lemma join_snoc_inj (sep : string) (l : list string) (x y : string) :
  Str.join sep (l ++ [x]) = Str.join sep (l ++ [y]) -> x = y.
Proof.
  induction l as [|a l IH]; [auto|].
  cbn [app]. destruct (l ++ [x])%list as [|b1 t1] eqn:E1; [destruct l; discriminate|].
  destruct (l ++ [y])%list as [|b2 t2] eqn:E2; [destruct l; discriminate|].
  rewrite !join_cons. intros H%append_inj_l%append_inj_l. now apply IH.
Qed.

Lemma generate_custom_path (config : Config) (spec : ScreenshotSpec.t) (i : Z) (s : string) :
  custom_output config spec = Some (PStr s) -> s <> "" ->
  _generate_output_path config spec (commit_prefix i)
  = Returned (Path.root (Path.parent (Path.parse s))
              ++ Str.join "/" (Path.parts (Path.parent (Path.parse s))
                               ++ [commit_prefix i ++ Path.name (Path.parse s)])).
Proof.
  intros Hc Hs. rewrite (generate_custom _ _ _ _ Hc Hs), stem_suffix.
  unfold Path.truediv. rewrite prefixed_name_single. cbn [Path.root Path.parts].
  now rewrite to_str_snoc.
Qed.

(** X7. For a configuration and a spec, the output paths generated for two
    different indices differ: a path generated for the prefix of [i] and for
    the prefix of [j] forces [i = j]; a later commit never takes the file of
    an earlier one. *)
Theorem output_paths_distinct (config : Config) (spec : ScreenshotSpec.t) (i j : Z)
    (p : string) :
  _generate_output_path config spec (commit_prefix i) = Returned p ->
  _generate_output_path config spec (commit_prefix j) = Returned p ->
  i = j.
Proof.
  intros Hi Hj.
  destruct (custom_output config spec) as [v|] eqn:Ec.
  - destruct (truthy v) eqn:Hv.
    + destruct v as [| | | |s];
        try (rewrite (generate_not_str config spec _ _ Ec Hv) in Hi by discriminate;
             discriminate).
      assert (Hs : s <> "") by (intros ->; discriminate).
      rewrite (generate_custom_path _ _ i _ Ec Hs) in Hi.
      rewrite (generate_custom_path _ _ j _ Ec Hs) in Hj.
      rewrite <- Hj in Hi. injection Hi as Hi.
      apply append_inj_l, join_snoc_inj, append_inj_r in Hi.
      now apply commit_prefix_inj.
    + rewrite generate_default in Hi by (right; eauto).
      rewrite generate_default in Hj by (right; eauto).
      rewrite <- Hj in Hi. injection Hi as Hi. unfold default_path in Hi.
      apply append_inj_l, append_inj_l, append_inj_r in Hi.
      now apply commit_prefix_inj.
  - rewrite generate_default in Hi by (left; exact Ec).
    rewrite generate_default in Hj by (left; exact Ec).
    rewrite <- Hj in Hi. injection Hi as Hi. unfold default_path in Hi.
    apply append_inj_l, append_inj_l, append_inj_r in Hi.
    now apply commit_prefix_inj.
Qed.

(** X7 at work: the custom path of [home] in the first group. *)
Lemma output_paths_distinct_witness :
  _generate_output_path Scripted.custom_config
    (ScreenshotSpec.new "home" "1a3c5e7f9b2d4f6a" "[screenshot:home]" "[screenshot:home]")
    (commit_prefix 1) = Returned "custom/01_h.png"
  /\ 1 = 1.
Proof.
  split; [vm_compute; reflexivity|].
  apply (output_paths_distinct Scripted.custom_config
    (ScreenshotSpec.new "home" "1a3c5e7f9b2d4f6a" "[screenshot:home]" "[screenshot:home]")
    1 1 "custom/01_h.png"); vm_compute; reflexivity.
Defined.

End PrefixExtras.

(** ** Entries of the results *)

Section EntryInvariant.

Context {B : Backend}.

Import ScreenshotOrchestrator.

(** A property every entry built by the run has. *)
Variable P : RunResult -> Prop.
Hypothesis P_success : forall g prefix spec path, P (success_entry g prefix spec path).
Hypothesis P_error : forall g prefix spec e, P (error_entry g prefix spec e).
Hypothesis P_checkout : forall g prefix spec e, P (checkout_failed_entry g prefix spec e).

Let all_P (st : St B) : Prop := Forall P (results st).

Lemma all_P_lift {A} (op : World B -> outcome A * World B) : keeps all_P (lift op).
Proof. apply keeps_lift. intros st w H. exact H. Qed.

Lemma all_P_record (c : Call) : keeps all_P (record_call c).
Proof. intros st H. exact H. Qed.

Lemma all_P_set_process (b : bool) : keeps all_P (set_process b).
Proof. intros st H. exact H. Qed.

Lemma all_P_append (r : RunResult) : P r -> keeps all_P (append_result r).
Proof.
  intros Hr st H. unfold all_P in *. cbn. apply Forall_app. split; [exact H | now constructor].
Qed.

Lemma all_P_start : keeps all_P (SymfonyServer.start (B := B)).
Proof.
  apply keeps_bind; [apply keeps_get_process|]. intros [|]; [apply keeps_ret|].
  apply keeps_bind; [apply all_P_lift | intros _; apply all_P_set_process].
Qed.

Lemma all_P_stop : keeps all_P (SymfonyServer.stop (B := B)).
Proof.
  apply keeps_bind; [apply keeps_get_process|]. intros [|]; [|apply keeps_ret].
  apply keeps_bind; [apply all_P_lift | intros _; apply all_P_set_process].
Qed.

Lemma all_P_take_screenshot (self : t) (g : CommitScreenshots.t) (prefix : string)
    (spec : ScreenshotSpec.t) :
  keeps all_P (take_screenshot self g prefix spec).
Proof.
  apply keeps_try_except.
  - apply keeps_bind; [apply keeps_pure|]. intros output.
    apply keeps_bind; [apply all_P_record|]. intros _.
    apply keeps_bind; [apply all_P_lift|]. intros path.
    apply all_P_append, P_success.
  - intros e. apply all_P_append, P_error.
Qed.

Lemma all_P_process_group (self : t) (only : option (list string)) (g : CommitScreenshots.t) :
  keeps all_P (process_group self only g).
Proof.
  unfold process_group. destruct (screenshots_to_take only g) as [|x l]; [apply keeps_ret|].
  apply keeps_try_except.
  - apply keeps_bind; [apply all_P_record|]. intros _.
    apply keeps_bind; [apply all_P_lift|]. intros _.
    apply keeps_bind; [apply all_P_record|]. intros _.
    apply keeps_bind; [apply all_P_lift|]. intros _.
    apply keeps_bind; [apply all_P_record|]. intros _.
    apply keeps_bind.
    { apply keeps_bind; [apply all_P_stop | intros _; apply all_P_start]. }
    intros _. apply keeps_for_each. intros spec. apply all_P_take_screenshot.
  - intros e. apply keeps_for_each. intros spec. apply all_P_append, P_checkout.
Qed.

Lemma all_P_guarded_run (self : t) (args : Args) : keeps all_P (guarded_run self args).
Proof.
  apply keeps_try_finally.
  - apply keeps_bind.
    + apply keeps_bind; [apply all_P_record|]. intros _.
      apply keeps_bind; [apply all_P_lift|]. intros _.
      apply keeps_bind; [apply all_P_record | intros _; apply all_P_start].
    + intros _. unfold run_from_git.
      destruct (GitProjectManager.get_screenshot_commits _); [apply keeps_ret|].
      apply keeps_for_each. intros g. apply all_P_process_group.
  - apply keeps_bind; [apply all_P_record|]. intros _.
    apply keeps_bind; [apply all_P_lift|]. intros _.
    apply keeps_bind; [apply all_P_record|]. intros _.
    apply keeps_bind; [apply all_P_stop|]. intros _.
    apply keeps_bind; [apply all_P_record | intros _; apply all_P_lift].
Qed.

Lemma all_P_main (env : Env) (args : Args) (w : World B) :
  Forall P (results (snd (main env args w))).
Proof.
  unfold main. destruct (negb _); [constructor|].
  destruct (make_orchestrator env args) as [o|e]; [|constructor].
  destruct (list_arg args); [constructor|].
  pose proof (all_P_guarded_run o args (initial B w) (List.Forall_nil _)) as H.
  destruct (guarded_run o args (initial B w)) as [[u|e] st]; exact H.
Qed.

End EntryInvariant.

(** X8. Every entry of the results of [main], whatever failed, is coherent:
    an entry of status success has a path and no error text, an entry of
    status error has an error text and no path. *)
Theorem results_coherent {B : Backend} (env : Env) (args : Args) (w : World B) :
  Forall coherent (results (snd (main env args w))).
Proof.
  apply all_P_main; intros; unfold coherent; cbn; eauto.
Qed.

(** ** What a run records *)

Section RunRecords.

Context {B : Backend}.

Import ScreenshotOrchestrator.

Lemma checkouts_app (l1 l2 : list Call) :
  checkouts (l1 ++ l2)%list = (checkouts l1 ++ checkouts l2)%list.
Proof. unfold checkouts. apply flat_map_app. Qed.

Lemma calm_ret : calm (ret (B := B) tt).
Proof. intros st. exists st. auto. Qed.

Lemma calm_record (c : Call) : checkouts [c] = [] -> calm (record_call (B := B) c).
Proof.
  intros Hc st. eexists. split; [|split; [|left; reflexivity]]; [reflexivity|].
  cbn [log]. now rewrite checkouts_app, Hc, app_nil_r.
Qed.

Lemma calm_set_process (b : bool) : calm (set_process (B := B) b).
Proof. intros st. eexists. split; [|split; [|left; reflexivity]]; reflexivity. Qed.

Lemma calm_lift (op : World B -> outcome unit * World B) :
  (forall w m, fst (op w) <> Raised (BaseException m)) -> calm (lift op).
Proof.
  intros H st. unfold lift. specialize (H (world st)).
  destruct (op (world st)) as [[[]|[m|m]] w].
  - eexists. split; [|split; [|left; reflexivity]]; reflexivity.
  - eexists. split; [|split; [|right; eexists; reflexivity]]; reflexivity.
  - exfalso. exact (H m eq_refl).
Qed.

Lemma calm_bind (m k : M B unit) : calm m -> calm k -> calm (m ;; k).
Proof.
  intros Hm Hk st. unfold bind.
  destruct (Hm st) as (st1 & R1 & C1 & [E1 | [msg E1]]); rewrite E1.
  - destruct (Hk st1) as (st2 & R2 & C2 & E2). exists st2.
    split; [congruence|]. split; [congruence | exact E2].
  - exists st1. split; [exact R1|]. split; [exact C1 | right; eauto].
Qed.

Lemma calm_get_process (k : bool -> M B unit) :
  (forall b, calm (k b)) -> calm (bind get_process k).
Proof. intros H st. exact (H (process st) st). Qed.

Lemma calm_restart : raises_only_exceptions B -> calm (SymfonyServer.restart (B := B)).
Proof.
  intros (_ & Hpopen & Hterm & _). apply calm_bind.
  - apply calm_get_process. intros [|]; [|apply calm_ret].
    apply calm_bind; [now apply calm_lift | apply calm_set_process].
  - apply calm_get_process. intros [|]; [apply calm_ret|].
    apply calm_bind; [now apply calm_lift | apply calm_set_process].
Qed.

Lemma try_except_calm (q rest : M B unit) (handler : string -> M B unit) (st : St B)
    (Q : outcome unit * St B -> Prop) :
  calm q ->
  (forall st', results st' = results st -> checkouts (log st') = checkouts (log st) ->
     Q (try_except rest handler st')) ->
  (forall msg st', results st' = results st -> checkouts (log st') = checkouts (log st) ->
     Q (handler msg st')) ->
  Q (try_except (q ;; rest) handler st).
Proof.
  intros Hq Hrest Hh. unfold try_except at 1, bind at 1.
  destruct (Hq st) as (st1 & R1 & C1 & [E1 | [msg E1]]); rewrite E1.
  - specialize (Hrest st1 R1 C1). unfold try_except in Hrest.
    destruct (rest st1) as [[u|[m|m]] st2]; exact Hrest.
  - now apply Hh.
Qed.

Lemma take_screenshot_key (self : t) (g : CommitScreenshots.t) (spec : ScreenshotSpec.t)
    (st : St B) :
  (forall s base w m, fst (browser_capture B s base w) <> Raised (BaseException m)) ->
  exists r st',
    take_screenshot self g (commit_prefix (CommitScreenshots.index g)) spec st
    = (Returned tt, st')
    /\ results st' = (results st ++ [r])%list
    /\ entry_key r = planned_key g spec
    /\ checkouts (log st') = checkouts (log st).
Proof.
  intros Hcap. unfold take_screenshot, try_except, bind, pure, record_call, lift, append_result.
  destruct (_generate_output_path (config self) (_apply_screenshot_config (config self) spec) _)
    as [out|[m|m]] eqn:Eg.
  - cbn [world process log results].
    match goal with |- context [browser_capture B ?s ?b ?w] =>
      pose proof (Hcap s b w) as Hc; destruct (browser_capture B s b w) as [[path|[m|m]] w'] end.
    + eexists _, _. split; [reflexivity|]. split; [reflexivity|]. split.
      * unfold entry_key, planned_key. cbn. now rewrite apply_config_name.
      * cbn [log]. now rewrite checkouts_app, app_nil_r.
    + eexists _, _. split; [reflexivity|]. split; [reflexivity|]. split; [reflexivity|].
      cbn [log]. now rewrite checkouts_app, app_nil_r.
    + exfalso. exact (Hc m eq_refl).
  - eexists _, _. split; [reflexivity|]. split; [reflexivity|]. split; reflexivity.
  - exfalso. exact (generate_not_base _ _ _ _ Eg).
Qed.

Lemma for_each_take_keys (self : t) (g : CommitScreenshots.t)
    (specs : list ScreenshotSpec.t) (st : St B) :
  (forall s base w m, fst (browser_capture B s base w) <> Raised (BaseException m)) ->
  exists l st',
    for_each specs (take_screenshot self g (commit_prefix (CommitScreenshots.index g))) st
    = (Returned tt, st')
    /\ results st' = (results st ++ l)%list
    /\ map entry_key l = map (planned_key g) specs
    /\ checkouts (log st') = checkouts (log st).
Proof.
  intros Hcap. revert st. induction specs as [|spec specs IH]; intros st.
  - exists [], st. split; [reflexivity|]. split; [now rewrite app_nil_r | auto].
  - destruct (take_screenshot_key self g spec st Hcap) as (r & st1 & E1 & R1 & K1 & C1).
    destruct (IH st1) as (l & st2 & E2 & R2 & K2 & C2).
    exists (r :: l), st2. cbn [for_each]. unfold bind. rewrite E1, E2.
    split; [reflexivity|]. split; [|split].
    + rewrite R2, R1, <- app_assoc. reflexivity.
    + cbn. now rewrite K1, K2.
    + congruence.
Qed.

Lemma process_group_keys (self : t) (only : option (list string))
    (g : CommitScreenshots.t) (st : St B) :
  raises_only_exceptions B ->
  exists l st',
    process_group self only g st = (Returned tt, st')
    /\ results st' = (results st ++ l)%list
    /\ map entry_key l = map (planned_key g) (screenshots_to_take only g)
    /\ checkouts (log st') = (checkouts (log st) ++ group_checkout only g)%list.
Proof.
  intros Hwb. pose proof Hwb as (Hco & Hpopen & Hterm & Hrm & _ & Hcap & _).
  unfold process_group, group_checkout.
  destruct (screenshots_to_take only g) as [|x to_take].
  { exists [], st. split; [reflexivity|]. now rewrite !app_nil_r. }
  set (specs := x :: to_take). clearbody specs.
  set (sha := CommitScreenshots.commit_sha g).
  assert (Hh : forall msg (st' : St B),
            results st' = results st ->
            checkouts (log st') = (checkouts (log st) ++ [sha])%list ->
            exists l st'',
              for_each specs
                (fun spec => append_result
                   (checkout_failed_entry g (commit_prefix (CommitScreenshots.index g)) spec msg)) st'
              = (Returned tt, st'')
              /\ results st'' = (results st ++ l)%list
              /\ map entry_key l = map (planned_key g) specs
              /\ checkouts (log st'') = (checkouts (log st) ++ [sha])%list).
  { intros msg st' R C. rewrite for_each_append. eexists _, _.
    split; [reflexivity|]. split; [cbn; now rewrite R|]. split; [|exact C].
    rewrite map_map. reflexivity. }
  (* the call of the checkout is the one step that adds to the checkouts *)
  unfold try_except at 1, bind at 1, record_call at 1.
  match goal with |- context [try_except ?body ?h] => idtac | _ => idtac end.
  set (st0 := {| world := world st; process := process st;
                 log := (log st ++ [checkout_commit_call sha])%list;
                 results := results st |}).
  assert (C0 : checkouts (log st0) = (checkouts (log st) ++ [sha])%list)
    by (subst st0; cbn [log]; now rewrite checkouts_app).
  assert (R0 : results st0 = results st) by reflexivity.
  clearbody st0.
  match goal with |- exists l st', match ?body st0 with _ => _ end = _ /\ _ =>
    change (exists l st', try_except body
              (fun e => for_each specs (fun spec => append_result
                 (checkout_failed_entry g (commit_prefix (CommitScreenshots.index g)) spec e)))
              st0 = (Returned tt, st') /\ results st' = (results st ++ l)%list
              /\ map entry_key l = map (planned_key g) specs
              /\ checkouts (log st') = (checkouts (log st) ++ [sha])%list)
  end.
  apply try_except_calm;
    [apply calm_lift; apply Hco | | intros msg st' R C; apply Hh; congruence].
  intros st2 R2 C2.
  apply try_except_calm;
    [now apply calm_record | | intros msg st' R C; apply Hh; congruence].
  intros st3 R3 C3.
  apply try_except_calm;
    [apply calm_lift; apply Hrm | | intros msg st' R C; apply Hh; congruence].
  intros st4 R4 C4.
  apply try_except_calm;
    [now apply calm_record | | intros msg st' R C; apply Hh; congruence].
  intros st5 R5 C5.
  apply try_except_calm;
    [now apply calm_restart | | intros msg st' R C; apply Hh; congruence].
  intros st6 R6 C6.
  destruct (for_each_take_keys self g specs st6 Hcap) as (l & st7 & E & R & K & C).
  unfold try_except. rewrite E. exists l, st7.
  split; [reflexivity|]. split; [congruence|]. split; [exact K | congruence].
Qed.

Lemma groups_keys (self : t) (only : option (list string))
    (groups : list CommitScreenshots.t) (st : St B) :
  raises_only_exceptions B ->
  exists l st',
    for_each groups (process_group self only) st = (Returned tt, st')
    /\ results st' = (results st ++ l)%list
    /\ map entry_key l
       = flat_map (fun g => map (planned_key g) (screenshots_to_take only g)) groups
    /\ checkouts (log st') = (checkouts (log st) ++ flat_map (group_checkout only) groups)%list.
Proof.
  intros Hwb. revert st. induction groups as [|g groups IH]; intros st.
  - exists [], st. split; [reflexivity|]. now rewrite !app_nil_r.
  - destruct (process_group_keys self only g st Hwb) as (l1 & st1 & E1 & R1 & K1 & C1).
    destruct (IH st1) as (l2 & st2 & E2 & R2 & K2 & C2).
    exists (l1 ++ l2)%list, st2. cbn [for_each flat_map]. unfold bind. rewrite E1, E2.
    split; [reflexivity|]. split; [|split].
    + rewrite R2, R1, <- app_assoc. reflexivity.
    + rewrite map_app, K1, K2. reflexivity.
    + rewrite C2, C1, <- app_assoc. reflexivity.
Qed.

Lemma run_from_git_keys (self : t) (only : option (list string)) (st : St B) :
  raises_only_exceptions B ->
  exists l st',
    run_from_git self only st = (Returned tt, st')
    /\ results st' = (results st ++ l)%list
    /\ map entry_key l
       = flat_map (fun g => map (planned_key g) (screenshots_to_take only g))
           (GitProjectManager.get_screenshot_commits
              (GitProjectManager.commits (git_manager self)))
    /\ checkouts (log st')
       = (checkouts (log st)
          ++ flat_map (group_checkout only)
               (GitProjectManager.get_screenshot_commits
                  (GitProjectManager.commits (git_manager self))))%list.
Proof.
  intros Hwb. unfold run_from_git.
  destruct (GitProjectManager.get_screenshot_commits _) as [|g groups] eqn:E.
  - exists [], st. split; [reflexivity|]. now rewrite !app_nil_r.
  - now apply groups_keys.
Qed.

End RunRecords.

Section RunExtras.

Import ScreenshotOrchestrator.



(** X9. When the backend raises nothing but [Exception]s, [run_from_git]
    returns, and the entries it adds are, in the order of the plan, one for
    each capture each group had to take, each with the name of the capture,
    the file name [{prefix}{name}.png], the first eight characters of the
    hash and the index of its group; without [--only] their names are those
    of the flat list of captures. *)
Theorem run_records_plan {B : Backend} (self : t) (only : option (list string)) (st : St B) :
  raises_only_exceptions B ->
  exists l st',
    run_from_git self only st = (Returned tt, st')
    /\ results st' = (results st ++ l)%list
    /\ map entry_key l
       = flat_map (fun g => map (planned_key g) (screenshots_to_take only g))
           (GitProjectManager.get_screenshot_commits
              (GitProjectManager.commits (git_manager self)))
    /\ (only = None ->
        map r_name l
        = map ScreenshotSpec.name
            (GitProjectManager.get_all_screenshot_specs
               (GitProjectManager.commits (git_manager self)))).
Proof.
  intros Hwb. destruct (run_from_git_keys self only st Hwb) as (l & st' & E & R & K & _).
  exists l, st'. split; [exact E|]. split; [exact R|]. split; [exact K|].
  intros ->. unfold GitProjectManager.get_all_screenshot_specs.
  assert (Hn : map r_name l = map (fun k => fst (fst (fst k))) (map entry_key l))
    by (rewrite map_map; reflexivity).
  rewrite Hn, K. clear.
  induction (GitProjectManager.get_screenshot_commits _) as [|g groups IH]; [reflexivity|].
  cbn [flat_map map concat]. rewrite !map_app, IH. f_equal.
  rewrite map_map. reflexivity.
Qed.

(** X9 at work: on the example history, with the checkout of the first
    commit and the capture of [about] failing, the run returns with the
    three planned entries. *)
Lemma run_records_plan_witness :
  fst (run_from_git (B := Scripted.backend Scripted.mixed_faults)
         (Scripted.orchestrator empty_config) None
         (initial (Scripted.backend Scripted.mixed_faults) 0%nat)) = Returned tt
  /\ map (fun r => (entry_key r, r_status r))
       (results (snd (run_from_git (B := Scripted.backend Scripted.mixed_faults)
                        (Scripted.orchestrator empty_config) None
                        (initial (Scripted.backend Scripted.mixed_faults) 0%nat))))
     = [ (("home", "01_home.png", "1a3c5e7f", 1), error);
         (("home", "02_home.png", "b2c4e6a8", 2), success);
         (("about", "02_about.png", "b2c4e6a8", 2), error) ].
Proof.
  destruct (run_records_plan (B := Scripted.backend Scripted.mixed_faults)
              (Scripted.orchestrator empty_config) None
              (initial (Scripted.backend Scripted.mixed_faults) 0%nat)
              (scripted_only_exceptions Scripted.mixed_faults))
    as (l & st' & E & _).
  split; [now rewrite E | vm_compute; reflexivity].
Defined.


(** X11. When the backend raises nothing but [Exception]s, the commits
    checked out during [run_from_git] are exactly the commits of the groups
    that have a capture to take, each once, in the order of the plan:
    one checkout per group, none per capture, none for a group passed
    over. *)
Theorem one_checkout_per_group {B : Backend} (self : t) (only : option (list string))
    (st : St B) :
  raises_only_exceptions B ->
  checkouts (log (snd (run_from_git self only st)))
  = (checkouts (log st)
     ++ flat_map (group_checkout only)
          (GitProjectManager.get_screenshot_commits
             (GitProjectManager.commits (git_manager self))))%list.
Proof.
  intros Hwb. destruct (run_from_git_keys self only st Hwb) as (l & st' & E & _ & _ & C).
  now rewrite E.
Qed.

(** X11 at work: with [--only about] on the example history, the second
    commit alone is checked out, though its capture fails. *)
Lemma one_checkout_per_group_witness :
  checkouts (log (snd (run_from_git (B := Scripted.backend Scripted.mixed_faults)
                         (Scripted.orchestrator empty_config) (Some ["about"])
                         (initial (Scripted.backend Scripted.mixed_faults) 0%nat))))
  = ["b2c4e6a8d0f1a3b5"].
Proof.
  rewrite (one_checkout_per_group (B := Scripted.backend Scripted.mixed_faults)
             (Scripted.orchestrator empty_config) (Some ["about"])
             (initial (Scripted.backend Scripted.mixed_faults) 0%nat)
             (scripted_only_exceptions Scripted.mixed_faults)).
  reflexivity.
Defined.

End RunExtras.

(** ** The server, and the run as a whole *)

Section Lifecycle.

Context {B : Backend}.

Import ScreenshotOrchestrator.

Lemma start_running (st : St B) :
  process st = true -> SymfonyServer.start st = (Returned tt, st).
Proof. intros H. unfold SymfonyServer.start, bind, get_process. now rewrite H. Qed.

Lemma stop_stopped (st : St B) :
  process st = false -> SymfonyServer.stop st = (Returned tt, st).
Proof. intros H. unfold SymfonyServer.stop, bind, get_process. now rewrite H. Qed.

Lemma start_returned (st st' : St B) :
  SymfonyServer.start st = (Returned tt, st') -> process st' = true.
Proof.
  unfold SymfonyServer.start, bind, get_process, lift, set_process, ret.
  destruct (process st) eqn:Ep.
  - now intros [= <-].
  - destruct (popen_server B (world st)) as [[[]|e] w]; [|discriminate].
    now intros [= <-].
Qed.

Lemma stop_outcome (st : St B) (r : outcome unit) (st' : St B) :
  SymfonyServer.stop st = (r, st') ->
  match r with Returned _ => process st' = false | Raised _ => process st' = true end.
Proof.
  unfold SymfonyServer.stop, bind, get_process, lift, set_process, ret.
  destruct (process st) eqn:Ep.
  - destruct (terminate_server B (world st)) as [[[]|e] w]; now intros [= <- <-].
  - now intros [= <- <-].
Qed.

(** Teardown when its three release steps return: it returns, having made
    the three calls, with the server stopped and the results untouched. *)
Lemma teardown_returns (self : t) (st : St B) :
  releases_return B (git_manager self) ->
  exists st',
    teardown self st = (Returned tt, st')
    /\ results st' = results st
    /\ process st' = false
    /\ log st' = (log st ++ [browser_stop_call; server_stop_call; restore_original_call])%list.
Proof.
  intros (Hb & Ht & Hg).
  unfold teardown, GitProjectManager.restore_original, SymfonyServer.stop.
  unfold bind, record_call, lift, get_process, set_process, ret.
  cbn [world process log results].
  destruct (Hb (world st)) as [w1 E1]. rewrite E1. cbn [world process log results].
  destruct (process st) eqn:Ep; cbn [world process log results].
  - destruct (Ht w1) as [w2 E2]. rewrite E2. cbn [world process log results].
    destruct (Hg w2) as [w3 E3]. rewrite E3. eexists. split; [reflexivity|].
    cbn [world process log results]. repeat split. now rewrite <- !app_assoc.
  - destruct (Hg w1) as [w3 E3]. rewrite E3. eexists. split; [reflexivity|].
    cbn [world process log results]. repeat split. now rewrite <- !app_assoc.
Qed.

End Lifecycle.

Section LifecycleExtras.

Import ScreenshotOrchestrator.

(** X12. The server object: [start] on a running server and [stop] on a
    stopped one do nothing, so starting twice spawns one process and
    stopping twice terminates once; after [start] or [restart] returned the
    server runs, after [stop] returned it does not; and when the
    termination raises, [stop] keeps the process handle, so that [restart]
    then raises without spawning a second process. *)
Theorem server_lifecycle {B : Backend} (st : St B) :
  (process st = true -> SymfonyServer.start st = (Returned tt, st))
  /\ (process st = false -> SymfonyServer.stop st = (Returned tt, st))
  /\ (SymfonyServer.start ;; SymfonyServer.start) st = SymfonyServer.start st
  /\ (SymfonyServer.stop ;; SymfonyServer.stop) st = SymfonyServer.stop st
  /\ (forall st', SymfonyServer.start st = (Returned tt, st') -> process st' = true)
  /\ (forall st', SymfonyServer.stop st = (Returned tt, st') -> process st' = false)
  /\ (forall st', SymfonyServer.restart st = (Returned tt, st') -> process st' = true)
  /\ (forall e w,
        process st = true -> terminate_server B (world st) = (Raised e, w) ->
        SymfonyServer.restart st
        = (Raised e, {| world := w; process := true; log := log st; results := results st |})).
Proof.
  split; [apply start_running|]. split; [apply stop_stopped|].
  split; [|split; [|split; [|split; [|split]]]].
  - unfold bind at 1. destruct (SymfonyServer.start st) as [[[]|e] st1] eqn:E; [|reflexivity].
    apply start_running. exact (start_returned _ _ E).
  - unfold bind at 1. destruct (SymfonyServer.stop st) as [[[]|e] st1] eqn:E; [|reflexivity].
    apply stop_stopped. exact (stop_outcome _ _ _ E).
  - apply start_returned.
  - intros st' E. exact (stop_outcome _ _ _ E).
  - unfold SymfonyServer.restart, bind at 1. intros st'.
    destruct (SymfonyServer.stop st) as [[[]|e] st1]; [|discriminate].
    apply start_returned.
  - intros e w Hp He.
    unfold SymfonyServer.restart, SymfonyServer.stop, bind, get_process, lift.
    rewrite Hp, He. now rewrite Hp.
Qed.

(** X13. A run ends well whatever the commits and the captures do: with
    the project present, the orchestrator built, no [--list], a backend that
    raises nothing but [Exception]s, a setup that returns and release steps
    that return, [main] reaches its end; the results hold one entry per
    planned capture, in the order of the plan; the server is stopped, and
    the restore of the original branch is the last call, made once. *)
Theorem main_completes {B : Backend} (env : Env) (args : Args) (w w1 w2 : World B)
    (self : t) :
  path_exists env (project_path args) = true ->
  make_orchestrator env args = Returned self ->
  list_arg args = false ->
  raises_only_exceptions B ->
  browser_start B (negb (no_headless args)) w = (Returned tt, w1) ->
  popen_server B w1 = (Returned tt, w2) ->
  releases_return B (git_manager self) ->
  exists st,
    main env args w = (Done, [], st)
    /\ map entry_key (results st)
       = flat_map (fun g => map (planned_key g) (screenshots_to_take (only_arg args) g))
           (GitProjectManager.get_screenshot_commits
              (GitProjectManager.commits (git_manager self)))
    /\ process st = false
    /\ restores (log st) = 1%nat
    /\ last (log st) = Some restore_original_call.
Proof.
  intros Hp Ho Hl Hwb Hs Hpo Hrel.
  pose proof (body_never_restores self args w) as Hnr.
  unfold main. rewrite Hp, Ho, Hl. cbn [negb].
  unfold guarded_run, try_finally.
  set (body := (setup (negb (no_headless args)) ;; run_from_git self (only_arg args))) in *.
  assert (Hbody : exists l st2,
            body (initial B w) = (Returned tt, st2) /\ results st2 = l
            /\ map entry_key l
               = flat_map (fun g => map (planned_key g) (screenshots_to_take (only_arg args) g))
                   (GitProjectManager.get_screenshot_commits
                      (GitProjectManager.commits (git_manager self)))).
  { subst body. unfold setup, SymfonyServer.start.
    unfold bind at 1 2 3 4 5 6, record_call, lift, get_process, set_process, initial.
    cbn [world process log results]. rewrite Hs. cbn [world process log results].
    rewrite Hpo. cbn [world process log results].
    match goal with |- context [run_from_git self ?o ?s] =>
      destruct (run_from_git_keys self o s Hwb) as (l & st2 & E & R & K & _) end.
    rewrite E. exists l, st2. split; [reflexivity|]. split; [exact R | exact K]. }
  destruct Hbody as (l & st2 & E & R & K). rewrite E in *. cbn [snd] in Hnr.
  destruct (teardown_returns self st2 Hrel) as (st3 & E3 & R3 & P3 & L3).
  rewrite E3. exists st3. split; [reflexivity|].
  split; [now rewrite R3, R|]. split; [exact P3|].
  rewrite L3. split.
  - rewrite restores_app, Hnr. reflexivity.
  - change [browser_stop_call; server_stop_call; restore_original_call]
      with ([browser_stop_call; server_stop_call] ++ [restore_original_call])%list.
    rewrite app_assoc. apply last_snoc.
Qed.

(** X13 at work: on the example history, with the checkout of the first
    commit and the capture of [about] failing, [main] reaches its end with
    the three entries of the plan. *)
Lemma main_completes_witness :
  exists st,
    main (B := Scripted.backend Scripted.mixed_faults) (Scripted.env true) Scripted.args 0%nat
    = (Done, [], st)
    /\ map (fun r => (r_filename r, r_status r)) (results st)
       = [("01_home.png", error); ("02_home.png", success); ("02_about.png", error)].
Proof.
  destruct (main_completes (B := Scripted.backend Scripted.mixed_faults)
              (Scripted.env true) Scripted.args 0%nat 1%nat 2%nat
              (Scripted.orchestrator empty_config)
              eq_refl eq_refl eq_refl (scripted_only_exceptions Scripted.mixed_faults)
              eq_refl eq_refl
              (conj (fun w => ex_intro _ (S w) eq_refl)
                 (conj (fun w => ex_intro _ (S w) eq_refl)
                       (fun w => ex_intro _ (S w) eq_refl))))
    as (st & E & _).
  exists st. split; [exact E|].
  assert (Hst : st = snd (main (B := Scripted.backend Scripted.mixed_faults)
                            (Scripted.env true) Scripted.args 0%nat)) by now rewrite E.
  rewrite Hst. vm_compute. reflexivity.
Defined.



End LifecycleExtras.

(** ** The browser, call by call *)

Section CaptureFacts.

Import BrowserCapture.

Context {G : Engine}.

Lemma call_run (op : Op) (st : BSt G) :
  call op st
  = (fst (perform G op (machine st)),
     {| machine := snd (perform G op (machine st)); self := self st;
        ops := (ops st ++ [op])%list |}).
Proof. unfold call. now destruct (perform G op (machine st)). Qed.

(** The outcome of a capture and the calls it made. *)
Lemma capture_outcome (spec : ScreenshotSpec.t) (base_url : string)
    (st : BSt G) :
  match capture spec base_url st with
  | (Returned path, st') =>
      exists u s t,
        ScreenshotSpec.url spec = PStr u
        /\ ScreenshotSpec.output_path spec = PStr s
        /\ path = Path.to_str (Path.parse s)
        /\ self st' = self st
        /\ ops st'
           = (ops st ++ capture_calls spec (address u base_url) (Path.parse s) t
                          (title_bar_renderer (self st)))%list
  | (Raised e, st') =>
      self st' = self st
      /\ exists calls,
           ops st' = (ops st ++ calls)%list
           /\ (In page_close calls ->
               last calls = Some page_close
               \/ (exists m, e = BaseException m)
               \/ title_bar_renderer (self st) = None)
  end.
Proof.
  unfold capture, capture_calls, resolve_url, output_path_of, address.
  unfold and_then at 1, attr at 1. destruct (context (self st)).
  2:{ cbn. split; [reflexivity|]. exists []. split; [now rewrite app_nil_r | intros []]. }
  unfold and_then at 1. rewrite call_run.
  destruct (perform _ context_new_page (machine st)) as [[[]|e] m1]; cbn [fst snd].
  2:{ split; [reflexivity|]. eexists. split; [reflexivity|]. cbn. intuition discriminate. }
  unfold and_then at 1. rewrite call_run. cbn [machine self ops].
  destruct (perform _ (page_set_viewport_size _ _) m1) as [[[]|e] m2]; cbn [fst snd].
  2:{ split; [reflexivity|]. eexists. split; [now rewrite <- !app_assoc|]. cbn.
      intuition discriminate. }
  unfold and_then at 1, value at 1.
  destruct (ScreenshotSpec.url spec) as [|b|z|q|u];
    try (split; [reflexivity|]; eexists; split; [now rewrite <- !app_assoc|]; cbn;
         intuition discriminate).
  set (url := match Str.strip_prefix "http" u with Some _ => u | None => (base_url ++ u)%string end).
  unfold and_then at 1, except_Exception at 1. rewrite call_run. cbn [machine self ops].
  destruct (perform _ (page_goto url) m2) as [[[]|[msg|msg]] m3]; cbn [fst snd].
  3:{ split; [reflexivity|]. eexists. split; [now rewrite <- !app_assoc|]. cbn.
      intuition discriminate. }
  all: unfold and_then at 1.
  all: destruct (truthy (ScreenshotSpec.wait_for spec)).
  all: unfold except_all, done; try rewrite call_run; cbn [machine self ops fst snd].
  all: try match goal with |- context [perform _ (page_wait_for_selector ?x) ?m] =>
         destruct (perform _ (page_wait_for_selector x) m) as [[[]|ew] m4] end;
       cbn [fst snd].
  all: unfold and_then at 1; rewrite call_run; cbn [machine self ops].
  all: match goal with |- context [perform _ (time_sleep ?x) ?m] =>
         destruct (perform _ (time_sleep x) m) as [[[]|e] m5] end; cbn [fst snd].
  all: try (split; [reflexivity|]; eexists; split; [now rewrite <- !app_assoc|]; cbn;
            intuition discriminate).
  all: unfold and_then at 1, title at 1; cbn [machine self ops].
  all: match goal with |- context [page_title _ ?m] =>
         destruct (page_title _ m) as [[t|e] m6] end.
  all: try (split; [reflexivity|]; eexists; split; [now rewrite <- !app_assoc|]; cbn;
            intuition discriminate).
  all: unfold and_then at 1, value at 1.
  all: destruct (ScreenshotSpec.output_path spec) as [|b|z|q|s];
    try (split; [reflexivity|]; eexists; split; [now rewrite <- !app_assoc|]; cbn;
         intuition discriminate).
  all: unfold and_then at 1; rewrite call_run; cbn [machine self ops].
  all: match goal with |- context [perform _ (mkdir ?x) ?m] =>
         destruct (perform _ (mkdir x) m) as [[[]|e] m7] end; cbn [fst snd].
  all: try (split; [reflexivity|]; eexists; split; [now rewrite <- !app_assoc|]; cbn;
            intuition discriminate).
  all: unfold and_then at 1; rewrite call_run; cbn [machine self ops].
  all: match goal with |- context [perform _ (page_screenshot ?x ?y) ?m] =>
         destruct (perform _ (page_screenshot x y) m) as [[[]|e] m8] end; cbn [fst snd].
  all: try (split; [reflexivity|]; eexists; split; [now rewrite <- !app_assoc|]; cbn;
            intuition discriminate).
  all: unfold and_then at 1; rewrite call_run; cbn [machine self ops].
  all: match goal with |- context [perform _ page_close ?m] =>
         destruct (perform _ page_close m) as [[[]|e] m9] end; cbn [fst snd].
  all: try (split; [reflexivity|]; eexists; split; [now rewrite <- !app_assoc|]; cbn;
            intuition discriminate).
  all: unfold and_then at 1.
  all: destruct (truthy (ScreenshotSpec.show_title_bar spec)).
  all: unfold and_then, attr, done, fail, except_Exception; cbn [machine self ops].
  all: destruct (title_bar_renderer (self st)) as [[|]|];
    try rewrite call_run; cbn [machine self ops fst snd].
  all: try match goal with |- context [perform _ (add_title_bar ?a ?b ?c ?d) ?m] =>
         destruct (perform _ (add_title_bar a b c d) m) as [[[]|[msg'|msg']] m10] end;
       cbn [fst snd].
  all: try (exists u, s, t; split; [reflexivity|]; split; [reflexivity|];
            split; [reflexivity|]; split; [reflexivity|];
            cbn [app]; now rewrite <- ?app_assoc).
  all: split; [reflexivity|]; eexists; (split; [now rewrite <- !app_assoc|]); eauto.
Qed.

End CaptureFacts.

Section CaptureExtras.

Import BrowserCapture.


(** X16. A capture survives its optional steps.  On a started browser,
    for a spec whose address and output path are texts, when the calls the
    capture cannot do without (new page, viewport, sleep, directory,
    screenshot, close) and the reading of the title return, and nothing but
    [Exception]s is raised, the capture returns [str(Path(output_path))]:
    a navigation that fails, a selector that never shows and a title bar
    that cannot be drawn leave the result as it is. *)
Theorem capture_tolerates {G : Engine} (spec : ScreenshotSpec.t) (base_url : string)
    (st : BSt G) (u s : string) :
  context (self st) = true ->
  title_bar_renderer (self st) <> None ->
  ScreenshotSpec.url spec = PStr u ->
  ScreenshotSpec.output_path spec = PStr s ->
  (forall op m, required op = true -> fst (perform G op m) = Returned tt) ->
  (forall m, exists t, fst (page_title G m) = Returned t) ->
  (forall op m msg, fst (perform G op m) <> Raised (BaseException msg)) ->
  fst (capture spec base_url st) = Returned (Path.to_str (Path.parse s)).
Proof.
  intros Hc Hr Hu Ho Hreq Ht Hex.
  unfold capture, resolve_url, output_path_of. rewrite Hu, Ho.
  unfold and_then at 1, attr at 1. rewrite Hc.
  unfold and_then at 1. rewrite call_run, Hreq by reflexivity. cbn [fst snd machine self ops].
  unfold and_then at 1. rewrite call_run, Hreq by reflexivity. cbn [fst snd machine self ops].
  unfold and_then at 1, value at 1.
  unfold and_then at 1, except_Exception at 1. rewrite call_run. cbn [machine self ops].
  match goal with |- context [fst (perform G (page_goto ?a) ?m)] =>
    pose proof (Hex (page_goto a) m) as Hg;
    destruct (fst (perform G (page_goto a) m)) as [[]|[msg|msg]] end;
    [| |exfalso; exact (Hg msg eq_refl)].
  all: unfold and_then at 1.
  all: destruct (truthy (ScreenshotSpec.wait_for spec)).
  all: unfold except_all, done; try rewrite call_run; cbn [machine self ops fst snd].
  all: try match goal with |- context [fst (perform _ (page_wait_for_selector ?x) ?m)] =>
         destruct (fst (perform _ (page_wait_for_selector x) m)) as [[]|ew] end.
  all: unfold and_then at 1; rewrite call_run, Hreq by reflexivity;
       cbn [fst snd machine self ops].
  all: unfold and_then at 1, title at 1; cbn [machine self ops].
  all: match goal with |- context [page_title _ ?m] =>
         destruct (Ht m) as [t Et]; destruct (page_title _ m) as [rt m6];
         cbn [fst] in Et; subst rt end.
  all: unfold and_then at 1, value at 1.
  all: unfold and_then at 1; rewrite call_run, Hreq by reflexivity;
       cbn [fst snd machine self ops].
  all: unfold and_then at 1; rewrite call_run, Hreq by reflexivity;
       cbn [fst snd machine self ops].
  all: unfold and_then at 1; rewrite call_run, Hreq by reflexivity;
       cbn [fst snd machine self ops].
  all: unfold and_then at 1.
  all: destruct (truthy (ScreenshotSpec.show_title_bar spec)); [|reflexivity].
  all: unfold and_then, attr, fail, except_Exception; cbn [machine self ops].
  all: destruct (title_bar_renderer (self st)) as [[|]|]; [|reflexivity|now elim Hr].
  all: rewrite call_run; cbn [machine self ops].
  all: match goal with |- context [fst (perform _ (add_title_bar ?a ?b ?c ?d) ?m)] =>
         pose proof (Hex (add_title_bar a b c d) m) as Hb;
         destruct (fst (perform _ (add_title_bar a b c d) m)) as [[]|[msg'|msg']] end;
       [reflexivity | reflexivity | exfalso; exact (Hb msg' eq_refl)].
Qed.

(** X16 at work: on an engine whose navigation, wait and title bar all
    raise, the capture of [/about] to [out//02_about.png] returns the path
    [out/02_about.png]; the title bar was tried on that file, with the
    title ["Sans titre"] of a page without title and the address under the
    base address. *)
Lemma capture_tolerates_witness :
  fst (capture ScriptedEngine.spec SymfonyServer.base_url (ScriptedEngine.started ""))
  = Returned "out/02_about.png"
  /\ last (ops (snd (capture ScriptedEngine.spec SymfonyServer.base_url
                       (ScriptedEngine.started ""))))
     = Some (add_title_bar "out/02_about.png" "Sans titre" "http://127.0.0.1:8000/about"
               (PStr "chrome")).
Proof.
  split; [|vm_compute; reflexivity].
  apply (capture_tolerates ScriptedEngine.spec SymfonyServer.base_url
           (ScriptedEngine.started "") "/about" "out//02_about.png");
    [reflexivity | discriminate | reflexivity | reflexivity | | | ].
  - intros [] m H; try discriminate H; reflexivity.
  - intros m. exists "". reflexivity.
  - intros op m msg. cbn. destruct (ScriptedEngine.flaky op); discriminate.
Defined.


End CaptureExtras.

(** ** The orchestrator over the browser *)

Section Justified.

Context {B : Backend}.

Import ScreenshotOrchestrator.

(** A property of an entry that the world justifies: once justified an
    entry stays so whatever the backend does, an entry without a path is
    always justified, and a capture that returns justifies the entry of its
    path. *)
Variable J : World B -> RunResult -> Prop.

Hypothesis J_checkout : forall ref w r, J w r -> J (snd (git_checkout B ref w)) r.
Hypothesis J_popen : forall w r, J w r -> J (snd (popen_server B w)) r.
Hypothesis J_terminate : forall w r, J w r -> J (snd (terminate_server B w)) r.
Hypothesis J_rmtree : forall w r, J w r -> J (snd (rmtree_cache B w)) r.
Hypothesis J_start : forall h w r, J w r -> J (snd (browser_start B h w)) r.
Hypothesis J_capture : forall spec base w r, J w r -> J (snd (browser_capture B spec base w)) r.
Hypothesis J_stop : forall w r, J w r -> J (snd (browser_stop B w)) r.
Hypothesis J_error : forall w r, r_path r = None -> J w r.
Hypothesis J_success :
  forall g prefix spec base w path w',
    browser_capture B spec base w = (Returned path, w') ->
    J w' (success_entry g prefix spec path).

Let all_J (st : St B) : Prop := Forall (J (world st)) (results st).

Lemma all_J_lift {A} (op : World B -> outcome A * World B) :
  (forall w r, J w r -> J (snd (op w)) r) -> keeps all_J (lift op).
Proof.
  intros Hop st H. unfold lift. specialize (Hop (world st)).
  destruct (op (world st)) as [r w]. unfold all_J in *. cbn in *.
  eapply Forall_impl; [exact H | exact Hop].
Qed.

Lemma all_J_record (c : Call) : keeps all_J (record_call c).
Proof. intros st H. exact H. Qed.

Lemma all_J_set_process (b : bool) : keeps all_J (set_process b).
Proof. intros st H. exact H. Qed.

Lemma all_J_error (r : RunResult) : r_path r = None -> keeps all_J (append_result r).
Proof.
  intros Hr st H. unfold all_J in *. cbn. apply Forall_app. split; [exact H|].
  constructor; [now apply J_error | constructor].
Qed.

Lemma all_J_start : keeps all_J (SymfonyServer.start (B := B)).
Proof.
  apply keeps_bind; [apply keeps_get_process|]. intros [|]; [apply keeps_ret|].
  apply keeps_bind; [apply all_J_lift; auto | intros _; apply all_J_set_process].
Qed.

Lemma all_J_stop : keeps all_J (SymfonyServer.stop (B := B)).
Proof.
  apply keeps_bind; [apply keeps_get_process|]. intros [|]; [|apply keeps_ret].
  apply keeps_bind; [apply all_J_lift; auto | intros _; apply all_J_set_process].
Qed.

Lemma all_J_take_screenshot (self : t) (g : CommitScreenshots.t) (prefix : string)
    (spec : ScreenshotSpec.t) :
  keeps all_J (take_screenshot self g prefix spec).
Proof.
  intros st H. unfold take_screenshot, try_except, bind, pure, record_call, lift, append_result.
  destruct (_generate_output_path (config self) (_apply_screenshot_config (config self) spec) _)
    as [out|[m|m]].
  - cbn [world process log results].
    match goal with |- context [browser_capture B ?s ?b ?w] =>
      pose proof (J_capture s b w) as Hm; pose proof (J_success g prefix s b w) as Hs;
      destruct (browser_capture B s b w) as [[path|[m|m]] w'] end;
      cbn [snd] in *; unfold all_J in *; cbn [world results] in *.
    + apply Forall_app. split; [eapply Forall_impl; [exact H | exact Hm]|].
      constructor; [now apply (Hs path w') | constructor].
    + apply Forall_app. split; [eapply Forall_impl; [exact H | exact Hm]|].
      constructor; [now apply J_error | constructor].
    + eapply Forall_impl; [exact H | exact Hm].
  - cbn [snd]. unfold all_J in *. cbn [world results]. apply Forall_app. split; [exact H|].
    constructor; [now apply J_error | constructor].
  - exact H.
Qed.

Lemma all_J_process_group (self : t) (only : option (list string)) (g : CommitScreenshots.t) :
  keeps all_J (process_group self only g).
Proof.
  unfold process_group. destruct (screenshots_to_take only g) as [|x l]; [apply keeps_ret|].
  apply keeps_try_except.
  - apply keeps_bind; [apply all_J_record|]. intros _.
    apply keeps_bind; [apply all_J_lift; auto|]. intros _.
    apply keeps_bind; [apply all_J_record|]. intros _.
    apply keeps_bind; [apply all_J_lift; auto|]. intros _.
    apply keeps_bind; [apply all_J_record|]. intros _.
    apply keeps_bind.
    { apply keeps_bind; [apply all_J_stop | intros _; apply all_J_start]. }
    intros _. apply keeps_for_each. intros spec. apply all_J_take_screenshot.
  - intros e. apply keeps_for_each. intros spec. now apply all_J_error.
Qed.

Lemma all_J_guarded_run (self : t) (args : Args) : keeps all_J (guarded_run self args).
Proof.
  apply keeps_try_finally.
  - apply keeps_bind.
    + apply keeps_bind; [apply all_J_record|]. intros _.
      apply keeps_bind; [apply all_J_lift; auto|]. intros _.
      apply keeps_bind; [apply all_J_record | intros _; apply all_J_start].
    + intros _. unfold run_from_git.
      destruct (GitProjectManager.get_screenshot_commits _); [apply keeps_ret|].
      apply keeps_for_each. intros g. apply all_J_process_group.
  - apply keeps_bind; [apply all_J_record|]. intros _.
    apply keeps_bind; [apply all_J_lift; auto|]. intros _.
    apply keeps_bind; [apply all_J_record|]. intros _.
    apply keeps_bind; [apply all_J_stop|]. intros _.
    apply keeps_bind; [apply all_J_record | intros _; apply all_J_lift; auto].
Qed.

Lemma all_J_main (env : Env) (args : Args) (w : World B) :
  Forall (J (world (snd (main env args w)))) (results (snd (main env args w))).
Proof.
  unfold main. destruct (negb _); [constructor|].
  destruct (make_orchestrator env args) as [o|e]; [|constructor].
  destruct (list_arg args); [constructor|].
  pose proof (all_J_guarded_run o args (initial B w) (List.Forall_nil _)) as H.
  destruct (guarded_run o args (initial B w)) as [[u|e] st]; exact H.
Qed.

End Justified.

Section BrowserFacts.

Import BrowserCapture.

Context {G : Engine}.

Lemma extends_done {A} (a : A) : extends (done (G := G) a).
Proof. intros st. exists []. now rewrite app_nil_r. Qed.

Lemma extends_fail {A} (e : exn) : extends (fail (G := G) (A := A) e).
Proof. intros st. exists []. now rewrite app_nil_r. Qed.

Lemma extends_value {A} (r : outcome A) : extends (value (G := G) r).
Proof. intros st. exists []. now rewrite app_nil_r. Qed.

Lemma extends_attr {A} (f : Obj -> A) : extends (attr (G := G) f).
Proof. intros st. exists []. now rewrite app_nil_r. Qed.

Lemma extends_assign (f : Obj -> Obj) : extends (assign (G := G) f).
Proof. intros st. exists []. cbn. now rewrite app_nil_r. Qed.

Lemma extends_call (op : Op) : extends (call (G := G) op).
Proof. intros st. exists [op]. now rewrite call_run. Qed.

Lemma extends_title : extends (title (G := G)).
Proof.
  intros st. exists []. unfold title. destruct (page_title G (machine st)).
  cbn. now rewrite app_nil_r.
Qed.

Lemma extends_and_then {A D} (m : C G A) (k : A -> C G D) :
  extends m -> (forall a, extends (k a)) -> extends (and_then m k).
Proof.
  intros Hm Hk st. unfold and_then. destruct (Hm st) as [l1 E1].
  destruct (m st) as [[a|e] st1]; cbn [snd] in *.
  - destruct (Hk a st1) as [l2 E2]. exists (l1 ++ l2)%list.
    now rewrite E2, E1, <- app_assoc.
  - now exists l1.
Qed.

Lemma extends_except_Exception (body : C G unit) :
  extends body -> extends (except_Exception body).
Proof.
  intros Hb st. unfold except_Exception. destruct (Hb st) as [l E].
  destruct (body st) as [[u|[m|m]] st1]; now exists l.
Qed.

Lemma extends_except_all (body : C G unit) : extends body -> extends (except_all body).
Proof.
  intros Hb st. unfold except_all. destruct (Hb st) as [l E].
  destruct (body st) as [[u|e] st1]; now exists l.
Qed.

Lemma extends_start (pil headless : bool) : extends (start (G := G) pil headless).
Proof.
  unfold start.
  repeat (apply extends_and_then; [first [apply extends_call | apply extends_assign]|];
          intros _).
  apply extends_assign.
Qed.

Lemma extends_stop : extends (stop (G := G)).
Proof.
  unfold stop.
  apply extends_and_then; [apply extends_attr|]. intros c.
  apply extends_and_then; [destruct c; [apply extends_call | apply extends_done]|]. intros _.
  apply extends_and_then; [apply extends_attr|]. intros b.
  apply extends_and_then; [destruct b; [apply extends_call | apply extends_done]|]. intros _.
  apply extends_and_then; [apply extends_attr|]. intros p.
  destruct p; [apply extends_call | apply extends_done].
Qed.

Lemma extends_capture (spec : ScreenshotSpec.t) (base_url : string) :
  extends (capture (G := G) spec base_url).
Proof.
  intros st. pose proof (capture_outcome spec base_url st) as H.
  destruct (capture spec base_url st) as [[path|e] st1]; cbn [snd].
  - destruct H as (u & s & t & _ & _ & _ & _ & E). eauto.
  - destruct H as (_ & calls & E & _). eauto.
Qed.

Lemma extends_on_machine {A} (op : Machine G -> outcome A * Machine G) :
  extends (on_machine op).
Proof.
  intros st. exists []. unfold on_machine. destruct (op (machine st)).
  cbn. now rewrite app_nil_r.
Qed.

Lemma written_grows (l l' : list Op) (r : RunResult) :
  written l r -> written (l ++ l')%list r.
Proof.
  intros H p Hp. destruct (H p Hp) as [fp Hin]. exists fp. apply in_or_app. now left.
Qed.

Lemma written_extends {A} (m : C G A) (st : BSt G) (r : RunResult) :
  extends m -> written (ops st) r -> written (ops (snd (m st))) r.
Proof. intros Hm H. destruct (Hm st) as [l E]. rewrite E. now apply written_grows. Qed.

(** A capture that returns a path asked for the screenshot of that path. *)
Lemma capture_written (spec : ScreenshotSpec.t) (base_url : string) (st st' : BSt G)
    (path : string) :
  capture spec base_url st = (Returned path, st') ->
  In (page_screenshot path (ScreenshotSpec.full_page spec)) (ops st').
Proof.
  intros E. pose proof (capture_outcome spec base_url st) as H. rewrite E in H.
  destruct H as (u & s & t & _ & _ & -> & _ & ->).
  apply in_or_app. right. unfold capture_calls.
  apply in_or_app. right. apply in_or_app. right. apply in_or_app. left.
  cbn. tauto.
Qed.

Lemma mild_done {A} (a : A) : mild (done (G := G) a).
Proof. intros st msg. discriminate. Qed.

Lemma mild_fail {A} (msg : string) : mild (fail (G := G) (A := A) (Exception msg)).
Proof. intros st m. discriminate. Qed.

Lemma mild_value {A} (r : outcome A) :
  (forall msg, r <> Raised (BaseException msg)) -> mild (value (G := G) r).
Proof. intros H st msg. apply H. Qed.

Lemma mild_attr {A} (f : Obj -> A) : mild (attr (G := G) f).
Proof. intros st msg. discriminate. Qed.

Lemma mild_assign (f : Obj -> Obj) : mild (assign (G := G) f).
Proof. intros st msg. discriminate. Qed.

Lemma mild_call (op : Op) :
  (forall op m msg, fst (perform G op m) <> Raised (BaseException msg)) ->
  mild (call (G := G) op).
Proof. intros H st msg. rewrite call_run. apply H. Qed.

Lemma mild_title :
  (forall m msg, fst (page_title G m) <> Raised (BaseException msg)) -> mild (title (G := G)).
Proof.
  intros H st msg. unfold title. specialize (H (machine st) msg).
  now destruct (page_title G (machine st)).
Qed.

Lemma mild_and_then {A D} (m : C G A) (k : A -> C G D) :
  mild m -> (forall a, mild (k a)) -> mild (and_then m k).
Proof.
  intros Hm Hk st msg. unfold and_then. specialize (Hm st msg).
  destruct (m st) as [[a|e] st1]; [apply Hk|].
  cbn in *. intros [= ->]. now apply Hm.
Qed.

Lemma mild_except_Exception (body : C G unit) : mild body -> mild (except_Exception body).
Proof.
  intros Hb st msg. unfold except_Exception. specialize (Hb st msg).
  destruct (body st) as [[u|[m|m]] st1]; [discriminate | discriminate | exact Hb].
Qed.

Lemma mild_except_all (body : C G unit) : mild (except_all (G := G) body).
Proof.
  intros st msg. unfold except_all. destruct (body st) as [[u|e] st1]; discriminate.
Qed.

Lemma mild_on_machine {A} (op : Machine G -> outcome A * Machine G) :
  (forall m msg, fst (op m) <> Raised (BaseException msg)) -> mild (on_machine (G := G) op).
Proof.
  intros H st msg. unfold on_machine. specialize (H (machine st) msg).
  now destruct (op (machine st)).
Qed.

Section Mild.

Hypothesis perform_mild : forall op m msg, fst (perform G op m) <> Raised (BaseException msg).
Hypothesis title_mild : forall m msg, fst (page_title G m) <> Raised (BaseException msg).

Lemma mild_start (pil headless : bool) : mild (start (G := G) pil headless).
Proof.
  unfold start.
  repeat (apply mild_and_then; [first [now apply mild_call | apply mild_assign]|]; intros _).
  apply mild_assign.
Qed.

Lemma mild_stop : mild (stop (G := G)).
Proof.
  unfold stop.
  apply mild_and_then; [apply mild_attr|]. intros c.
  apply mild_and_then; [destruct c; [now apply mild_call | apply mild_done]|]. intros _.
  apply mild_and_then; [apply mild_attr|]. intros b.
  apply mild_and_then; [destruct b; [now apply mild_call | apply mild_done]|]. intros _.
  apply mild_and_then; [apply mild_attr|]. intros p.
  destruct p; [now apply mild_call | apply mild_done].
Qed.

Lemma mild_capture (spec : ScreenshotSpec.t) (base_url : string) :
  mild (capture (G := G) spec base_url).
Proof.
  unfold capture.
  apply mild_and_then; [apply mild_attr|]. intros c.
  apply mild_and_then; [destruct c; [now apply mild_call | apply mild_fail]|]. intros _.
  apply mild_and_then; [now apply mild_call|]. intros _.
  apply mild_and_then.
  { apply mild_value. unfold resolve_url. destruct (ScreenshotSpec.url spec); discriminate. }
  intros url.
  apply mild_and_then; [apply mild_except_Exception; now apply mild_call|]. intros _.
  apply mild_and_then.
  { destruct (truthy _); [apply mild_except_all | apply mild_done]. }
  intros _.
  apply mild_and_then; [now apply mild_call|]. intros _.
  apply mild_and_then; [now apply mild_title|]. intros t.
  apply mild_and_then.
  { apply mild_value. unfold output_path_of.
    destruct (ScreenshotSpec.output_path spec); discriminate. }
  intros path.
  apply mild_and_then; [now apply mild_call|]. intros _.
  apply mild_and_then; [now apply mild_call|]. intros _.
  apply mild_and_then; [now apply mild_call|]. intros _.
  apply mild_and_then; [|intros _; apply mild_done].
  destruct (truthy _); [|apply mild_done].
  apply mild_and_then; [apply mild_attr|]. intros [[|]|].
  - apply mild_except_Exception. now apply mild_call.
  - apply mild_done.
  - apply mild_fail.
Qed.

End Mild.

(** Over an engine and a host that raise nothing but [Exception]s, the
    backend of the orchestrator raises nothing else: the methods of
    [BrowserCapture] add [AttributeError] and [TypeError] only. *)
Lemma engine_only_exceptions (H : Host G) (pil : bool) :
  machine_raises_only_exceptions G H -> raises_only_exceptions (engine_backend G H pil).
Proof.
  intros (Hp & Ht & Hco & Hpo & Hte & Hrm). unfold raises_only_exceptions. cbn.
  split; [intros ref w m; now apply mild_on_machine|].
  split; [intros w m; now apply mild_on_machine|].
  split; [intros w m; now apply mild_on_machine|].
  split; [intros w m; now apply mild_on_machine|].
  split; [intros h w m; now apply mild_start|].
  split; [intros spec base w m; now apply mild_capture|].
  intros w m; now apply mild_stop.
Qed.

End BrowserFacts.

Section EngineExtras.

Import BrowserCapture.

(** X18. A recorded path was written.  With [BrowserCapture] as the
    browser, on any engine and host and whatever fails, every entry of the
    results of [main] that records a path has, among the calls made to the
    engine, the screenshot to that very path. *)
Theorem recorded_paths_written {G : Engine} (H : Host G) (PIL_AVAILABLE : bool)
    (env : Env) (args : Args) (w : BSt G) :
  Forall (written (ops (world (snd (main (B := engine_backend G H PIL_AVAILABLE) env args w)))))
         (results (snd (main (B := engine_backend G H PIL_AVAILABLE) env args w))).
Proof.
  apply (all_J_main (B := engine_backend G H PIL_AVAILABLE) (fun w r => written (ops w) r)).
  - intros ref st r. apply (written_extends (on_machine (checkout H ref))), extends_on_machine.
  - intros st r. apply (written_extends (on_machine (popen H))), extends_on_machine.
  - intros st r. apply (written_extends (on_machine (terminate H))), extends_on_machine.
  - intros st r. apply (written_extends (on_machine (rmtree H))), extends_on_machine.
  - intros h st r. apply (written_extends (start PIL_AVAILABLE h)), extends_start.
  - intros spec base st r. apply (written_extends (capture spec base)), extends_capture.
  - intros st r. apply (written_extends stop), extends_stop.
  - intros st r Hr p Hp. rewrite Hr in Hp. discriminate.
  - intros g prefix spec base st path st' E p [= <-].
    exists (ScreenshotSpec.full_page spec). exact (capture_written spec base st st' path E).
Qed.

(** X19. [BrowserCapture] raises nothing that [except Exception] would
    miss, unless the engine does.  Over an engine and a host that raise
    nothing but [Exception]s, the whole backend of the orchestrator raises
    nothing else, so that [run_from_git] returns, from any state of the
    browser, with one entry for each planned capture, in the order of the
    plan. *)
Theorem engine_run_records_plan {G : Engine} (H : Host G) (PIL_AVAILABLE : bool)
    (self : ScreenshotOrchestrator.t) (only : option (list string))
    (st : St (engine_backend G H PIL_AVAILABLE)) :
  machine_raises_only_exceptions G H ->
  raises_only_exceptions (engine_backend G H PIL_AVAILABLE)
  /\ exists l st',
       ScreenshotOrchestrator.run_from_git self only st = (Returned tt, st')
       /\ results st' = (results st ++ l)%list
       /\ map entry_key l
          = flat_map (fun g => map (planned_key g)
                                 (ScreenshotOrchestrator.screenshots_to_take only g))
              (GitProjectManager.get_screenshot_commits
                 (GitProjectManager.commits (ScreenshotOrchestrator.git_manager self))).
Proof.
  intros Hm. pose proof (engine_only_exceptions H PIL_AVAILABLE Hm) as Hwb.
  split; [exact Hwb|].
  destruct (run_from_git_keys self only st Hwb) as (l & st' & E & R & K & _).
  exists l, st'. auto.
Qed.

(** X19 at work: on the scripted engine, whose navigation, selector wait and
    title bar raise, the run on the example history, after a setup, records
    its three captures, all of them successes. *)
Lemma engine_run_witness :
  map (fun r => (r_filename r, r_path r))
    (results (snd (ScreenshotOrchestrator.run_from_git
                     (B := engine_backend (ScriptedEngine.engine "") (scripted_host "") true)
                     (Scripted.orchestrator empty_config) None
                     (snd (ScreenshotOrchestrator.setup
                             (B := engine_backend (ScriptedEngine.engine "") (scripted_host "") true)
                             true
                             (initial (engine_backend (ScriptedEngine.engine "") (scripted_host "") true)
                                (Build_BSt (ScriptedEngine.engine "") 0%nat fresh [])))))))
  = [("01_home.png", Some "screenshots/01_home.png");
     ("02_home.png", Some "screenshots/02_home.png");
     ("02_about.png", Some "screenshots/02_about.png")].
Proof.
  assert (Hm : machine_raises_only_exceptions (ScriptedEngine.engine "") (scripted_host "")).
  { repeat split; try (intros; discriminate).
    intros op m msg. cbn. destruct (ScriptedEngine.flaky op); discriminate. }
  destruct (engine_run_records_plan (scripted_host "") true
              (Scripted.orchestrator empty_config) None
              (snd (ScreenshotOrchestrator.setup
                      (B := engine_backend (ScriptedEngine.engine "") (scripted_host "") true)
                      true
                      (initial (engine_backend (ScriptedEngine.engine "") (scripted_host "") true)
                         (Build_BSt (ScriptedEngine.engine "") 0%nat fresh []))))
              Hm) as (_ & l & st' & E & _).
  vm_compute. reflexivity.
Defined.

End EngineExtras.

(** ** The title bar *)

Section TitleBar.

Import TitleBarRenderer.

Lemma STYLES_lookup (s : string) :
  STYLES !! s
  = if String.eqb s "chrome" then Some chrome
    else if String.eqb s "safari" then Some safari
    else if String.eqb s "minimal" then Some minimal
    else None.
Proof.
  unfold STYLES. rewrite !lookup_insert, lookup_singleton.
  destruct (String.eqb_spec s "chrome") as [->|H1]; [reflexivity|].
  destruct (String.eqb_spec s "safari") as [->|H2]; [reflexivity|].
  destruct (String.eqb_spec s "minimal") as [->|H3]; [reflexivity|].
  repeat (destruct (decide _) as [E|_]; [now subst s|]). reflexivity.
Qed.

Lemma style_config_named (style : pyval) :
  style_config style = Returned (style_named style).
Proof.
  unfold style_config, style_named. rewrite STYLES_lookup. cbn [String.eqb].
  change (String.eqb "chrome" "chrome") with true. cbv iota.
  destruct style as [|b|z|q|s]; try reflexivity.
  rewrite STYLES_lookup.
  destruct (String.eqb_spec s "chrome") as [->|H1]; [reflexivity|].
  destruct (String.eqb s "safari"); [reflexivity|].
  destruct (String.eqb s "minimal"); reflexivity.
Qed.



End TitleBar.

Section TitleBarExtras.

Import TitleBarRenderer.


(** X21. The address bar does not fit in the bar of two styles.  It is
    drawn from row 34 over the height of the style and before the capture
    is pasted at the row where the bar ends: it ends 6 rows above that row
    for chrome, but 10 rows below it for safari and 18 rows below it for
    minimal; the capture is pasted afterwards, from the row where the bar
    ends. *)
Theorem url_bar_overflows (title url : string) (style : pyval) (ms : Measures) :
  let sc := style_named style in
  exists pic before between x1 radius fill,
    add_title_bar title url style ms = Returned pic
    /\ draws pic
       = (before ++ rounded_rectangle 80 34 x1 (height sc + overflow sc) radius fill
                 :: between ++ [paste 0 (height sc)])%list
    /\ overflow sc
       = match style with
         | PStr s => if String.eqb s "safari" then 10
                     else if String.eqb s "minimal" then 18 else -6
         | _ => -6
         end
    /\ (0 < overflow sc <-> style = PStr "safari" \/ style = PStr "minimal").
Proof.
  intros sc. unfold add_title_bar. rewrite style_config_named. fold sc.
  destruct ms as [[w h] [[[tx0 ty0] tx1] ty1] [[[ux0 uy0] ux1] uy1]].
  cbn [original_size title_bbox url_bbox].
  assert (Ho : overflow sc
               = match style with
                 | PStr s => if String.eqb s "safari" then 10
                             else if String.eqb s "minimal" then 18 else -6
                 | _ => -6
                 end).
  { subst sc. unfold style_named. destruct style as [|b|z|q|s]; try reflexivity.
    destruct (String.eqb s "safari"); [reflexivity|].
    destruct (String.eqb s "minimal"); reflexivity. }
  eexists _, (buttons sc ++ [_])%list, [_], _, _, _.
  split; [reflexivity|]. split; [|split; [exact Ho|]].
  - replace (height sc + overflow sc) with (34 + url_bar_height sc)
      by (unfold overflow; lia).
    cbn [draws]. rewrite <- app_assoc. reflexivity.
  - rewrite Ho. destruct style as [|b|z|q|s]; try (split; [lia | intros [H|H]; discriminate H]).
    destruct (String.eqb_spec s "safari") as [->|H1]; [split; [auto | lia]|].
    destruct (String.eqb_spec s "minimal") as [->|H2]; [split; [auto | lia]|].
    split; [lia | intros [[= ->]|[= ->]]; contradiction].
Qed.

End TitleBarExtras.

(** ** The files of a commit *)

Section Files.

Import GitProjectManager.

Lemma add_file_lookup (files : gmap string string) (item : TreeItem) (p : string) :
  add_file files item !! p = match text_at p item with Some t => Some t | None => files !! p end.
Proof.
  unfold add_file, text_at. destruct (String.eqb (item_type item) "blob"); [|reflexivity].
  cbn [andb]. destruct (item_text item) as [text|e].
  - rewrite lookup_insert. destruct (String.eqb_spec (item_path item) p) as [->|Hne].
    + now rewrite decide_True.
    + now rewrite decide_False.
  - now destruct (String.eqb _ p).
Qed.

Lemma foldl_add_file_lookup (tree : list TreeItem) (files : gmap string string) (p : string) :
  foldl add_file files tree !! p
  = match last (omap (text_at p) tree) with Some t => Some t | None => files !! p end.
Proof.
  revert files. induction tree as [|item tree IH]; intros files; [reflexivity|].
  cbn [foldl]. rewrite IH, add_file_lookup.
  change (omap (text_at p) (item :: tree))
    with (match text_at p item with
          | Some t => t :: omap (text_at p) tree
          | None => omap (text_at p) tree
          end).
  destruct (text_at p item) as [t|]; [|reflexivity].
  rewrite last_cons. now destruct (last (omap (text_at p) tree)).
Qed.

End Files.

Section FilesExtras.

Import GitProjectManager.

(** X22. The files of a commit.  Once the commit is found,
    [get_files_at_commit] returns, whatever the reading of a blob does; the
    text it gives for a path is that of the last blob of the traversal at
    that path that could be read and decoded, and a path has no text when
    there is no such blob: trees and submodules are left out, and so is,
    without a word, every file that is not UTF-8. *)
Theorem files_at_commit (tree : list TreeItem) :
  exists files,
    get_files_at_commit (Returned tree) = Returned files
    /\ (forall p, files !! p = last (omap (text_at p) tree))
    /\ (forall p, is_Some (files !! p) ->
          exists item text,
            In item tree /\ item_type item = "blob" /\ item_path item = p
            /\ item_text item = Returned text).
Proof.
  exists (foldl add_file ∅ tree). split; [reflexivity|].
  assert (Hl : forall p, foldl add_file ∅ tree !! p = last (omap (text_at p) tree)).
  { intros p. rewrite foldl_add_file_lookup, lookup_empty.
    now destruct (last (omap (text_at p) tree)). }
  split; [exact Hl|].
  intros p [t Ht]. rewrite Hl in Ht. apply last_Some_elem_of in Ht.
  apply list_elem_of_omap in Ht as (item & Hin & Ht).
  unfold text_at in Ht.
  destruct (String.eqb_spec (item_type item) "blob") as [Hty|]; [|discriminate].
  destruct (String.eqb_spec (item_path item) p) as [Hp|]; [|discriminate].
  cbn [andb] in Ht. destruct (item_text item) as [text|e] eqn:Etext; [|discriminate].
  exists item, text. split; [now apply list_elem_of_In|]. auto.
Qed.

Example binary_file_left_out :
  get_files_at_commit
    (Returned [ {| item_type := "tree"; item_path := "src"; item_text := Returned "" |};
                {| item_type := "blob"; item_path := "src/a.php"; item_text := Returned "<?php" |};
                {| item_type := "blob"; item_path := "logo.png";
                   item_text := Raised (Exception "'utf-8' codec can't decode byte 0x89") |} ])
  = Returned {[ "src/a.php" := "<?php" ]}.
Proof. reflexivity. Qed.

End FilesExtras.

(** ** The calls of a group *)

Section GroupCalls.

Context {B : Backend}.

Import ScreenshotOrchestrator.

Lemma start_log (st : St B) : log (snd (SymfonyServer.start st)) = log st.
Proof.
  unfold SymfonyServer.start, bind, get_process, lift, set_process, ret. cbv beta iota.
  destruct (process st); [reflexivity|]. cbv beta iota.
  destruct (popen_server B (world st)) as [[[]|e] w]; reflexivity.
Qed.

Lemma stop_log (st : St B) : log (snd (SymfonyServer.stop st)) = log st.
Proof.
  unfold SymfonyServer.stop, bind, get_process, lift, set_process, ret. cbv beta iota.
  destruct (process st); [|reflexivity]. cbv beta iota.
  destruct (terminate_server B (world st)) as [[[]|e] w]; reflexivity.
Qed.

Lemma restart_log (st : St B) : log (snd (SymfonyServer.restart st)) = log st.
Proof.
  unfold SymfonyServer.restart, bind. pose proof (stop_log st) as Hs.
  destruct (SymfonyServer.stop st) as [[[]|e] st1]; cbn [snd] in *; [|exact Hs].
  now rewrite start_log.
Qed.

Lemma take_screenshot_log (self : t) (g : CommitScreenshots.t) (prefix : string)
    (spec : ScreenshotSpec.t) (st : St B) :
  exists captures,
    log (snd (take_screenshot self g prefix spec st)) = (log st ++ captures)%list
    /\ forallb is_capture captures = true.
Proof.
  unfold take_screenshot, try_except, bind, pure, record_call, lift, append_result.
  destruct (_generate_output_path (config self) (_apply_screenshot_config (config self) spec) _)
    as [out|[m|m]].
  - cbn [world process log results].
    match goal with |- context [browser_capture B ?s ?b ?w] =>
      destruct (browser_capture B s b w) as [[path|[m|m]] w'] end;
      eexists [_]; split; reflexivity.
  - exists []. split; [cbn; now rewrite app_nil_r | reflexivity].
  - exists []. split; [cbn; now rewrite app_nil_r | reflexivity].
Qed.

Lemma for_each_take_log (self : t) (g : CommitScreenshots.t) (prefix : string)
    (specs : list ScreenshotSpec.t) (st : St B) :
  exists captures,
    log (snd (for_each specs (take_screenshot self g prefix) st)) = (log st ++ captures)%list
    /\ forallb is_capture captures = true.
Proof.
  revert st. induction specs as [|spec specs IH]; intros st.
  - exists []. split; [cbn; now rewrite app_nil_r | reflexivity].
  - cbn [for_each]. unfold bind.
    destruct (take_screenshot_log self g prefix spec st) as (c1 & E1 & F1).
    destruct (take_screenshot self g prefix spec st) as [[[]|e] st1]; cbn [snd] in *.
    + destruct (IH st1) as (c2 & E2 & F2). exists (c1 ++ c2)%list.
      split; [now rewrite E2, E1, <- app_assoc|]. now rewrite forallb_app, F1, F2.
    + now exists c1.
Qed.

(** The log after the handler of the checkout is the log before it. *)
Lemma handler_log (g : CommitScreenshots.t) (prefix e : string)
    (specs : list ScreenshotSpec.t) (st : St B) :
  log (snd (for_each specs
              (fun spec => append_result (checkout_failed_entry g prefix spec e)) st))
  = log st.
Proof. now rewrite for_each_append. Qed.

(** The calls one group adds to the log. *)
Lemma process_group_log (self : t) (only : option (list string)) (g : CommitScreenshots.t)
    (st : St B) :
  exists calls,
    log (snd (process_group self only g st)) = (log st ++ calls)%list
    /\ group_calls (CommitScreenshots.commit_sha g)
         (match screenshots_to_take only g with [] => true | _ => false end) calls.
Proof.
  unfold process_group, group_calls.
  destruct (screenshots_to_take only g) as [|x to_take].
  { exists []. split; [cbn; now rewrite app_nil_r | reflexivity]. }
  set (specs := x :: to_take). clearbody specs.
  set (sha := CommitScreenshots.commit_sha g).
  set (prefix := commit_prefix (CommitScreenshots.index g)).
  unfold try_except at 1.
  unfold bind at 1, record_call at 1.
  unfold bind at 1, GitProjectManager.checkout_commit, lift at 1. cbn [world process log results].
  destruct (git_checkout B sha (world st)) as [[[]|[m|m]] w1].
  2:{ rewrite handler_log. cbn [log]. exists [checkout_commit_call sha].
      split; [reflexivity|]. exists []. auto. }
  2:{ cbn [snd log]. exists [checkout_commit_call sha].
      split; [reflexivity|]. exists []. auto. }
  unfold bind at 1, record_call at 1.
  unfold bind at 1, SymfonyServer.clear_cache, lift at 1. cbn [world process log results].
  destruct (rmtree_cache B w1) as [[[]|[m|m]] w2].
  2:{ rewrite handler_log. cbn [log]. exists [checkout_commit_call sha; clear_cache_call].
      split; [now rewrite <- app_assoc|]. exists [clear_cache_call]. auto. }
  2:{ cbn [snd log]. exists [checkout_commit_call sha; clear_cache_call].
      split; [now rewrite <- app_assoc|]. exists [clear_cache_call]. auto. }
  unfold bind at 1, record_call at 1.
  unfold bind at 1.
  match goal with |- context [SymfonyServer.restart ?s] =>
    pose proof (restart_log s) as Hr; destruct (SymfonyServer.restart s) as [[[]|[m|m]] st3] end;
    cbn [snd log] in Hr.
  2:{ rewrite handler_log, Hr.
      exists [checkout_commit_call sha; clear_cache_call; server_restart_call].
      split; [now rewrite <- !app_assoc|]. eexists. split; [reflexivity|].
      right. right. exists []. auto. }
  2:{ cbn [snd]. rewrite Hr.
      exists [checkout_commit_call sha; clear_cache_call; server_restart_call].
      split; [now rewrite <- !app_assoc|]. eexists. split; [reflexivity|].
      right. right. exists []. auto. }
  destruct (for_each_take_log self g prefix specs st3) as (captures & E & F).
  exists (checkout_commit_call sha :: clear_cache_call :: server_restart_call :: captures).
  split.
  - destruct (for_each specs (take_screenshot self g prefix) st3) as [[[]|[m|m]] st4];
      cbn [snd] in *; rewrite ?handler_log, E, Hr, <- !app_assoc; reflexivity.
  - eexists. split; [reflexivity|]. right. right. exists captures. auto.
Qed.

End GroupCalls.

Section GroupCallsExtras.

Import ScreenshotOrchestrator.

(** X23. The calls of a group come in one order.  A group that has no
    capture to take adds no call.  Any other group adds the checkout of
    its commit, then the clearing of the cache, then the restart of the
    server, then captures only: no capture is called before the commit was
    checked out, the cache cleared and the server restarted, and nothing
    but captures is called after the restart. *)
Theorem group_call_order {B : Backend} (self : t) (only : option (list string))
    (g : CommitScreenshots.t) (st : St B) :
  exists calls,
    log (snd (process_group self only g st)) = (log st ++ calls)%list
    /\ group_calls (CommitScreenshots.commit_sha g)
         (match screenshots_to_take only g with [] => true | _ => false end) calls
    /\ (forall spec base before after,
          calls = (before ++ capture_call spec base :: after)%list ->
          exists captures,
            before
            = (checkout_commit_call (CommitScreenshots.commit_sha g)
               :: clear_cache_call :: server_restart_call :: captures)
            /\ forallb is_capture captures = true
            /\ forallb is_capture after = true).
Proof.
  destruct (process_group_log self only g st) as (calls & E & Hg).
  exists calls. split; [exact E|]. split; [exact Hg|].
  intros spec base before after Hc. unfold group_calls in Hg.
  destruct (screenshots_to_take only g) as [|x l].
  { subst calls. now destruct before. }
  destruct Hg as (tail & -> & [-> | [-> | (captures & -> & F)]]).
  - destruct before as [|c [|c' before]]; discriminate Hc.
  - destruct before as [|c [|c' [|c'' before]]]; discriminate Hc.
  - destruct before as [|c1 [|c2 [|c3 before]]]; try discriminate Hc.
    injection Hc as <- <- <- Hc. subst captures.
    rewrite forallb_app in F. apply andb_true_iff in F as [F1 F2].
    exists before. split; [reflexivity|]. split; [exact F1|].
    cbn in F2. exact F2.
Qed.

End GroupCallsExtras.
